(** * tinysom: batch Self-Organising Map training

    A shallow embedding of [tinysom.py] (classes [SOM] and [SOM_cluster]).

    Numbers.  The program computes on IEEE-754 doubles through NumPy.  A
    double is modelled as an extended real [F]: a finite value carries a
    real number (rounding is idealised away, arithmetic on finite values is
    exact), and the three special values [+inf], [-inf] and [nan] follow
    the IEEE rules for propagation, division by zero and comparison.
    Where the range of doubles decides what the program does, it is
    modelled: [np.exp] underflows to [0.0] and overflows to [inf], and
    [np.sqrt] of a Python integer raises from [2^64] on.  Statements
    whose truth would depend on overflow carry explicit bounds on their
    data.

    Effects.  A method runs in a state-and-exception monad [M]: the state
    is the receiver object together with the text printed so far, and both
    survive a raised exception, as they do in Python.

    Randomness.  The initial codebook is drawn with [np.random] (and, for
    ['pca'], computed with [np.linalg.eigh]); the matrix that the
    initialiser produces is an input [W0] of [fit].  The conditions under
    which the initialiser raises instead are modelled.

    Plotting.  [umatrix] is modelled by the array that it builds and
    stores as [self.umat]; the calls into matplotlib are not modelled.
    [component_planes] only draws and is left out. *)

From Stdlib Require Import Reals Lra Lia ZArith String Bool Arith List Sorted.
Import ListNotations.

(* ================================================================= *)
(** ** Extended reals: the values of a NumPy float array *)

Inductive F : Type :=
| Fin (r : R)
| PInf
| NInf
| NaN.

Definition Rsign (r : R) : comparison :=
  if Rlt_dec r 0 then Lt else if Rlt_dec 0 r then Gt else Eq.

Definition Fis_nan (x : F) : bool :=
  match x with NaN => true | _ => false end.

Definition Fis_finite (x : F) : bool :=
  match x with Fin _ => true | _ => false end.

Definition Fneg (x : F) : F :=
  match x with
  | Fin r => Fin (- r)
  | PInf => NInf
  | NInf => PInf
  | NaN => NaN
  end.

Definition Fadd (x y : F) : F :=
  match x, y with
  | NaN, _ | _, NaN => NaN
  | Fin a, Fin b => Fin (a + b)
  | PInf, NInf | NInf, PInf => NaN
  | PInf, _ | _, PInf => PInf
  | NInf, _ | _, NInf => NInf
  end.

Definition Fsub (x y : F) : F := Fadd x (Fneg y).

(** An infinity with the sign [c]; [inf * 0] is [nan]. *)
Definition signed_inf (c : comparison) : F :=
  match c with Gt => PInf | Lt => NInf | Eq => NaN end.

Definition Fmul (x y : F) : F :=
  match x, y with
  | NaN, _ | _, NaN => NaN
  | Fin a, Fin b => Fin (a * b)
  | Fin a, PInf | PInf, Fin a => signed_inf (Rsign a)
  | Fin a, NInf | NInf, Fin a => signed_inf (CompOpp (Rsign a))
  | PInf, PInf | NInf, NInf => PInf
  | PInf, NInf | NInf, PInf => NInf
  end.

(** Division: a finite non-zero value over zero is an infinity, [0/0] and
    [inf/inf] are [nan], a finite value over an infinity is zero. *)
Definition Fdiv (x y : F) : F :=
  match x, y with
  | NaN, _ | _, NaN => NaN
  | Fin a, Fin b =>
      if Req_dec_T b 0 then signed_inf (Rsign a) else Fin (a / b)
  | Fin _, PInf | Fin _, NInf => Fin 0
  | PInf, Fin b => if Rlt_dec b 0 then NInf else PInf
  | NInf, Fin b => if Rlt_dec b 0 then PInf else NInf
  | PInf, _ | NInf, _ => NaN
  end.

Definition Fsqrt (x : F) : F :=
  match x with
  | Fin a => if Rlt_dec a 0 then NaN else Fin (sqrt a)
  | PInf => PInf
  | NInf | NaN => NaN
  end.

(** [np.exp] of a finite double: the result is [0.0] where the
    exponential lies at or below half the smallest subnormal double (for
    an argument below about [-745]) and [inf] from [2^1024] on (above
    about [709]). *)
Definition np_exp (a : R) : F :=
  if Rle_dec (exp a) (/ 2 ^ 1075) then Fin 0
  else if Rle_dec (2 ^ 1024) (exp a) then PInf
  else Fin (exp a).

Definition Fexp (x : F) : F :=
  match x with
  | Fin a => np_exp a
  | PInf => PInf
  | NInf => Fin 0
  | NaN => NaN
  end.

(** Comparisons are false as soon as one side is [nan]. *)
Definition Fleb (x y : F) : bool :=
  match x, y with
  | NaN, _ | _, NaN => false
  | Fin a, Fin b => if Rle_dec a b then true else false
  | NInf, _ | _, PInf => true
  | _, _ => false
  end.

Definition Fgeb (x y : F) : bool := Fleb y x.

Definition Fle (x y : F) : Prop := Fleb x y = true.

(** [np.maximum] and [np.minimum] propagate [nan]. *)
Definition Fmaximum (x y : F) : F :=
  if Fis_nan x then NaN else if Fis_nan y then NaN
  else if Fleb x y then y else x.

Definition Fminimum (x y : F) : F :=
  if Fis_nan x then NaN else if Fis_nan y then NaN
  else if Fleb x y then x else y.

(** [np.clip(x, lo, hi)] *)
Definition Fclip (x lo hi : F) : F := Fminimum (Fmaximum x lo) hi.

(** An integer array entry used in a float expression. *)
Definition FZ (z : Z) : F := Fin (IZR z).

Definition Fsquare (x : F) : F := Fmul x x.

(** [a.sum()] of a one-dimensional array; the empty sum is [0.0]. *)
Definition Fsum (l : list F) : F := fold_right Fadd (Fin 0) l.

(* ================================================================= *)
(** ** Exceptions and the method monad *)

Inductive exn : Type :=
| ValueError
| TypeError
| AttributeError
| IndexError
| LinAlgError.

Definition res (A : Type) : Type := (exn + A)%type.

Definition res_bind {A B} (r : res A) (k : A -> res B) : res B :=
  match r with inl e => inl e | inr a => k a end.

(** A method on a receiver of type [St]: it reads and updates the object,
    appends to what was printed, and returns or raises. *)
Definition M (St A : Type) : Type :=
  St -> list string -> res A * St * list string.

Definition ret {St A} (a : A) : M St A := fun s out => (inr a, s, out).

Definition raise {St A} (e : exn) : M St A := fun s out => (inl e, s, out).

Definition bind {St A B} (m : M St A) (k : A -> M St B) : M St B :=
  fun s out =>
    match m s out with
    | (inl e, s', out') => (inl e, s', out')
    | (inr a, s', out') => k a s' out'
    end.

Definition get {St} : M St St := fun s out => (inr s, s, out).

Definition modify {St} (f : St -> St) : M St unit :=
  fun s out => (inr tt, f s, out).

Definition print {St} (msg : string) : M St unit :=
  fun s out => (inr tt, s, (out ++ [msg])%list).

Definition lift {St A} (r : res A) : M St A := fun s out => (r, s, out).

(** Read an attribute that may be [None] or absent. *)
Definition attr {St A} (f : St -> option A) (e : exn) : M St A :=
  fun s out =>
    match f s with
    | Some a => (inr a, s, out)
    | None => (inl e, s, out)
    end.

Declare Scope m_scope.
Delimit Scope m_scope with m.
Notation "x <- m ;; k" := (bind m (fun x => k))
  (at level 61, m at next level, right associativity) : m_scope.
Notation "m ;;; k" := (bind m (fun _ => k))
  (at level 61, right associativity) : m_scope.

(** [for i in range(n): body i], starting at [i0]. *)
Fixpoint for_range {St} (n : nat) (i0 : nat) (body : nat -> M St unit)
  : M St unit :=
  match n with
  | O => ret tt
  | S n' => bind (body i0) (fun _ => for_range n' (S i0) body)
  end.

(** Run a method on another object, sharing the printed text. *)
Definition on_object {St T A} (obj : T) (m : M T A) : M St (A * T) :=
  fun s out =>
    match m obj out with
    | (inl e, _, out') => (inl e, s, out')
    | (inr a, obj', out') => (inr (a, obj'), s, out')
    end.

(** Run a method of the base class on the base part of a subclass object. *)
Definition zoom {St T A} (proj : T -> St) (upd : St -> T -> T) (m : M St A)
  : M T A :=
  fun t out =>
    match m (proj t) out with
    | (r, s', out') => (r, upd s' t, out')
    end.

Definition result_of {St A} (x : res A * St * list string) : res A :=
  fst (fst x).
Definition state_of {St A} (x : res A * St * list string) : St :=
  snd (fst x).
Definition output_of {St A} (x : res A * St * list string) : list string :=
  snd x.

(* ================================================================= *)
(** ** NumPy operations used by the program *)

(** A two-dimensional float array, as the list of its rows. *)
Abbreviation matrix := (list (list F)) (only parsing).

Fixpoint map2 {A B C} (f : A -> B -> C) (l1 : list A) (l2 : list B)
  : list C :=
  match l1, l2 with
  | a :: l1', b :: l2' => f a b :: map2 f l1' l2'
  | _, _ => []
  end.

Fixpoint res_mapM {A B} (f : A -> res B) (l : list A) : res (list B) :=
  match l with
  | [] => inr []
  | a :: l' =>
      res_bind (f a) (fun b =>
      res_bind (res_mapM f l') (fun bs => inr (b :: bs)))
  end.

(** [np.arange(n)] *)
Definition arange (n : Z) : list Z := map Z.of_nat (seq 0 (Z.to_nat n)).

(** [%] and [//] on integer arrays: Python's floor convention, and [0]
    where the divisor is [0]. *)
Definition np_mod (a b : Z) : Z := if (b =? 0)%Z then 0%Z else (a mod b)%Z.
Definition np_floordiv (a b : Z) : Z := (a / b)%Z.

(** [u[:,None] op v[None,:]] *)
Definition outer {A B C} (f : A -> B -> C) (u : list A) (v : list B)
  : list (list C) :=
  map (fun a => map (f a) v) u.

(** Broadcasting of two one-dimensional operands: equal lengths combine
    pointwise, a length-one operand is stretched, anything else raises. *)
Definition bcast2 {A B C} (f : A -> B -> C) (u : list A) (v : list B)
  : res (list C) :=
  if (length u =? length v)%nat then inr (map2 f u v)
  else match u, v with
       | [a], _ => inr (map (f a) v)
       | _, [b] => inr (map (fun a => f a b) u)
       | _, _ => inl ValueError
       end.

(** [a[idx]] for an integer index array. *)
Definition take {A} (a : list A) (idx : list nat) : res (list A) :=
  res_mapM (fun i => match nth_error a i with
                     | Some x => inr x
                     | None => inl IndexError
                     end) idx.

(** [((x - w)**2).sum()] for two feature rows. *)
Definition sqdist (x w : list F) : res F :=
  res_bind (bcast2 Fsub x w) (fun d => inr (Fsum (map Fsquare d))).

(** [np.argmin] of a row: the first minimum; a [nan] counts as smaller
    than everything, so the first [nan] wins.  [best] is the current
    minimum, found at [bi]; [i] is the index of the head of [l]. *)
Fixpoint argmin_from (best : F) (bi i : nat) (l : list F) : nat :=
  match l with
  | [] => bi
  | v :: l' =>
      if Fgeb v best then argmin_from best bi (S i) l'
      else if Fis_nan v then i
      else argmin_from v i (S i) l'
  end.

Definition argmin (l : list F) : res nat :=
  match l with
  | [] => inl ValueError
  | v :: l' => inr (if Fis_nan v then O else argmin_from v 0 1 l')
  end.

(** The order of [np.sort] on floats: [nan] goes last. *)
Definition sort_ltb (a b : F) : bool :=
  (negb (Fgeb a b) && negb (Fis_nan a) && negb (Fis_nan b))
  || (Fis_nan b && negb (Fis_nan a)).

(** [row.argsort()[0]]: the index that sorts first.  Among equal keys the
    lowest index is returned. *)
Fixpoint argfirst_from (best : F) (bi i : nat) (l : list F) : nat :=
  match l with
  | [] => bi
  | v :: l' =>
      if sort_ltb v best then argfirst_from v i (S i) l'
      else argfirst_from best bi (S i) l'
  end.

Definition argsort_first (l : list F) : res nat :=
  match l with
  | [] => inl IndexError
  | v :: l' => inr (argfirst_from v 0 1 l')
  end.

(** [np.argmax] of a non-empty integer array: the first maximum. *)
Fixpoint argmax_from (best : Z) (bi i : nat) (l : list Z) : nat :=
  match l with
  | [] => bi
  | v :: l' =>
      if (best <? v)%Z then argmax_from v i (S i) l'
      else argmax_from best bi (S i) l'
  end.

Definition argmax (l : list Z) : nat :=
  match l with
  | [] => O
  | v :: l' => argmax_from v 0 1 l'
  end.

(** [np.unique(a, return_counts=True)]: the sorted distinct values, each
    with its number of occurrences. *)
Fixpoint count_in (v : Z) (acc : list (Z * Z)) : list (Z * Z) :=
  match acc with
  | [] => [(v, 1%Z)]
  | (u, c) :: acc' =>
      if (v =? u)%Z then (u, (c + 1)%Z) :: acc'
      else if (v <? u)%Z then (v, 1%Z) :: (u, c) :: acc'
      else (u, c) :: count_in v acc'
  end.

Definition unique_counts (a : list Z) : list (Z * Z) :=
  fold_left (fun acc v => count_in v acc) a [].

(** [np.linspace(start, stop, num)] with its default [endpoint=True]:
    [num] samples [start + i * step], the last one set to [stop] when
    there are at least two; a negative [num] raises.  The samples are
    exact here; in doubles two neighbouring samples can round to the same
    value, so the order of the samples is stated below with [<=]. *)
Definition linspace (start stop : R) (num : Z) : res (list R) :=
  if (num <? 0)%Z then inl ValueError
  else
    let n := Z.to_nat num in
    let delta := (stop - start)%R in
    let step := if (1 <? n)%nat then (delta / INR (n - 1))%R else delta in
    let y := map (fun i => (INR i * step + start)%R) (seq 0 n) in
    inr (if (1 <? n)%nat then removelast y ++ [stop] else y).

(** [a.sum(axis=0)] of a stack of equally shaped arrays; [zero] is the
    all-zero array of that shape, the sum of an empty stack. *)
Definition sum_axis0 {V} (add : V -> V -> V) (zero : V) (stack : list V)
  : V :=
  fold_right add zero stack.

Definition vadd (u v : list F) : list F := map2 Fadd u v.
Definition madd (a b : matrix) : matrix := map2 vadd a b.
Definition vzeros (k : nat) : list F := repeat (Fin 0) k.
Definition mzeros (k f : nat) : matrix := repeat (vzeros f) k.

(** Number of columns of a two-dimensional array given by its rows. *)
Definition n_columns {A} (a : list (list A)) : nat := length (hd [] a).

(* ================================================================= *)
(** ** class SOM *)

Record SOM : Type := mkSOM {
  n_rows : Z;
  n_cols : Z;
  neighbourhood : string;
  n_epochs : Z;
  h0_Rmax : R;
  hN_R1 : R;
  Rmax : R;
  initial : string;
  bmus : option (list nat);
  wts : option matrix;
  inertia_ : option F;
  d2mat : list (list Z);
  (** [kernels] and [dmat] do not exist before they are first assigned *)
  kernels : option (list matrix);
  dmat : option matrix
}.

Definition set_bmus (v : option (list nat)) (s : SOM) : SOM :=
  mkSOM (n_rows s) (n_cols s) (neighbourhood s) (n_epochs s) (h0_Rmax s)
        (hN_R1 s) (Rmax s) (initial s) v (wts s) (inertia_ s) (d2mat s)
        (kernels s) (dmat s).

Definition set_wts (v : option matrix) (s : SOM) : SOM :=
  mkSOM (n_rows s) (n_cols s) (neighbourhood s) (n_epochs s) (h0_Rmax s)
        (hN_R1 s) (Rmax s) (initial s) (bmus s) v (inertia_ s) (d2mat s)
        (kernels s) (dmat s).

Definition set_inertia_ (v : option F) (s : SOM) : SOM :=
  mkSOM (n_rows s) (n_cols s) (neighbourhood s) (n_epochs s) (h0_Rmax s)
        (hN_R1 s) (Rmax s) (initial s) (bmus s) (wts s) v (d2mat s)
        (kernels s) (dmat s).

Definition set_kernels (v : option (list matrix)) (s : SOM) : SOM :=
  mkSOM (n_rows s) (n_cols s) (neighbourhood s) (n_epochs s) (h0_Rmax s)
        (hN_R1 s) (Rmax s) (initial s) (bmus s) (wts s) (inertia_ s)
        (d2mat s) v (dmat s).

Definition set_dmat (v : option matrix) (s : SOM) : SOM :=
  mkSOM (n_rows s) (n_cols s) (neighbourhood s) (n_epochs s) (h0_Rmax s)
        (hN_R1 s) (Rmax s) (initial s) (bmus s) (wts s) (inertia_ s)
        (d2mat s) (kernels s) v.

Definition Zsquare (z : Z) : Z := (z ^ 2)%Z.

(** The distance-squared matrix of the lattice, as [__init__] builds it.
    The source names [ixs % n_cols] "rows" and [ixs // n_cols] "cols". *)
Definition make_d2mat (n_rows n_cols : Z) : list (list Z) :=
  let ixs := arange (n_rows * n_cols) in
  let rows := map (fun i => np_mod i n_cols) ixs in
  let cols := map (fun i => np_floordiv i n_cols) ixs in
  map2 (map2 Z.add)
       (map (map Zsquare) (outer Z.sub rows rows))
       (map (map Zsquare) (outer Z.sub cols cols)).

(** [np.sqrt] of a Python integer.  NumPy first converts the integer to
    a C integer; from [2^64] on there is none, the argument becomes an
    array of Python objects, and the call raises [TypeError]. *)
Definition np_sqrt_int (v : Z) : res R :=
  if (v <? 2 ^ 64)%Z then inr (sqrt (IZR v)) else inl TypeError.

(** The statements of [SOM.__init__] with the square root taken on the
    real numbers; [Rmax_arg = None] is the default [Rmax=None].  This is
    the whole constructor as long as
    [(n_cols-1)**2 + (n_rows-1)**2 < 2**64], which every lattice that
    fits in memory satisfies; [SOM_new] below adds the failure of
    [np.sqrt] beyond. *)
Definition SOM_init (n_rows n_cols : Z) (neighbourhood : string)
    (n_epochs : Z) (h0_Rmax hN_R1 : R) (Rmax_arg : option R)
    (initial : string) : res SOM :=
  inr {| n_rows := n_rows;
         n_cols := n_cols;
         neighbourhood := neighbourhood;
         n_epochs := n_epochs;
         h0_Rmax := h0_Rmax;
         hN_R1 := hN_R1;
         Rmax := match Rmax_arg with
                 | None => sqrt (IZR ((n_cols - 1) ^ 2 + (n_rows - 1) ^ 2))
                 | Some r => r
                 end;
         initial := initial;
         bmus := None;
         wts := None;
         inertia_ := None;
         d2mat := make_d2mat n_rows n_cols;
         kernels := None;
         dmat := None |}.

(** [SOM(n_rows, n_cols)]: every optional argument at its default. *)
Definition SOM_default (n_rows n_cols : Z) : res SOM :=
  SOM_init n_rows n_cols "gaussian" 10 (1 / 2) (1 / 100) None "pca".

(** The call [SOM(n_rows, n_cols, ...)] for integers of any size: with
    [Rmax=None], [np.sqrt] is applied to the Python integer
    [(n_cols-1)**2 + (n_rows-1)**2] before anything else can fail. *)
Definition SOM_new (n_rows n_cols : Z) (neighbourhood : string)
    (n_epochs : Z) (h0_Rmax hN_R1 : R) (Rmax_arg : option R)
    (initial : string) : res SOM :=
  match Rmax_arg with
  | None =>
      res_bind (np_sqrt_int ((n_cols - 1) ^ 2 + (n_rows - 1) ^ 2))
               (fun r => SOM_init n_rows n_cols neighbourhood n_epochs
                                  h0_Rmax hN_R1 (Some r) initial)
  | Some r => SOM_init n_rows n_cols neighbourhood n_epochs h0_Rmax hN_R1
                       (Some r) initial
  end.

Local Open Scope m_scope.

(** [SOM.calc_BMUs]:
    [((X[:,None]-self.wts)**2).sum(axis=2).argmin(axis=1)].
    [argmin] along an axis of length zero raises. *)
Definition sqdist_matrix (X W : matrix) : res matrix :=
  res_mapM (fun x => res_mapM (fun w => sqdist x w) W) X.

Definition calc_BMUs (X : matrix) : M SOM (list nat) :=
  W <- attr wts TypeError ;;
  D <- lift (sqdist_matrix X W) ;;
  match W with
  | [] => raise ValueError
  | _ :: _ => lift (res_mapM argmin D)
  end.

(** The four neighbourhood functions, at radius [sg] and grid
    distance-squared [d]. *)
Definition bubble (sg : R) (d : Z) : F :=
  if Fleb (Fsqrt (FZ d)) (Fin sg) then Fin 1 else Fin 0.

Definition linear (sg : R) (d : Z) : F :=
  Fclip (Fsub (Fin 1) (Fdiv (Fsqrt (FZ d)) (Fin sg))) (Fin 0) (Fin 1).

Definition exponential (sg : R) (d : Z) : F :=
  Fexp (Fneg (Fdiv (Fsqrt (FZ d)) (Fmul (Fin 2) (Fin sg)))).

Definition gaussian (sg : R) (d : Z) : F :=
  Fexp (Fneg (Fdiv (FZ d) (Fmul (Fin 2) (Fin sg)))).

(** [h(d2mat[None,:,:], sigs[:,None,None])] *)
Definition kernel_tensor (h : R -> Z -> F) (sigs : list R)
    (d2 : list (list Z)) : list matrix :=
  map (fun sg => map (map (h sg)) d2) sigs.

(** The radius schedule of [make_kernels]. *)
Definition sigs_of (s : SOM) : res (list R) :=
  linspace (Rmax s) (1 / 2) (n_epochs s).

(** [SOM.make_kernels]; it returns [None] on every path. *)
Definition make_kernels : M SOM unit :=
  s <- get ;;
  sigs <- lift (sigs_of s) ;;
  if (neighbourhood s =? "bubble")%string then
    modify (set_kernels (Some (kernel_tensor bubble sigs (d2mat s))))
  else if (neighbourhood s =? "linear")%string then
    modify (set_kernels (Some (kernel_tensor linear sigs (d2mat s))))
  else if (neighbourhood s =? "exponential")%string then
    modify (set_kernels (Some (kernel_tensor exponential sigs (d2mat s))))
  else if (neighbourhood s =? "gaussian")%string then
    modify (set_kernels (Some (kernel_tensor gaussian sigs (d2mat s))))
  else
    print "Invalid neighbourhood".

(** One weight update, for the BMU rows [Kb = kernels[i][bmus]] of the
    epoch's kernel: [num = (X[:,None] * Kb[:,:,None]).sum(axis=0)],
    [denom = Kb.sum(axis=0)], [num/denom[:,None]].  [k] is the number of
    neurons (columns of the kernel), [f] the number of features. *)
Definition weighted_rows (x kb : list F) : matrix :=
  map (fun kj => map (fun xf => Fmul xf kj) x) kb.

Definition numerator (k f : nat) (X Kb : matrix) : matrix :=
  sum_axis0 madd (mzeros k f) (map2 weighted_rows X Kb).

Definition denominator (k : nat) (Kb : matrix) : list F :=
  sum_axis0 vadd (vzeros k) Kb.

Definition update_weights (k f : nat) (X Kb : matrix) : matrix :=
  map2 (fun nrow d => map (fun v => Fdiv v d) nrow)
       (numerator k f X Kb) (denominator k Kb).

(** The body of the training loop of [SOM.fit], at epoch [i]. *)
Definition epoch (X : matrix) (i : nat) : M SOM unit :=
  b <- calc_BMUs X ;;
  K <- attr kernels AttributeError ;;
  Ki <- lift (match nth_error K i with
              | Some Ki => inr Ki
              | None => inl IndexError
              end) ;;
  Kb <- lift (take Ki b) ;;
  modify (set_wts (Some (update_weights (n_columns Ki) (n_columns X) X Kb))).

(** [np.sqrt(((self.wts[:,None] - self.wts)**2).sum(axis=2))] *)
Definition feature_distances (W : matrix) : res matrix :=
  res_mapM (fun wa => res_mapM (fun wb =>
    res_bind (sqdist wa wb) (fun d => inr (Fsqrt d))) W) W.

(** [((X - self.wts[self.bmus])**2).sum()] *)
Definition inertia_of (X W : matrix) (b : list nat) : res F :=
  res_bind (take W b) (fun Wb =>
  res_bind (if (length X =? length Wb)%nat
            then res_mapM (fun xw => sqdist (fst xw) (snd xw)) (combine X Wb)
            else inl ValueError) (fun ds =>
  inr (Fsum ds))).

(** The part of [SOM.fit] after the weights are initialised. *)
Definition train (X : matrix) : M SOM unit :=
  make_kernels ;;;
  s <- get ;;
  for_range (Z.to_nat (n_epochs s)) 0 (epoch X) ;;;
  b <- calc_BMUs X ;;
  modify (set_bmus (Some b)) ;;;
  W <- attr wts TypeError ;;
  D <- lift (feature_distances W) ;;
  modify (set_dmat (Some D)) ;;;
  I <- lift (inertia_of X W b) ;;
  modify (set_inertia_ (Some I)).

(** The initialiser for ['random']:
    [np.random.random(size=(n_rows*n_cols, n_feat))] raises on a negative
    length; otherwise the draw [W0] becomes the codebook. *)
Definition random_weights (W0 : matrix) : M SOM unit :=
  s <- get ;;
  if (n_rows s * n_cols s <? 0)%Z then raise ValueError
  else modify (set_wts (Some W0)).

(** The initialiser for ['pca'], with its failures in the order of the
    source.  [np.linalg.eigh] does not converge on a covariance matrix
    with [nan] or [inf] entries, which is what data with such entries
    give (with a single feature the matrix is 1 x 1 and returned as it
    is); [np.random.normal] raises on a negative dimension;
    [eigvals[-1]] and [eigvals[-2]] need two features; [reshape] cannot
    infer the [-1] of a lattice without neurons.  Otherwise the layout
    plus noise, [W0], becomes the codebook.  (A data matrix without rows
    counts as having no columns.) *)
Definition pca_weights (X W0 : matrix) : M SOM unit :=
  s <- get ;;
  let n_feat := n_columns X in
  if ((2 <=? n_feat)%nat && negb (forallb (forallb Fis_finite) X))%bool
  then raise LinAlgError
  else if ((n_rows s <? 0)%Z || (n_cols s <? 0)%Z)%bool
  then raise ValueError
  else if (n_feat <? 2)%nat then raise IndexError
  else if (n_rows s * n_cols s =? 0)%Z then raise ValueError
  else modify (set_wts (Some W0)).

(** [SOM.fit(X)].  [W0] is the codebook that the initialiser produces for
    [X] when it returns (a random draw, or the PCA layout plus random
    noise). *)
Definition fit (X W0 : matrix) : M SOM unit :=
  s <- get ;;
  if (initial s =? "random")%string then
    random_weights W0 ;;; train X
  else if (initial s =? "pca")%string then
    pca_weights X W0 ;;; train X
  else
    print "initial must be random or pca".

(** [SOM.predict(X)]; [None] is Python's [None]. *)
Definition predict (X : matrix) : M SOM (option (list nat)) :=
  s <- get ;;
  match wts s with
  | None => print "Train SOM before classifying" ;;; ret None
  | Some _ => ret (bmus s)
  end.

(* ================================================================= *)
(** ** class SOM_cluster(SOM) *)

(** An integer array of one or two dimensions ([labels_]). *)
Inductive int_array : Type :=
| Arr1 (a : list nat)
| Arr2 (a : list (list nat)).

Record SOM_cluster : Type := mkSOM_cluster {
  base : SOM;
  n_clusters : Z;
  neuron_to_label : list F;
  labels_ : option int_array
}.

Definition set_base (b : SOM) (c : SOM_cluster) : SOM_cluster :=
  mkSOM_cluster b (n_clusters c) (neuron_to_label c) (labels_ c).

Definition set_neuron_to_label (v : list F) (c : SOM_cluster) : SOM_cluster :=
  mkSOM_cluster (base c) (n_clusters c) v (labels_ c).

Definition set_labels_ (v : option int_array) (c : SOM_cluster)
  : SOM_cluster :=
  mkSOM_cluster (base c) (n_clusters c) (neuron_to_label c) v.

(** A base-class method called on [self]. *)
Definition super {A} (m : M SOM A) : M SOM_cluster A := zoom base set_base m.

(** The statements of [SOM_cluster.__init__] over [SOM_init]; [np.empty]
    raises on a negative length. *)
Definition SOM_cluster_init (n_clusters n_rows n_cols : Z)
    (neighbourhood : string) (n_epochs : Z) (h0_Rmax hN_R1 : R)
    (Rmax_arg : option R) (initial : string) : res SOM_cluster :=
  res_bind (SOM_init n_rows n_cols neighbourhood n_epochs h0_Rmax hN_R1
                     Rmax_arg initial) (fun b =>
  if (n_cols * n_rows <? 0)%Z then inl ValueError
  else inr {| base := b;
              n_clusters := n_clusters;
              neuron_to_label := repeat NaN (Z.to_nat (n_cols * n_rows));
              labels_ := None |}).

(** The call [SOM_cluster(n_clusters, n_rows, n_cols, ...)] for integers
    of any size: [super().__init__] runs first. *)
Definition SOM_cluster_new (n_clusters n_rows n_cols : Z)
    (neighbourhood : string) (n_epochs : Z) (h0_Rmax hN_R1 : R)
    (Rmax_arg : option R) (initial : string) : res SOM_cluster :=
  res_bind (SOM_new n_rows n_cols neighbourhood n_epochs h0_Rmax hN_R1
                    Rmax_arg initial) (fun b =>
  if (n_cols * n_rows <? 0)%Z then inl ValueError
  else inr {| base := b;
              n_clusters := n_clusters;
              neuron_to_label := repeat NaN (Z.to_nat (n_cols * n_rows));
              labels_ := None |}).

(** [a[i] = v]; the caller checks the bound. *)
Fixpoint update_nth {A} (i : nat) (v : A) (l : list A) : list A :=
  match l, i with
  | [], _ => []
  | _ :: l', O => v :: l'
  | a :: l', S i' => a :: update_nth i' v l'
  end.

(** [a[:] = src]: [src] is broadcast to the shape of [a]. *)
Definition assign_all {A} (a src : list A) : res (list A) :=
  if (length src =? length a)%nat then inr src
  else match src with
       | [v] => inr (repeat v (length a))
       | _ => inl ValueError
       end.

(** The majority label of neuron [i]:
    [values[np.argmax(counts)]] for [y[self.bmus==i]], or nothing when no
    sample is assigned to [i].  With [self.bmus] still [None] the mask is
    the scalar [False] and selects nothing. *)
Definition vote (y : list Z) (b : option (list nat)) (i : nat)
  : res (option Z) :=
  match b with
  | None => inr None
  | Some b =>
      if (length b =? length y)%nat then
        let labels_i :=
          map fst (filter (fun p => (snd p =? i)%nat) (combine y b)) in
        match unique_counts labels_i with
        | [] => inr None
        | uc => inr (Some (nth (argmax (map snd uc)) (map fst uc) 0%Z))
        end
      else inl IndexError
  end.

Definition label_neuron (y : list Z) (i : nat) : M SOM_cluster unit :=
  c <- get ;;
  v <- lift (vote y (bmus (base c)) i) ;;
  match v with
  | None => ret tt
  | Some z =>
      if (i <? length (neuron_to_label c))%nat then
        modify (set_neuron_to_label
                  (update_nth i (FZ z) (neuron_to_label c)))
      else raise IndexError
  end.

(** [np.where(np.isnan(self.neuron_to_label), np.inf, self.dmat)] *)
Definition mask_unlabelled (n2l : list F) (D : matrix) : res matrix :=
  res_mapM (bcast2 (fun l d => if Fis_nan l then PInf else d) n2l) D.

(** The backfill of [SOM_cluster.fit]. *)
Definition backfill : M SOM_cluster unit :=
  c <- get ;;
  D <- attr (fun c => dmat (base c)) AttributeError ;;
  dmat_nonan <- lift (mask_unlabelled (neuron_to_label c) D) ;;
  nearest_nonan <- lift (res_mapM argsort_first dmat_nonan) ;;
  picked <- lift (take (neuron_to_label c) nearest_nonan) ;;
  filled <- lift (bcast2 (fun l p => if Fis_nan l then p else l)
                         (neuron_to_label c) picked) ;;
  modify (set_neuron_to_label filled).

(** The trainer of the second stage: [SOM(1, self.n_clusters)]. *)
Definition second_stage (c : SOM_cluster) : res SOM :=
  SOM_new 1 (n_clusters c) "gaussian" 10 (1 / 2) (1 / 100) None "pca".

(** The unsupervised branch; [W1] is the codebook that the initialiser of
    the second-stage trainer produces. *)
Definition cluster_neurons (W1 : matrix) : M SOM_cluster unit :=
  c <- get ;;
  som <- lift (second_stage c) ;;
  W <- attr (fun c => wts (base c)) AttributeError ;;
  r <- on_object som (fit W W1) ;;
  sb <- lift (match bmus (snd r) with
              | Some sb => inr sb
              | None => inl TypeError
              end) ;;
  n2l <- lift (assign_all (neuron_to_label c)
                          (map (fun j => FZ (Z.of_nat j)) sb)) ;;
  modify (set_neuron_to_label n2l) ;;;
  match bmus (base c) with
  | Some b =>
      l <- lift (take sb b) ;;
      modify (set_labels_ (Some (Arr1 l)))
  | None => modify (set_labels_ (Some (Arr2 [sb])))
  end.

(** [SOM_cluster.fit(X, y)]; [y = None] is unsupervised. *)
Definition cluster_fit (X : matrix) (y : option (list Z)) (W0 W1 : matrix)
  : M SOM_cluster unit :=
  super (fit X W0) ;;;
  match y with
  | None => cluster_neurons W1
  | Some y =>
      c <- get ;;
      for_range (Z.to_nat (n_cols (base c) * n_rows (base c))) 0
                (label_neuron y) ;;;
      backfill
  end.

(** [SOM_cluster.predict(X)] *)
Definition cluster_predict (X : matrix) : M SOM_cluster (option (list F)) :=
  c <- get ;;
  if forallb Fis_nan (neuron_to_label c) then
    print "Fit SOM clusterer/classifier before predicting" ;;; ret None
  else
    b <- super (calc_BMUs X) ;;
    l <- lift (take (neuron_to_label c) b) ;;
    ret (Some l).

(* ================================================================= *)
(** ** SOM.umatrix *)

(** [np.zeros((a, b))] *)
Definition zeros2 (a b : Z) : res matrix :=
  if ((a <? 0)%Z || (b <? 0)%Z)%bool then inl ValueError
  else inr (mzeros (Z.to_nat a) (Z.to_nat b)).

(** An index into an axis of length [n]; a negative index counts from the
    end. *)
Definition axis_index (n : nat) (i : Z) : res nat :=
  if ((i <? - Z.of_nat n)%Z || (Z.of_nat n <=? i)%Z)%bool then inl IndexError
  else if (i <? 0)%Z then inr (Z.to_nat (i + Z.of_nat n))
  else inr (Z.to_nat i).

(** [a[r, c] = v] on a two-dimensional array. *)
Definition setitem2 (a : matrix) (r c : Z) (v : F) : res matrix :=
  res_bind (axis_index (length a) r) (fun r' =>
  res_bind (axis_index (n_columns a) c) (fun c' =>
  inr (update_nth r' (update_nth c' v (nth r' a [])) a))).

(** [(d2mat > 0) & (d2mat <= 2)], per entry. *)
Definition neighbour_mask (d : Z) : bool := ((0 <? d)%Z && (d <=? 2)%Z)%bool.

(** [np.where(m, a, np.nan)] for a Boolean and a float matrix. *)
Definition where_else_nan (m : list (list bool)) (a : matrix) : res matrix :=
  res_bind (bcast2 (bcast2 (fun (t : bool) (v : F) => if t then v else NaN))
                   m a)
           (res_mapM (fun row => row)).

(** [a[i]]: row [i] of a two-dimensional array, [i] not negative. *)
Definition getrow {A} (a : list (list A)) (i : nat) : res (list A) :=
  match nth_error a i with
  | Some row => inr row
  | None => inl IndexError
  end.

(** [n] rows of width [w] cut from a flat array. *)
Fixpoint chunks {A} (n w : nat) (l : list A) : list (list A) :=
  match n with
  | O => []
  | S n' => firstn w l :: chunks n' w (skipn w l)
  end.

(** [a.reshape((r, c))] of a one-dimensional array, for dimensions that
    are not negative. *)
Definition reshape2 {A} (l : list A) (r c : Z) : res (list (list A)) :=
  if (Z.of_nat (length l) =? r * c)%Z
  then inr (chunks (Z.to_nat r) (Z.to_nat c) l)
  else inl ValueError.

(** [np.nanmean] of a whole array: the mean of the entries that are not
    [nan], and [nan] when there is none. *)
Definition nanmean (a : matrix) : F :=
  let present := filter (fun v => negb (Fis_nan v)) (concat a) in
  Fdiv (Fsum present) (Fin (INR (length present))).

(** [np.where(m)] of a Boolean matrix: the positions of its true
    entries, row by row. *)
Definition nonzero2 (m : list (list bool)) : list (nat * nat) :=
  flat_map (fun r =>
              map (fun c => (r, c))
                  (filter (fun c => nth c (nth r m []) false)
                          (seq 0 (length (nth r m [])))))
           (seq 0 (length m)).

(** One turn of the loop of [SOM.umatrix], for neuron [i]. *)
Definition umatrix_neuron (s : SOM) (umat : matrix) (i : nat) : res matrix :=
  let row := (Z.of_nat i / n_cols s)%Z in
  let col := (Z.of_nat i mod n_cols s)%Z in
  res_bind (match dmat s with
            | Some D => inr D
            | None => inl AttributeError
            end) (fun D =>
  res_bind (where_else_nan (map (map neighbour_mask) (d2mat s)) D)
           (fun masked =>
  res_bind (getrow masked i) (fun flat =>
  res_bind (reshape2 flat (n_rows s) (n_cols s)) (fun dmat_neighbours =>
  res_bind (setitem2 umat (row * 2) (col * 2) (nanmean dmat_neighbours))
           (fun umat1 =>
  let alt :=
    nonzero2 (map (map (fun v => negb (Fis_nan v))) dmat_neighbours) in
  fold_left
    (fun acc rc =>
       res_bind acc (fun u =>
         setitem2 u (row * 2 + (Z.of_nat (fst rc) - row))
                    (col * 2 + (Z.of_nat (snd rc) - col))
                    (nth (snd rc) (nth (fst rc) dmat_neighbours []) NaN)))
    alt (inr umat1)))))).

(** [SOM.umatrix]: the array that the method stores as [self.umat].  The
    object is only read; the drawing calls do not touch the array and are
    left out.  The loop runs only after [np.zeros] has accepted the
    shape, that is with positive [n_rows] and [n_cols]. *)
Definition umatrix (s : SOM) : res matrix :=
  res_bind (zeros2 (n_rows s * 2 - 1) (n_cols s * 2 - 1)) (fun umat =>
  fold_left (fun acc i => res_bind acc (fun u => umatrix_neuron s u i))
            (seq 0 (Z.to_nat (n_rows s * n_cols s))) (inr umat)).

(* ================================================================= *)
(** ** Calling methods in sequence *)

Inductive som_call : Type :=
| Call_make_kernels
| Call_calc_BMUs (X : matrix)
| Call_fit (X W0 : matrix)
| Call_predict (X : matrix).

(** The object and the printed text after a call, whether it returned or
    raised. *)
Definition after_call (c : som_call) (s : SOM) (out : list string)
  : SOM * list string :=
  match c with
  | Call_make_kernels =>
      let r := make_kernels s out in (state_of r, output_of r)
  | Call_calc_BMUs X =>
      let r := calc_BMUs X s out in (state_of r, output_of r)
  | Call_fit X W0 =>
      let r := fit X W0 s out in (state_of r, output_of r)
  | Call_predict X =>
      let r := predict X s out in (state_of r, output_of r)
  end.

Fixpoint after_calls (cs : list som_call) (s : SOM) (out : list string)
  : SOM * list string :=
  match cs with
  | [] => (s, out)
  | c :: cs' =>
      let '(s', out') := after_call c s out in after_calls cs' s' out'
  end.

Inductive cluster_call : Type :=
| CCall_make_kernels
| CCall_calc_BMUs (X : matrix)
| CCall_fit (X : matrix) (y : option (list Z)) (W0 W1 : matrix)
| CCall_predict (X : matrix).

Definition after_cluster_call (c : cluster_call) (s : SOM_cluster)
    (out : list string) : SOM_cluster * list string :=
  match c with
  | CCall_make_kernels =>
      let r := super make_kernels s out in (state_of r, output_of r)
  | CCall_calc_BMUs X =>
      let r := super (calc_BMUs X) s out in (state_of r, output_of r)
  | CCall_fit X y W0 W1 =>
      let r := cluster_fit X y W0 W1 s out in (state_of r, output_of r)
  | CCall_predict X =>
      let r := cluster_predict X s out in (state_of r, output_of r)
  end.

Fixpoint after_cluster_calls (cs : list cluster_call) (s : SOM_cluster)
    (out : list string) : SOM_cluster * list string :=
  match cs with
  | [] => (s, out)
  | c :: cs' =>
      let '(s', out') := after_cluster_call c s out in
      after_cluster_calls cs' s' out'
  end.

(* ================================================================= *)
(** ** Vocabulary of the statements *)

(** [keeps p m]: whatever [m] does, and whether it returns or raises, the
    observation [p] of the object is afterwards what it was before. *)
Definition keeps {St A B} (p : St -> B) (m : M St A) : Prop :=
  forall s out, p (state_of (m s out)) = p s.

(** [D2[i,j]] *)
Definition entry (d2 : list (list Z)) (i j : nat) : Z :=
  nth j (nth i d2 []) 0%Z.

(** [d2] is the table of squared distances between the positions
    [(i // cols, i % cols)] of a lattice of [k] neurons: it has the entries
    the formula gives, a zero diagonal, it is symmetric and non-negative. *)
Definition lattice_distances (cols : Z) (k : nat) (d2 : list (list Z))
  : Prop :=
  length d2 = k /\
  forall i j, (i < k)%nat -> (j < k)%nat ->
    length (nth i d2 []) = k /\
    entry d2 i j =
      ((Z.of_nat i / cols - Z.of_nat j / cols) ^ 2
       + (Z.of_nat i mod cols - Z.of_nat j mod cols) ^ 2)%Z /\
    entry d2 i i = 0%Z /\
    entry d2 i j = entry d2 j i /\
    (0 <= entry d2 i j)%Z.

Definition strictly_decreasing (l : list R) : Prop :=
  forall i j, (i < j < length l)%nat -> (nth j l 0 < nth i l 0)%R.

Definition non_increasing (l : list R) : Prop :=
  forall i j, (i <= j < length l)%nat -> (nth j l 0 <= nth i l 0)%R.

Definition non_decreasing (l : list R) : Prop :=
  forall i j, (i <= j < length l)%nat -> (nth i l 0 <= nth j l 0)%R.

(** The radius schedule as the specification words it: [n_epochs] radii,
    the first [Rmax], the last [0.5], strictly decreasing when there is
    more than one. *)
Definition schedule_as_specified (s : SOM) (sig : list R) : Prop :=
  length sig = Z.to_nat (n_epochs s) /\
  nth 0 sig 0%R = Rmax s /\
  nth (Z.to_nat (n_epochs s) - 1) sig 0%R = (1 / 2)%R /\
  ((1 < n_epochs s)%Z -> strictly_decreasing sig).

(** [K[e,i,j]] *)
Definition kernel_entry (K : list matrix) (e i j : nat) : F :=
  nth j (nth i (nth e K []) []) NaN.

(** The neighbourhood function that [make_kernels] selects for a name. *)
Definition kernel_of (name : string) : option (R -> Z -> F) :=
  if (name =? "bubble")%string then Some bubble
  else if (name =? "linear")%string then Some linear
  else if (name =? "exponential")%string then Some exponential
  else if (name =? "gaussian")%string then Some gaussian
  else None.

(** At epoch [e], every neuron weighs itself [1] and the weight does not
    increase with the grid distance. *)
Definition kernel_monotone_at (k : nat) (d2 : list (list Z))
    (K : list matrix) (e : nat) : Prop :=
  (forall i, (i < k)%nat -> kernel_entry K e i i = Fin 1) /\
  (forall i j i' j',
      (i < k)%nat -> (j < k)%nat -> (i' < k)%nat -> (j' < k)%nat ->
      (entry d2 i j <= entry d2 i' j')%Z ->
      Fle (kernel_entry K e i' j') (kernel_entry K e i j)).

(** [sum_f (x[f] - w[f])^2] for two rows with the same number of
    features. *)
Definition sq_distance (x w : list F) : F :=
  Fsum (map Fsquare (map2 Fsub x w)).

(** [np.argmin] of a row known to be non-empty. *)
Definition argmin_row (l : list F) : nat :=
  match l with
  | [] => O
  | v :: l' => if Fis_nan v then O else argmin_from v 0 1 l'
  end.

(** The best-matching unit of a sample [x] in a codebook [W]. *)
Definition bmu_of (W : matrix) (x : list F) : nat :=
  argmin_row (map (sq_distance x) W).

Definition rows_of_length {A} (f : nat) (a : list (list A)) : Prop :=
  Forall (fun r => length r = f) a.

(** [b] names, for sample [x], a nearest neuron of [W], and the first
    one among the nearest. *)
Definition nearest_first (W : matrix) (x : list F) (b : nat) : Prop :=
  (b < length W)%nat /\
  (forall j, (j < length W)%nat ->
     Fle (sq_distance x (nth b W [])) (sq_distance x (nth j W []))) /\
  (forall j, (j < b)%nat ->
     ~ Fle (sq_distance x (nth j W [])) (sq_distance x (nth b W []))).

(** A 1 x 2 trainer as the constructor returns it, with a codebook put
    in place. *)
Definition som_1x2 (nb : string) (ne : Z) (W : matrix) : SOM :=
  {| n_rows := 1; n_cols := 2; neighbourhood := nb; n_epochs := ne;
     h0_Rmax := 1 / 2; hN_R1 := 1 / 100;
     Rmax := sqrt (IZR ((2 - 1) ^ 2 + (1 - 1) ^ 2));
     initial := "random"; bmus := None; wts := Some W; inertia_ := None;
     d2mat := make_d2mat 1 2; kernels := None; dmat := None |}.

Definition two_neurons : matrix := [[Fin 0; Fin 0]; [Fin 10; Fin 10]].
Definition three_samples : matrix :=
  [[Fin 1; Fin 1]; [Fin 9; Fin 9]; [Fin 5; Fin 5]].

(** A codebook whose first neuron was left not-a-number. *)
Definition nan_codebook : matrix := [[NaN]; [Fin 0]].
Definition one_sample : matrix := [[Fin 0]].

(** A kernel weight is not-a-number or non-negative. *)
Definition kernel_value_ok (v : F) : Prop :=
  Fis_nan v = true \/ Fle (Fin 0) v.

(** [sum_i X[i,c] * Ke[b[i], j]] and [sum_i Ke[b[i], j]]: the numerator
    and the denominator of the centroid of neuron [j], over the samples
    [X] with best-matching units [b]. *)
Definition centroid_num (Ke X : matrix) (b : list nat) (j c : nat) : F :=
  Fsum (map (fun xb => Fmul (nth c (fst xb) NaN)
                            (nth j (nth (snd xb) Ke []) NaN))
            (combine X b)).

Definition centroid_den (Ke : matrix) (b : list nat) (j : nat) : F :=
  Fsum (map (fun bn => nth j (nth bn Ke []) NaN) b).

Definition zero_or_nan (v : F) : Prop := v = NaN \/ v = Fin 0.

(** The codebook after one epoch with kernel matrix [Ke], and after the
    [n] epochs [i, i+1, ...] of the kernel tensor [K]. *)
Definition next_codebook (Ke X W : matrix) : matrix :=
  update_weights (length W) (n_columns X) X
                 (map (fun bn => nth bn Ke []) (map (bmu_of W) X)).

Fixpoint train_codebook (K : list matrix) (X : matrix) (n i : nat)
    (W : matrix) : matrix :=
  match n with
  | O => W
  | S n' => train_codebook K X n' (S i) (next_codebook (nth i K []) X W)
  end.

(** The three arrays that [fit] derives from the final codebook. *)
Definition final_dmat (W : matrix) : matrix :=
  map (fun wa => map (fun wb => Fsqrt (sq_distance wa wb)) W) W.

Definition final_inertia (X W : matrix) : F :=
  Fsum (map (fun x => sq_distance x (nth (bmu_of W x) W [])) X).

(** The object that a completed [fit] leaves. *)
Definition fitted (s : SOM) (K : list matrix) (X W : matrix) : SOM :=
  set_inertia_ (Some (final_inertia X W))
    (set_dmat (Some (final_dmat W))
       (set_bmus (Some (map (bmu_of W) X))
          (set_wts (Some W) (set_kernels (Some K) s)))).

(** A finite value of magnitude at most [2^500]: squares of such values,
    and sums of up to [2^20] of them, stay below the largest double. *)
Definition moderate (v : F) : Prop :=
  exists r, v = Fin r /\ (Rabs r <= 2 ^ 500)%R.

(** Conditions under which the initialiser of [fit] returns for the data
    [X]: with ['random'], a lattice size that is not negative; with
    ['pca'], a lattice with at least one row and one column and data with
    at least two features, of moderate values and at most [2^20]
    samples (so that the covariance matrix that [eigh] is given is
    finite). *)
Definition initialises (s : SOM) (X : matrix) : Prop :=
  (initial s = "random"%string /\ (0 <= n_rows s * n_cols s)%Z) \/
  (initial s = "pca"%string /\ (1 <= n_rows s)%Z /\ (1 <= n_cols s)%Z /\
   (2 <= n_columns X)%nat /\ (Z.of_nat (length X) <= 2 ^ 20)%Z /\
   Forall (Forall moderate) X).

(** The trainer that [SOM(1, nc)] builds: every optional argument of the
    constructor at its default. *)
Definition second_stage_som (nc : Z) : SOM :=
  {| n_rows := 1; n_cols := nc; neighbourhood := "gaussian"; n_epochs := 10;
     h0_Rmax := 1 / 2; hN_R1 := 1 / 100;
     Rmax := sqrt (IZR ((nc - 1) ^ 2 + (1 - 1) ^ 2));
     initial := "pca"; bmus := None; wts := None; inertia_ := None;
     d2mat := make_d2mat 1 nc; kernels := None; dmat := None |}.

(** The codebook that the training loop of [s] reaches from [W0] on the
    data [X], with the kernel family [h] and the radii [sigs]. *)
Definition trained_codebook (s : SOM) (h : R -> Z -> F) (sigs : list R)
    (X W0 : matrix) : matrix :=
  train_codebook (kernel_tensor h sigs (d2mat s)) X
                 (Z.to_nat (n_epochs s)) 0 W0.

(** A kernel tensor of [k] x [k] matrices. *)
Definition kernel_shape (k : nat) (K : list matrix) : Prop :=
  Forall (fun Ke => length Ke = k /\ rows_of_length k Ke) K.

(** A codebook for two neurons with one feature, as a random
    initialiser may draw it. *)
Definition W0_1x2 : matrix := [[Fin 0]; [Fin (1 / 2)]].

(** The two bubble kernels of the 1 x 2 lattice with two epochs: radius
    [1] reaches the neighbour, radius [0.5] does not. *)
Definition ones2 : matrix := [[Fin 1; Fin 1]; [Fin 1; Fin 1]].
Definition id2 : matrix := [[Fin 1; Fin 0]; [Fin 0; Fin 1]].

(** The codebook which that training leaves: the second neuron lost all
    its kernel weight in the last epoch. *)
Definition degenerate_codebook : matrix := [[Fin 0]; [NaN]].

(** Every neuron has a label. *)
Definition fully_labelled (n2l : list F) : Prop :=
  Forall (fun l => Fis_nan l = false) n2l.

(** The 1 x 2 bubble trainer after its first epoch, about to run the
    second. *)
Definition som_mid_training : SOM :=
  set_kernels (Some (kernel_tensor bubble [1%R; (1 / 2)%R] (make_d2mat 1 2)))
              (som_1x2 "bubble" 2 [[Fin 0]; [Fin 0]]).

(** Two trainers with the same configuration and lattice. *)
Definition same_configuration (s1 s2 : SOM) : Prop :=
  n_rows s1 = n_rows s2 /\ n_cols s1 = n_cols s2 /\
  neighbourhood s1 = neighbourhood s2 /\ n_epochs s1 = n_epochs s2 /\
  h0_Rmax s1 = h0_Rmax s2 /\ hN_R1 s1 = hN_R1 s2 /\
  Rmax s1 = Rmax s2 /\ initial s1 = initial s2 /\ d2mat s1 = d2mat s2.

(** A 1 x 2 trainer with everything at the caller's choice. *)
Definition som_1x2_with (nb ini : string) (ne : Z) (W : option matrix)
    (K : option (list matrix)) : SOM :=
  {| n_rows := 1; n_cols := 2; neighbourhood := nb; n_epochs := ne;
     h0_Rmax := 1 / 2; hN_R1 := 1 / 100;
     Rmax := sqrt (IZR ((2 - 1) ^ 2 + (1 - 1) ^ 2));
     initial := ini; bmus := None; wts := W; inertia_ := None;
     d2mat := make_d2mat 1 2; kernels := K; dmat := None |}.

(** A row of finite values. *)
Definition finite_row (w : list F) : Prop :=
  Forall (fun v => exists r, v = Fin r) w.

(** [D[a,b]] of a float matrix. *)
Definition mentry (D : matrix) (a b : nat) : F := nth b (nth a D []) NaN.

(** Number of occurrences of a label. *)
Definition occ (l : list Z) (v : Z) : Z :=
  Z.of_nat (count_occ Z.eq_dec l v).

(** The count that a table of (value, count) pairs gives a value. *)
Fixpoint lookup_count (acc : list (Z * Z)) (v : Z) : Z :=
  match acc with
  | [] => 0%Z
  | (u, c) :: acc' => if (v =? u)%Z then c else lookup_count acc' v
  end.

(** [y[bmus == i]]: the labels of the samples assigned to neuron [i]. *)
Definition labels_of (y : list Z) (b : list nat) (i : nat) : list Z :=
  map fst (filter (fun p => (snd p =? i)%nat) (combine y b)).

(** The labels after the voting loop has visited the [n] neurons
    [i, i+1, ...]: a neuron with a vote takes it, the others keep what
    they had. *)
Fixpoint apply_votes (y : list Z) (b : list nat) (n i : nat)
    (n2l : list F) : list F :=
  match n with
  | O => n2l
  | S n' =>
      apply_votes y b n' (S i)
        (match vote y (Some b) i with
         | inr (Some z) => update_nth i (FZ z) n2l
         | _ => n2l
         end)
  end.

(** [row.argsort()[0]] of a row known to be non-empty. *)
Definition argfirst_row (l : list F) : nat :=
  match l with
  | [] => O
  | v :: l' => argfirst_from v 0 1 l'
  end.

(** The neuron that the backfill takes the label from, for a row of the
    distance matrix, and the labels after the backfill. *)
Definition nearest_labelled (n2l : list F) (row : list F) : nat :=
  argfirst_row (map2 (fun l d => if Fis_nan l then PInf else d) n2l row).

Definition backfill_labels (n2l : list F) (D : matrix) : list F :=
  map2 (fun l p => if Fis_nan l then p else l) n2l
       (map (fun row => nth (nearest_labelled n2l row) n2l NaN) D).

(** A 1 x 3 clusterer between the voting loop and the backfill: the
    first neuron got no vote.  The distances are those of the weights. *)
Definition three_distances : matrix :=
  [[Fin 0; Fin 2; Fin 1]; [Fin 2; Fin 0; Fin 3]; [Fin 1; Fin 3; Fin 0]].

Definition voted_1x3 : SOM_cluster :=
  {| base :=
       {| n_rows := 1; n_cols := 3; neighbourhood := "gaussian";
          n_epochs := 10; h0_Rmax := 1 / 2; hN_R1 := 1 / 100;
          Rmax := sqrt (IZR ((3 - 1) ^ 2 + (1 - 1) ^ 2));
          initial := "random"; bmus := Some [1; 2]%nat;
          wts := Some [[Fin 0]; [Fin 2]; [Fin (-1)]]; inertia_ := Some (Fin 0);
          d2mat := make_d2mat 1 3; kernels := None;
          dmat := Some three_distances |};
     n_clusters := 2;
     neuron_to_label := [NaN; Fin 7; Fin 4];
     labels_ := None |}.

(** Every entry of the first [k] rows and [f] columns of [W] is a finite
    value, in column [c] between [lo c] and [hi c]. *)
Definition within_range (lo hi : nat -> R) (k f : nat) (W : matrix) : Prop :=
  forall j c, (j < k)%nat -> (c < f)%nat ->
    exists r, nth c (nth j W []) NaN = Fin r /\ (lo c <= r <= hi c)%R.

(** A [k] x [k] kernel matrix with finite positive entries. *)
Definition positive_matrix (k : nat) (Ke : matrix) : Prop :=
  forall i j, (i < k)%nat -> (j < k)%nat ->
    exists w, nth j (nth i Ke []) NaN = Fin w /\ (0 < w)%R.

(** [u[a,b] = v] with indices in range. *)
Definition set_cell (u : matrix) (a b : nat) (v : F) : matrix :=
  update_nth a (update_nth b v (nth a u [])) u.

Definition apply_writes (u : matrix) (ws : list (nat * nat * F)) : matrix :=
  fold_left (fun u w => set_cell u (fst (fst w)) (snd (fst w)) (snd w)) ws u.

(** The value that the last write to cell [(a, b)] in [ws] carries. *)
Fixpoint last_write (a b : nat) (ws : list (nat * nat * F)) : option F :=
  match ws with
  | [] => None
  | (a', b', v) :: ws' =>
      match last_write a b ws' with
      | Some v' => Some v'
      | None => if ((a' =? a)%nat && (b' =? b)%nat)%bool then Some v else None
      end
  end.

(** The mean of the values that are not [nan]. *)
Definition mean_of_present (vals : list F) : F :=
  let present := filter (fun v => negb (Fis_nan v)) vals in
  Fdiv (Fsum present) (Fin (INR (length present))).

(** Neurons [i] and [j] of a lattice with [c] columns are distinct and at
    most one row and one column apart. *)
Definition adjacent (c i j : nat) : bool :=
  (negb (i =? j)%nat
   && (i / c <=? j / c + 1)%nat && (j / c <=? i / c + 1)%nat
   && (i mod c <=? j mod c + 1)%nat && (j mod c <=? i mod c + 1)%nat)%bool.

(** The distances from neuron [i] to its lattice neighbours. *)
Definition neighbour_distances (c k : nat) (D : matrix) (i : nat) : list F :=
  map (fun j => mentry D i j) (filter (adjacent c i) (seq 0 k)).

(** What the loop of [umatrix] writes for neuron [i] of an [r] x [c]
    lattice: its mean, then, row by row, the distance to each neighbour
    that is not [nan], half-way between the two. *)
Definition writes_of (r c : nat) (D : matrix) (i : nat)
  : list (nat * nat * F) :=
  ((2 * (i / c))%nat, (2 * (i mod c))%nat,
   mean_of_present (neighbour_distances c (r * c) D i))
  :: flat_map
       (fun r' =>
          map (fun c' => ((i / c + r')%nat, (i mod c + c')%nat,
                          mentry D i (r' * c + c')))
              (filter (fun c' =>
                         (adjacent c i (r' * c + c')
                          && negb (Fis_nan (mentry D i (r' * c + c'))))%bool)
                      (seq 0 c)))
       (seq 0 r).

(** Writes that stay inside an [h] x [w] array. *)
Definition writes_within (h w : nat) (ws : list (nat * nat * F)) : Prop :=
  Forall (fun x => (fst (fst x) < h)%nat /\ (snd (fst x) < w)%nat) ws.

(** A fitted 2 x 2 trainer with one feature: the weights and their
    distances. *)
Definition four_distances : matrix :=
  [[Fin 0; Fin 1; Fin 3; Fin 7]; [Fin 1; Fin 0; Fin 2; Fin 6];
   [Fin 3; Fin 2; Fin 0; Fin 4]; [Fin 7; Fin 6; Fin 4; Fin 0]].

Definition som_2x2_fitted : SOM :=
  {| n_rows := 2; n_cols := 2; neighbourhood := "gaussian";
     n_epochs := 10; h0_Rmax := 1 / 2; hN_R1 := 1 / 100;
     Rmax := sqrt (IZR ((2 - 1) ^ 2 + (2 - 1) ^ 2));
     initial := "random"; bmus := Some [0; 3]%nat;
     wts := Some [[Fin 0]; [Fin 1]; [Fin 3]; [Fin 7]];
     inertia_ := Some (Fin 0);
     d2mat := make_d2mat 2 2; kernels := None;
     dmat := Some four_distances |}.

(* ================================================================= *)
(** ** Lists and arrays: shapes and indexing *)

Section ListFacts.
Context {A B C : Type}.

Lemma map2_length (f : A -> B -> C) (l1 : list A) (l2 : list B) :
  length (map2 f l1 l2) = Nat.min (length l1) (length l2).
Proof.
  revert l2; induction l1 as [|a l1 IH]; intros [|b l2]; simpl; auto.
Qed.

Lemma map2_nth (f : A -> B -> C) (l1 : list A) (l2 : list B)
      {i : nat} (da : A) (db : B) (dc : C) :
  (i < length l1)%nat -> (i < length l2)%nat ->
  nth i (map2 f l1 l2) dc = f (nth i l1 da) (nth i l2 db).
Proof.
  revert l2 i; induction l1 as [|a l1 IH]; intros [|b l2] [|i];
    simpl; intros; try lia; auto.
  apply IH; lia.
Qed.

Lemma map_nth_in (f : A -> B) (l : list A) {i : nat} (da : A) (db : B) :
  (i < length l)%nat -> nth i (map f l) db = f (nth i l da).
Proof.
  revert i; induction l as [|a l IH]; intros [|i]; simpl; intros;
    try lia; auto.
  apply IH; lia.
Qed.
End ListFacts.

Lemma arange_length (n : Z) : length (arange n) = Z.to_nat n.
Proof. unfold arange. now rewrite length_map, length_seq. Qed.

Lemma arange_nth (n : Z) (i : nat) :
  (i < Z.to_nat n)%nat -> nth i (arange n) 0%Z = Z.of_nat i.
Proof.
  intros H. unfold arange.
  rewrite (map_nth_in Z.of_nat _ 0%nat 0%Z) by now rewrite length_seq.
  now rewrite seq_nth.
Qed.

(** The entries of the matrix that [__init__] builds, for any dimensions. *)
Lemma make_d2mat_length (r c : Z) :
  length (make_d2mat r c) = Z.to_nat (r * c).
Proof.
  unfold make_d2mat, outer.
  rewrite map2_length, !length_map, arange_length. lia.
Qed.

Lemma make_d2mat_row_length (r c : Z) (i : nat) :
  (i < Z.to_nat (r * c))%nat ->
  length (nth i (make_d2mat r c) []) = Z.to_nat (r * c).
Proof.
  intros Hi. unfold make_d2mat, outer.
  rewrite (map2_nth _ _ _ [] [] []);
    [| now rewrite !length_map, arange_length ..].
  rewrite map2_length.
  rewrite !(map_nth_in (map Zsquare) _ [] [])
    by now rewrite !length_map, arange_length.
  rewrite !length_map.
  rewrite !(map_nth_in _ _ 0%Z []) by now rewrite !length_map, arange_length.
  rewrite !length_map, arange_length. lia.
Qed.

Lemma make_d2mat_nth (r c : Z) (i j : nat) :
  (i < Z.to_nat (r * c))%nat -> (j < Z.to_nat (r * c))%nat ->
  nth j (nth i (make_d2mat r c) []) 0%Z =
  ((np_mod (Z.of_nat i) c - np_mod (Z.of_nat j) c) ^ 2
   + (np_floordiv (Z.of_nat i) c - np_floordiv (Z.of_nat j) c) ^ 2)%Z.
Proof.
  intros Hi Hj. unfold make_d2mat, outer.
  rewrite (map2_nth _ _ _ [] [] []);
    [| now rewrite !length_map, arange_length ..].
  rewrite !(map_nth_in (map Zsquare) _ [] [])
    by now rewrite !length_map, arange_length.
  rewrite !(map_nth_in _ _ 0%Z []) by now rewrite !length_map, arange_length.
  rewrite (map2_nth _ _ _ 0%Z 0%Z 0%Z);
    [| now rewrite !length_map, arange_length ..].
  rewrite !(map_nth_in Zsquare _ 0%Z 0%Z)
    by now rewrite !length_map, arange_length.
  rewrite !(map_nth_in _ _ 0%Z 0%Z) by now rewrite ?length_map, arange_length.
  rewrite !arange_nth by assumption.
  reflexivity.
Qed.

(* ================================================================= *)
(** ** Attributes that a method leaves alone *)

Section Keeps.
Context {St B : Type} (p : St -> B).

Lemma keeps_ret {A} (a : A) : keeps p (ret a).
Proof. intros s out; reflexivity. Qed.

Lemma keeps_raise {A} (e : exn) : keeps p (@raise St A e).
Proof. intros s out; reflexivity. Qed.

Lemma keeps_get : keeps p get.
Proof. intros s out; reflexivity. Qed.

Lemma keeps_print (msg : string) : keeps p (print msg).
Proof. intros s out; reflexivity. Qed.

Lemma keeps_lift {A} (r : res A) : keeps p (lift r).
Proof. intros s out; reflexivity. Qed.

Lemma keeps_attr {A} (f : St -> option A) (e : exn) : keeps p (attr f e).
Proof. intros s out; unfold attr; destruct (f s); reflexivity. Qed.

Lemma keeps_modify (f : St -> St) :
  (forall s, p (f s) = p s) -> keeps p (modify f).
Proof. intros H s out; apply H. Qed.

Lemma keeps_bind {A C} (m : M St A) (k : A -> M St C) :
  keeps p m -> (forall a, keeps p (k a)) -> keeps p (bind m k).
Proof.
  intros Hm Hk s out. unfold bind.
  specialize (Hm s out). unfold state_of in *.
  destruct (m s out) as [[[e|a] s'] out']; simpl in *; auto.
  transitivity (p s'); [apply (Hk a s' out') | exact Hm].
Qed.

Lemma keeps_for_range (body : nat -> M St unit) (n i0 : nat) :
  (forall i, keeps p (body i)) -> keeps p (for_range n i0 body).
Proof.
  intros H; revert i0; induction n as [|n IH]; intros i0; simpl.
  - apply keeps_ret.
  - apply keeps_bind; auto.
Qed.

Lemma keeps_on_object {T A} (obj : T) (m : M T A) :
  keeps p (on_object (St := St) obj m).
Proof.
  intros s out. unfold on_object.
  destruct (m obj out) as [[[e|a] o'] out']; reflexivity.
Qed.
End Keeps.

Lemma keeps_zoom {St T A B} (proj : T -> St) (upd : St -> T -> T)
      (q : St -> B) (m : M St A) :
  (forall s t, q (proj (upd s t)) = q s) ->
  keeps q m -> keeps (fun t => q (proj t)) (zoom proj upd m).
Proof.
  intros Hu Hm t out. unfold zoom.
  specialize (Hm (proj t) out). unfold state_of in *.
  destruct (m (proj t) out) as [[r s'] out']; simpl in *.
  rewrite Hu. exact Hm.
Qed.

(** What [zoom] does to the part of the object outside the base. *)
Lemma keeps_zoom_outside {St T A B} (proj : T -> St) (upd : St -> T -> T)
      (q : T -> B) (m : M St A) :
  (forall s t, q (upd s t) = q t) -> keeps q (zoom proj upd m).
Proof.
  intros Hu t out. unfold zoom.
  destruct (m (proj t) out) as [[r s'] out']; simpl. apply Hu.
Qed.

Create HintDb keeps.
#[export] Hint Resolve keeps_ret keeps_raise keeps_get keeps_print keeps_lift
  keeps_attr keeps_on_object : keeps.

(** Decompose a method body along its binds, loops and branches. *)
Ltac keeps_step :=
  match goal with
  | |- keeps _ (bind _ _) => apply keeps_bind; [| intros ?]
  | |- keeps _ (for_range _ _ _) => apply keeps_for_range; intros ?
  | |- keeps _ (modify _) => apply keeps_modify; intros ?; reflexivity
  | |- keeps _ (if ?b then _ else _) => destruct b
  | |- keeps _ (match ?x with _ => _ end) => destruct x
  | |- keeps _ _ => solve [auto with keeps]
  end.

Ltac keeps_auto := repeat keeps_step.

Lemma calc_BMUs_keeps {B} (p : SOM -> B) (X : matrix) :
  keeps p (calc_BMUs X).
Proof. unfold calc_BMUs. keeps_auto. Qed.

Lemma predict_keeps {B} (p : SOM -> B) (X : matrix) : keeps p (predict X).
Proof. unfold predict. keeps_auto. Qed.

Lemma make_kernels_keeps_d2mat : keeps d2mat make_kernels.
Proof. unfold make_kernels. keeps_auto. Qed.

Lemma epoch_keeps_d2mat (X : matrix) (i : nat) : keeps d2mat (epoch X i).
Proof.
  unfold epoch. keeps_auto. apply calc_BMUs_keeps.
Qed.

Lemma epoch_keeps_kernels (X : matrix) (i : nat) : keeps kernels (epoch X i).
Proof.
  unfold epoch. keeps_auto. apply calc_BMUs_keeps.
Qed.

Lemma train_keeps_d2mat (X : matrix) : keeps d2mat (train X).
Proof.
  unfold train. keeps_auto;
    auto using make_kernels_keeps_d2mat, epoch_keeps_d2mat, calc_BMUs_keeps.
Qed.

Lemma random_weights_keeps_d2mat (W0 : matrix) :
  keeps d2mat (random_weights W0).
Proof. unfold random_weights. keeps_auto. Qed.

Lemma pca_weights_keeps_d2mat (X W0 : matrix) :
  keeps d2mat (pca_weights X W0).
Proof. unfold pca_weights. cbv zeta. keeps_auto. Qed.

Lemma fit_keeps_d2mat (X W0 : matrix) : keeps d2mat (fit X W0).
Proof.
  unfold fit. keeps_auto;
    auto using train_keeps_d2mat, random_weights_keeps_d2mat,
               pca_weights_keeps_d2mat.
Qed.

Lemma super_keeps_d2mat {A} (m : M SOM A) :
  keeps d2mat m -> keeps (fun c => d2mat (base c)) (super m).
Proof.
  intros H. unfold super.
  apply keeps_zoom with (q := d2mat); auto.
Qed.

Lemma cluster_fit_keeps_d2mat X y W0 W1 :
  keeps (fun c => d2mat (base c)) (cluster_fit X y W0 W1).
Proof.
  unfold cluster_fit, cluster_neurons, backfill, label_neuron.
  keeps_auto; auto using super_keeps_d2mat, fit_keeps_d2mat.
Qed.

Lemma cluster_predict_keeps_d2mat X :
  keeps (fun c => d2mat (base c)) (cluster_predict X).
Proof.
  unfold cluster_predict.
  keeps_auto; auto using super_keeps_d2mat, calc_BMUs_keeps.
Qed.

Lemma after_calls_d2mat (cs : list som_call) (s : SOM) (out : list string) :
  d2mat (fst (after_calls cs s out)) = d2mat s.
Proof.
  revert s out; induction cs as [|c cs IH]; intros s out; simpl; auto.
  destruct (after_call c s out) as [s' out'] eqn:E.
  rewrite IH.
  destruct c; simpl in E; inversion E; subst.
  - apply make_kernels_keeps_d2mat.
  - apply calc_BMUs_keeps.
  - apply fit_keeps_d2mat.
  - apply predict_keeps.
Qed.

Lemma after_cluster_calls_d2mat (cs : list cluster_call) (c : SOM_cluster)
      (out : list string) :
  d2mat (base (fst (after_cluster_calls cs c out))) = d2mat (base c).
Proof.
  revert c out; induction cs as [|k cs IH]; intros c out; simpl; auto.
  destruct (after_cluster_call k c out) as [c' out'] eqn:E.
  rewrite IH.
  destruct k; simpl in E; inversion E; subst.
  - apply (super_keeps_d2mat _ make_kernels_keeps_d2mat).
  - apply (super_keeps_d2mat _ (calc_BMUs_keeps d2mat X)).
  - apply cluster_fit_keeps_d2mat.
  - apply cluster_predict_keeps_d2mat.
Qed.

(* ================================================================= *)
(** ** The lattice geometry *)

Lemma make_d2mat_lattice (rows cols : Z) :
  (1 <= cols)%Z ->
  lattice_distances cols (Z.to_nat (rows * cols)) (make_d2mat rows cols).
Proof.
  intros Hc. split; [apply make_d2mat_length|].
  intros i j Hi Hj. unfold entry.
  assert (Hnz : (cols =? 0)%Z = false) by (apply Z.eqb_neq; lia).
  split; [now apply make_d2mat_row_length|].
  rewrite !make_d2mat_nth by assumption.
  unfold np_mod, np_floordiv. rewrite Hnz.
  repeat split; try nia.
Qed.

(** C5.  For [rows, cols >= 1] the constructor returns an object whose
    distance-squared matrix has, at every pair of neurons [i], [j], the
    entry [(i//cols - j//cols)^2 + (i%cols - j%cols)^2]; the matrix has a
    zero diagonal, is symmetric and non-negative; and no sequence of later
    method calls, on the trainer or on a clusterer built with the same
    dimensions, changes it. *)
Theorem d2mat_lattice_invariant :
  forall (rows cols : Z) (nb : string) (ne : Z) (h0 hN : R)
         (rm : option R) (ini : string),
    (1 <= rows)%Z -> (1 <= cols)%Z ->
    exists s,
      SOM_init rows cols nb ne h0 hN rm ini = inr s /\
      lattice_distances cols (Z.to_nat (rows * cols)) (d2mat s) /\
      (forall calls out, d2mat (fst (after_calls calls s out)) = d2mat s) /\
      (forall nc, exists c,
          SOM_cluster_init nc rows cols nb ne h0 hN rm ini = inr c /\
          base c = s /\
          forall calls out,
            d2mat (base (fst (after_cluster_calls calls c out))) = d2mat s).
Proof.
  intros rows cols nb ne h0 hN rm ini Hr Hc.
  eexists; split; [reflexivity|]. simpl.
  split; [now apply make_d2mat_lattice|].
  split; [intros; apply after_calls_d2mat|].
  intros nc. unfold SOM_cluster_init, SOM_init, res_bind.
  assert (E : (cols * rows <? 0)%Z = false) by (apply Z.ltb_ge; nia).
  rewrite E. eexists; split; [reflexivity|]. split; [reflexivity|].
  intros calls out. now rewrite after_cluster_calls_d2mat.
Qed.

Lemma d2mat_lattice_invariant_witness :
  (1 <= 2)%Z /\ (1 <= 3)%Z /\
  exists s,
    SOM_default 2 3 = inr s /\
    lattice_distances 3 6 (d2mat s) /\
    entry (d2mat s) 0 5 = 5%Z.
Proof.
  split; [lia|]. split; [lia|].
  destruct (d2mat_lattice_invariant 2 3 "gaussian" 10 (1 / 2) (1 / 100)
              None "pca") as (s & Hs & Hl & _); [lia | lia |].
  exists s. split; [exact Hs|]. split; [exact Hl|].
  destruct Hl as [_ Hl].
  destruct (Hl 0%nat 5%nat) as (_ & He & _); [simpl; lia | simpl; lia |].
  rewrite He. reflexivity.
Defined.

Lemma SOM_new_in_range (rows cols : Z) (nb : string) (ne : Z) (h0 hN : R)
      (rm : option R) (ini : string) :
  ((cols - 1) ^ 2 + (rows - 1) ^ 2 < 2 ^ 64)%Z ->
  SOM_new rows cols nb ne h0 hN rm ini
  = SOM_init rows cols nb ne h0 hN rm ini.
Proof.
  intros H. unfold SOM_new, np_sqrt_int.
  destruct rm as [r|]; [reflexivity|].
  apply Z.ltb_lt in H. rewrite H. reflexivity.
Qed.

Lemma machine_range_diagonal (rows cols : Z) :
  (Z.abs rows <= 2 ^ 31)%Z -> (Z.abs cols <= 2 ^ 31)%Z ->
  ((cols - 1) ^ 2 + (rows - 1) ^ 2 < 2 ^ 64)%Z.
Proof.
  intros Hr Hc.
  assert (Hr' : (- 2 ^ 31 <= rows <= 2 ^ 31)%Z) by lia.
  assert (Hc' : (- 2 ^ 31 <= cols <= 2 ^ 31)%Z) by lia.
  change (2 ^ 31)%Z with 2147483648%Z in *.
  change (2 ^ 64)%Z with 18446744073709551616%Z.
  nia.
Qed.

(** C8 (as amended).  The constructor validates neither dimension and
    raises no error for a non-positive one: for [rows] and [cols] of
    magnitude up to [2^31] -- zero and negative values included -- the
    call returns an object that stores them as given, with a
    distance-squared matrix of [max(rows*cols, 0)] rows, hence empty when
    [rows*cols <= 0].  The failure that the constructor does have is not
    about the sign: with [Rmax=None] and
    [(cols-1)^2 + (rows-1)^2 >= 2^64], [np.sqrt] raises [TypeError]. *)
Theorem SOM_new_validates_nothing :
  forall (rows cols : Z) (nb : string) (ne : Z) (h0 hN : R)
         (rm : option R) (ini : string),
    ((Z.abs rows <= 2 ^ 31)%Z -> (Z.abs cols <= 2 ^ 31)%Z ->
     exists s,
       SOM_new rows cols nb ne h0 hN rm ini = inr s /\
       n_rows s = rows /\ n_cols s = cols /\
       d2mat s = make_d2mat rows cols /\
       length (d2mat s) = Z.to_nat (rows * cols) /\
       ((rows * cols <= 0)%Z -> d2mat s = [])) /\
    ((2 ^ 64 <= (cols - 1) ^ 2 + (rows - 1) ^ 2)%Z ->
     SOM_new rows cols nb ne h0 hN None ini = inl TypeError).
Proof.
  intros rows cols nb ne h0 hN rm ini. split.
  - intros Hr Hc.
    rewrite SOM_new_in_range by now apply machine_range_diagonal.
    eexists; split; [reflexivity|]. simpl.
    repeat (split; [reflexivity|]).
    split; [apply make_d2mat_length|].
    intros Hn. pose proof (make_d2mat_length rows cols) as Hl.
    replace (Z.to_nat (rows * cols)) with 0%nat in Hl by lia.
    now apply length_zero_iff_nil.
  - intros H. unfold SOM_new, np_sqrt_int.
    assert (E : ((cols - 1) ^ 2 + (rows - 1) ^ 2 <? 2 ^ 64)%Z = false)
      by (apply Z.ltb_ge; exact H).
    now rewrite E.
Qed.

Lemma SOM_new_validates_nothing_witness :
  (exists s,
     SOM_new (-2) 3 "gaussian" 10 (1 / 2) (1 / 100) None "pca" = inr s /\
     n_rows s = (-2)%Z /\ d2mat s = []) /\
  SOM_new 0 (2 ^ 32 + 1) "gaussian" 10 (1 / 2) (1 / 100) None "pca"
  = inl TypeError.
Proof.
  split.
  - destruct (SOM_new_validates_nothing (-2) 3 "gaussian" 10 (1 / 2)
                (1 / 100) None "pca") as [H _].
    destruct H as (s & Hs & Hr & _ & _ & _ & He);
      [vm_compute; discriminate | vm_compute; discriminate |].
    exists s. split; [exact Hs|]. split; [exact Hr|].
    apply He. lia.
  - destruct (SOM_new_validates_nothing 0 (2 ^ 32 + 1) "gaussian" 10
                (1 / 2) (1 / 100) None "pca") as [_ H].
    apply H. vm_compute. discriminate.
Defined.

(** C8 as stated fails in both halves.  With [rows = 0] (and with
    [cols = -1]) the constructor raises nothing and returns an object
    with an empty matrix.  And positive dimensions do have a failure
    mode: [SOM(3, 2**32 + 2)] raises [TypeError] in [np.sqrt]. *)
Lemma SOM_new_nonpositive_succeeds :
  (0 <= 0)%Z /\ (-1 <= 0)%Z /\
  (forall e,
     SOM_new 0 3 "gaussian" 10 (1 / 2) (1 / 100) None "pca" <> inl e) /\
  (forall e,
     SOM_new 2 (-1) "gaussian" 10 (1 / 2) (1 / 100) None "pca" <> inl e) /\
  (exists s, SOM_new 0 3 "gaussian" 10 (1 / 2) (1 / 100) None "pca" = inr s
             /\ d2mat s = []) /\
  (exists s, SOM_new 2 (-1) "gaussian" 10 (1 / 2) (1 / 100) None "pca"
             = inr s /\ d2mat s = []) /\
  (1 <= 3)%Z /\ (1 <= 2 ^ 32 + 2)%Z /\
  SOM_new 3 (2 ^ 32 + 2) "gaussian" 10 (1 / 2) (1 / 100) None "pca"
  = inl TypeError.
Proof.
  split; [lia|]. split; [lia|].
  rewrite !SOM_new_in_range by (vm_compute; reflexivity).
  split; [intros e H; discriminate H|].
  split; [intros e H; discriminate H|].
  split; [eexists; (split; [reflexivity|]); reflexivity|].
  split; [eexists; (split; [reflexivity|]); reflexivity|].
  split; [lia|]. split; [lia|]. reflexivity.
Qed.

(* ================================================================= *)
(** ** The radius schedule *)

Section Linspace.
Local Open Scope R_scope.
Variables (a b : R) (num : Z).

Lemma linspace_one : num = 1%Z -> linspace a b num = inr [a].
Proof.
  intros ->. unfold linspace. simpl. do 2 f_equal. lra.
Qed.

Lemma linspace_length (l : list R) :
  linspace a b num = inr l -> length l = Z.to_nat num.
Proof.
  unfold linspace. destruct (num <? 0)%Z; [discriminate|].
  intros H; injection H as <-.
  destruct (1 <? Z.to_nat num)%nat eqn:E.
  - apply Nat.ltb_lt in E.
    rewrite length_app, removelast_firstn_len, length_firstn,
      length_map, length_seq. simpl. lia.
  - now rewrite length_map, length_seq.
Qed.

(** With at least two samples, sample [i] is [a + i * (b - a)/(n - 1)];
    in exact arithmetic this is also true of the last one. *)
Lemma linspace_nth (l : list R) (i : nat) :
  (2 <= num)%Z -> linspace a b num = inr l -> (i < Z.to_nat num)%nat ->
  nth i l 0 = a + INR i * ((b - a) / INR (Z.to_nat num - 1)).
Proof.
  intros Hn H Hi. unfold linspace in H.
  destruct (num <? 0)%Z eqn:Eneg; [apply Z.ltb_lt in Eneg; lia|].
  assert (E : (1 <? Z.to_nat num)%nat = true) by (apply Nat.ltb_lt; lia).
  rewrite E in H. injection H as <-.
  set (n := Z.to_nat num) in *.
  assert (Hlen : length (removelast
            (map (fun i => INR i * ((b - a) / INR (n - 1)) + a)
                 (seq 0 n))) = (n - 1)%nat).
  { rewrite removelast_firstn_len, length_firstn, length_map, length_seq.
    lia. }
  destruct (Nat.lt_ge_cases i (n - 1)) as [Hlt|Hge].
  - rewrite app_nth1 by (rewrite Hlen; exact Hlt).
    rewrite removelast_firstn_len, nth_firstn, length_map, length_seq.
    assert (Ei : (i <? Nat.pred n)%nat = true) by (apply Nat.ltb_lt; lia).
    rewrite Ei.
    rewrite (map_nth_in _ _ 0%nat 0) by (rewrite length_seq; lia).
    rewrite seq_nth by lia. simpl. lra.
  - assert (i = (n - 1)%nat) as -> by (subst n; lia).
    rewrite app_nth2 by (rewrite Hlen; lia).
    rewrite Hlen, Nat.sub_diag. simpl.
    assert (INR (n - 1) <> 0) by (apply not_0_INR; subst n; lia).
    field. assumption.
Qed.

(** Every radius lies between the two ends of the schedule. *)
Lemma linspace_non_increasing (l : list R) :
  b <= a -> linspace a b num = inr l -> non_increasing l.
Proof.
  intros Hab H i j Hij.
  rewrite (linspace_length l H) in Hij.
  destruct (Nat.eq_dec i j) as [->|Hne]; [lra|].
  assert (Hn : (2 <= num)%Z) by lia.
  rewrite !(linspace_nth l) by (assumption || lia).
  assert (Hd : 0 < INR (Z.to_nat num - 1)) by (apply lt_0_INR; lia).
  assert (Hs : (b - a) / INR (Z.to_nat num - 1) <= 0).
  { unfold Rdiv.
    assert (0 < / INR (Z.to_nat num - 1)) by now apply Rinv_0_lt_compat.
    nra. }
  assert (Hlt : INR i < INR j) by (apply lt_INR; lia).
  nra.
Qed.

Lemma linspace_non_decreasing (l : list R) :
  a <= b -> linspace a b num = inr l -> non_decreasing l.
Proof.
  intros Hab H i j Hij.
  rewrite (linspace_length l H) in Hij.
  destruct (Nat.eq_dec i j) as [->|Hne]; [lra|].
  assert (Hn : (2 <= num)%Z) by lia.
  rewrite !(linspace_nth l) by (assumption || lia).
  assert (Hd : 0 < INR (Z.to_nat num - 1)) by (apply lt_0_INR; lia).
  assert (Hs : 0 <= (b - a) / INR (Z.to_nat num - 1)).
  { unfold Rdiv.
    assert (0 < / INR (Z.to_nat num - 1)) by now apply Rinv_0_lt_compat.
    nra. }
  assert (Hlt : INR i < INR j) by (apply lt_INR; lia).
  nra.
Qed.

Lemma linspace_between (l : list R) (i : nat) :
  (1 <= num)%Z -> linspace a b num = inr l -> (i < Z.to_nat num)%nat ->
  Rmin a b <= nth i l 0 <= Rbasic_fun.Rmax a b.
Proof.
  intros Hn H Hi.
  destruct (Z.eq_dec num 1) as [E1|E1].
  - rewrite linspace_one in H by assumption. injection H as <-.
    assert (i = 0%nat) as -> by lia. simpl.
    split; [apply Rmin_l | apply Rmax_l].
  - rewrite (linspace_nth l) by (assumption || lia).
    assert (Hd : 0 < INR (Z.to_nat num - 1)) by (apply lt_0_INR; lia).
    assert (Hi' : INR i <= INR (Z.to_nat num - 1)) by (apply le_INR; lia).
    assert (H0 : 0 <= INR i) by apply pos_INR.
    set (t := INR i / INR (Z.to_nat num - 1)).
    assert (Ht : 0 <= t <= 1).
    { assert (Hinv : 0 < / INR (Z.to_nat num - 1))
        by now apply Rinv_0_lt_compat.
      unfold t, Rdiv. split; [nra|].
      apply (Rmult_le_reg_r (INR (Z.to_nat num - 1))); [assumption|].
      rewrite Rmult_assoc, Rinv_l by lra. lra. }
    replace (a + INR i * ((b - a) / INR (Z.to_nat num - 1)))
      with (a + t * (b - a)) by (unfold t; field; lra).
    unfold Rmin, Rbasic_fun.Rmax.
    destruct (Rle_dec a b); split; nra.
Qed.
End Linspace.

Lemma sigs_of_nonneg (s : SOM) :
  (0 <= n_epochs s)%Z ->
  exists sigs, sigs_of s = inr sigs /\ length sigs = Z.to_nat (n_epochs s).
Proof.
  intros Hn. unfold sigs_of.
  destruct (linspace (Rmax s) (1 / 2) (n_epochs s)) as [e|sigs] eqn:E.
  - unfold linspace in E.
    destruct (n_epochs s <? 0)%Z eqn:En; [|discriminate E].
    apply Z.ltb_lt in En. lia.
  - exists sigs. split; [reflexivity|].
    exact (linspace_length _ _ _ sigs E).
Qed.

(** The two ends of the schedule. *)
Lemma sigs_of_ends (s : SOM) :
  (1 <= n_epochs s)%Z ->
  exists sig,
    sigs_of s = inr sig /\
    length sig = Z.to_nat (n_epochs s) /\
    nth 0 sig 0%R = Rmax s /\
    ((2 <= n_epochs s)%Z ->
       nth (Z.to_nat (n_epochs s) - 1) sig 0%R = (1 / 2)%R).
Proof.
  intros Hn. destruct (sigs_of_nonneg s ltac:(lia)) as (sig & E & Hl).
  exists sig. split; [exact E|]. split; [exact Hl|].
  unfold sigs_of in E. split.
  - destruct (Z.eq_dec (n_epochs s) 1) as [E1|E1].
    + rewrite linspace_one in E by assumption. now injection E as <-.
    + rewrite (linspace_nth (Rmax s) (1 / 2) (n_epochs s) sig)
        by (assumption || lia).
      rewrite INR_0. ring.
  - intros H2.
    rewrite (linspace_nth (Rmax s) (1 / 2) (n_epochs s) sig)
      by (assumption || lia).
    assert (INR (Z.to_nat (n_epochs s) - 1) <> 0%R)
      by (apply not_0_INR; lia).
    field. assumption.
Qed.

(** C3 (as amended).  For [n_epochs >= 1] the schedule has [n_epochs]
    radii and starts at [Rmax].  With a single epoch it is [[Rmax]].  With
    two or more it is linearly spaced from [Rmax] to [0.5] inclusive:
    radius [i] is [Rmax + i * (0.5 - Rmax) / (n_epochs - 1)], the last one
    [0.5].  The radii never increase when [Rmax >= 0.5], and never
    decrease when [Rmax <= 0.5]. *)
Theorem radius_schedule :
  forall s : SOM,
    (1 <= n_epochs s)%Z ->
    exists sig,
      sigs_of s = inr sig /\
      length sig = Z.to_nat (n_epochs s) /\
      nth 0 sig 0%R = Rmax s /\
      ((n_epochs s = 1)%Z -> sig = [Rmax s]) /\
      ((2 <= n_epochs s)%Z ->
         forall i, (i < Z.to_nat (n_epochs s))%nat ->
           nth i sig 0%R
           = (Rmax s + INR i * ((1 / 2 - Rmax s)
                                / INR (Z.to_nat (n_epochs s) - 1)))%R) /\
      ((2 <= n_epochs s)%Z ->
         nth (Z.to_nat (n_epochs s) - 1) sig 0%R = (1 / 2)%R) /\
      ((1 / 2 <= Rmax s)%R -> non_increasing sig) /\
      ((Rmax s <= 1 / 2)%R -> non_decreasing sig).
Proof.
  intros s Hn.
  destruct (sigs_of_ends s Hn) as (sig & E & Hl & H0 & Hlast).
  exists sig. split; [exact E|]. split; [exact Hl|]. split; [exact H0|].
  unfold sigs_of in E.
  split.
  { intros H. rewrite linspace_one in E by assumption. now injection E. }
  split.
  { intros H2 i Hi.
    exact (linspace_nth (Rmax s) (1 / 2) (n_epochs s) sig i H2 E Hi). }
  split; [exact Hlast|].
  split.
  - intros Hr. exact (linspace_non_increasing _ _ _ sig Hr E).
  - intros Hr. exact (linspace_non_decreasing _ _ _ sig Hr E).
Qed.

Lemma radius_schedule_witness :
  exists s sig,
    SOM_init 3 4 "gaussian" 10 (1 / 2) (1 / 100) (Some 5%R) "pca" = inr s /\
    (1 <= n_epochs s)%Z /\
    sigs_of s = inr sig /\
    length sig = 10%nat /\
    nth 0 sig 0%R = 5%R /\
    nth 3 sig 0%R = (7 / 2)%R /\
    nth 9 sig 0%R = (1 / 2)%R /\
    non_increasing sig.
Proof.
  eexists. 
  destruct (radius_schedule
              {| n_rows := 3; n_cols := 4; neighbourhood := "gaussian";
                 n_epochs := 10; h0_Rmax := 1 / 2; hN_R1 := 1 / 100;
                 Rmax := 5; initial := "pca"; bmus := None; wts := None;
                 inertia_ := None; d2mat := make_d2mat 3 4;
                 kernels := None; dmat := None |})
    as (sig & Hs & Hl & H0 & _ & Hi & Hlast & Hdec & _); [simpl; lia|].
  exists sig. split; [reflexivity|]. simpl in *.
  split; [lia|]. split; [exact Hs|]. split; [exact Hl|].
  split; [exact H0|].
  split; [rewrite (Hi ltac:(lia) 3%nat ltac:(lia)); simpl; lra|].
  split; [apply Hlast; lia|].
  apply Hdec; lra.
Defined.

(** C3 as stated fails in two ways.  With one epoch the last radius is
    [Rmax], not [0.5] (here a 2 x 2 lattice, [Rmax = sqrt 2]).  With
    [Rmax <= 0.5] the schedule does not decrease (here the 1 x 1 lattice,
    whose default [Rmax] is [0]: the radii grow from [0] to [0.5]). *)
Lemma radius_schedule_not_as_specified :
  (exists s sig,
      SOM_init 2 2 "gaussian" 1 (1 / 2) (1 / 100) None "pca" = inr s /\
      sigs_of s = inr sig /\
      ~ schedule_as_specified s sig) /\
  (exists s sig,
      SOM_default 1 1 = inr s /\
      sigs_of s = inr sig /\
      ~ schedule_as_specified s sig).
Proof.
  split.
  - eexists. eexists. split; [reflexivity|].
    split; [apply linspace_one; reflexivity|].
    intros (_ & _ & Hlast & _). simpl in Hlast.
    replace ((2 - 1) ^ 2 + (2 - 1) ^ 2)%Z with 2%Z in Hlast by reflexivity.
    pose proof (sqrt_le_1_alt 1 2 ltac:(lra)) as H.
    rewrite sqrt_1 in H. lra.
  - destruct (SOM_default 1 1) as [e|s] eqn:Es; [discriminate Es|].
    injection Es as Es.
    destruct (sigs_of_ends s) as (sig & Hs & Hl & H0 & Hlast);
      [subst s; simpl; lia|].
    exists s, sig. split; [reflexivity|]. split; [exact Hs|].
    intros (_ & _ & _ & Hdec).
    assert (Hn : n_epochs s = 10%Z) by (subst s; reflexivity).
    assert (Hr : Rmax s = 0%R).
    { subst s; simpl.
      replace ((1 - 1) ^ 2 + (1 - 1) ^ 2)%Z with 0%Z by reflexivity.
      apply sqrt_0. }
    specialize (Hdec ltac:(lia) 0%nat 9%nat ltac:(rewrite Hl, Hn; simpl; lia)).
    rewrite Hn in Hlast. simpl in Hlast.
    rewrite (Hlast ltac:(lia)), H0, Hr in Hdec. lra.
Qed.

(* ================================================================= *)
(** ** Arithmetic on finite values *)

Lemma Rsign_zero : Rsign 0 = Eq.
Proof.
  unfold Rsign. destruct (Rlt_dec 0 0); [lra|]. reflexivity.
Qed.

Lemma Rsign_pos (r : R) : (0 < r)%R -> Rsign r = Gt.
Proof.
  intros H. unfold Rsign.
  destruct (Rlt_dec r 0); [lra|]. destruct (Rlt_dec 0 r); [reflexivity|lra].
Qed.

Lemma Rsign_neg (r : R) : (r < 0)%R -> Rsign r = Lt.
Proof.
  intros H. unfold Rsign. destruct (Rlt_dec r 0); [reflexivity|lra].
Qed.

Lemma Fdiv_fin (a b : R) : b <> 0%R -> Fdiv (Fin a) (Fin b) = Fin (a / b).
Proof.
  intros H. simpl. destruct (Req_dec_T b 0); [contradiction|reflexivity].
Qed.

Lemma Fdiv_zero_zero : Fdiv (Fin 0) (Fin 0) = NaN.
Proof.
  simpl. destruct (Req_dec_T 0 0) as [_|H]; [|now elim H].
  now rewrite Rsign_zero.
Qed.

Lemma Fsqrt_fin (a : R) : (0 <= a)%R -> Fsqrt (Fin a) = Fin (sqrt a).
Proof.
  intros H. simpl. destruct (Rlt_dec a 0); [lra|reflexivity].
Qed.

Lemma Fleb_fin (a b : R) :
  Fleb (Fin a) (Fin b) = true <-> (a <= b)%R.
Proof.
  simpl. destruct (Rle_dec a b); split; intros; auto; discriminate.
Qed.

Lemma Fleb_fin_true (a b : R) : (a <= b)%R -> Fleb (Fin a) (Fin b) = true.
Proof. apply Fleb_fin. Qed.

Lemma Fleb_fin_false (a b : R) : (b < a)%R -> Fleb (Fin a) (Fin b) = false.
Proof.
  intros H. simpl. destruct (Rle_dec a b); [lra|reflexivity].
Qed.

Lemma Fclip_fin (x : R) :
  Fclip (Fin x) (Fin 0) (Fin 1) = Fin (Rmin (Rbasic_fun.Rmax x 0) 1).
Proof.
  unfold Fclip, Fmaximum, Fminimum, Rmin, Rbasic_fun.Rmax. simpl.
  destruct (Rle_dec x 0); simpl;
    match goal with |- context [Rle_dec ?a 1] => destruct (Rle_dec a 1) end;
    reflexivity.
Qed.

(* ================================================================= *)
(** ** The neighbourhood kernels *)

Section Exponential.
Local Open Scope R_scope.

Lemma tiny_below_one : / 2 ^ 1075 < 1.
Proof.
  assert (H : 1 < 2 ^ 1075) by (apply Rlt_pow_R1; [lra | lia]).
  rewrite <- Rinv_1. apply Rinv_lt_contravar; lra.
Qed.

Lemma one_below_huge : 1 < 2 ^ 1024.
Proof. apply Rlt_pow_R1; [lra | lia]. Qed.

Lemma np_exp_0 : np_exp 0 = Fin 1.
Proof.
  unfold np_exp. rewrite exp_0.
  pose proof tiny_below_one. pose proof one_below_huge.
  destruct (Rle_dec 1 (/ 2 ^ 1075)); [lra|].
  destruct (Rle_dec (2 ^ 1024) 1); [lra | reflexivity].
Qed.

Lemma exp_monotone (a b : R) : a <= b -> exp a <= exp b.
Proof.
  intros [H| ->]; [left; now apply exp_increasing | lra].
Qed.

Lemma np_exp_monotone (a b : R) :
  a <= b -> Fleb (np_exp a) (np_exp b) = true.
Proof.
  intros H. pose proof (exp_monotone a b H) as He.
  pose proof tiny_below_one. pose proof one_below_huge.
  assert (Ht : 0 < / 2 ^ 1075)
    by (apply Rinv_0_lt_compat; apply pow_lt; lra).
  unfold np_exp.
  destruct (Rle_dec (exp a) (/ 2 ^ 1075));
    destruct (Rle_dec (exp b) (/ 2 ^ 1075));
    destruct (Rle_dec (2 ^ 1024) (exp a));
    destruct (Rle_dec (2 ^ 1024) (exp b)); try lra;
    cbn [Fleb];
    repeat match goal with
           | |- context [Rle_dec ?x ?y] => destruct (Rle_dec x y)
           end; try reflexivity; lra.
Qed.

(** An argument that is not positive gives a finite value in [[0, 1]]. *)
Lemma np_exp_unit (a : R) :
  a <= 0 -> exists w, np_exp a = Fin w /\ 0 <= w <= 1.
Proof.
  intros H. pose proof (exp_monotone a 0 H) as He. rewrite exp_0 in He.
  pose proof (exp_pos a). pose proof one_below_huge.
  unfold np_exp.
  destruct (Rle_dec (exp a) (/ 2 ^ 1075));
    [exists 0; split; [reflexivity | lra]|].
  destruct (Rle_dec (2 ^ 1024) (exp a)); [lra|].
  exists (exp a). split; [reflexivity | lra].
Qed.

Lemma exp_INR (n : nat) : exp (INR n) = exp 1 ^ n.
Proof.
  induction n as [|n IH]; [simpl; apply exp_0|].
  rewrite S_INR, exp_plus, IH. simpl. ring.
Qed.

(** No underflow down to [-300]. *)
Lemma np_exp_positive (a : R) :
  -300 <= a -> a <= 0 -> np_exp a = Fin (exp a) /\ 0 < exp a.
Proof.
  intros Hlo Hhi. pose proof (exp_pos a) as Hp.
  pose proof (exp_monotone a 0 Hhi) as He. rewrite exp_0 in He.
  pose proof one_below_huge.
  assert (H300 : exp 300 <= 2 ^ 600).
  { replace 300 with (INR 300) by (simpl; lra).
    rewrite exp_INR. replace (2 ^ 600) with ((2 ^ 2) ^ 300)
      by (rewrite <- pow_mult; reflexivity).
    apply pow_incr. split; [left; apply exp_pos|].
    pose proof exp_le_3. simpl. lra. }
  assert (Hlt : 2 ^ 600 < 2 ^ 1075) by (apply Rlt_pow; [lra | lia]).
  assert (Hinv : / 2 ^ 1075 < exp a).
  { apply Rlt_le_trans with (exp (Ropp 300));
      [|apply exp_monotone; lra].
    rewrite exp_Ropp. apply Rinv_lt_contravar; [|lra].
    apply Rmult_lt_0_compat; [apply exp_pos | apply pow_lt; lra]. }
  unfold np_exp.
  destruct (Rle_dec (exp a) (/ 2 ^ 1075)); [lra|].
  destruct (Rle_dec (2 ^ 1024) (exp a)); [lra|]. auto.
Qed.
End Exponential.

Section Kernels.
Local Open Scope R_scope.
Variable sg : R.
Hypothesis sg_pos : 0 < sg.

Lemma gaussian_fin (d : Z) :
  gaussian sg d = np_exp (- (IZR d / (2 * sg))).
Proof.
  unfold gaussian, FZ. simpl Fmul. rewrite Fdiv_fin by lra. reflexivity.
Qed.

Lemma exponential_fin (d : Z) :
  (0 <= d)%Z ->
  exponential sg d = np_exp (- (sqrt (IZR d) / (2 * sg))).
Proof.
  intros Hd. unfold exponential, FZ.
  rewrite Fsqrt_fin by (apply IZR_le in Hd; exact Hd).
  simpl Fmul. rewrite Fdiv_fin by lra. reflexivity.
Qed.

Lemma linear_fin (d : Z) :
  (0 <= d)%Z ->
  linear sg d = Fin (Rmin (Rbasic_fun.Rmax (1 - sqrt (IZR d) / sg) 0) 1).
Proof.
  intros Hd. unfold linear, FZ.
  rewrite Fsqrt_fin by (apply IZR_le in Hd; exact Hd).
  rewrite Fdiv_fin by lra.
  change (Fsub (Fin 1) (Fin (sqrt (IZR d) / sg)))
    with (Fin (1 + - (sqrt (IZR d) / sg))).
  rewrite Fclip_fin. reflexivity.
Qed.

(** A positive radius: the self-weight is one and the weight falls with
    the distance, for the three smooth families. *)
Lemma smooth_kernel_self (h : R -> Z -> F) (name : string) :
  In name ["gaussian"; "exponential"; "linear"]%string ->
  kernel_of name = Some h -> h sg 0%Z = Fin 1.
Proof.
  intros Hin Hk. simpl in Hin.
  destruct Hin as [<-|[<-|[<-|[]]]]; injection Hk as <-.
  - rewrite gaussian_fin.
    replace (- (0 / (2 * sg))) with 0 by (field; lra). apply np_exp_0.
  - rewrite exponential_fin by lia.
    rewrite sqrt_0.
    replace (- (0 / (2 * sg))) with 0 by (field; lra). apply np_exp_0.
  - rewrite linear_fin by lia. f_equal.
    rewrite sqrt_0.
    replace (1 - 0 / sg) with 1 by (field; lra).
    unfold Rmin, Rbasic_fun.Rmax.
    destruct (Rle_dec 1 0); [lra|]. destruct (Rle_dec 1 1); lra.
Qed.

Lemma smooth_kernel_monotone (h : R -> Z -> F) (name : string) (d d' : Z) :
  In name ["gaussian"; "exponential"; "linear"]%string ->
  kernel_of name = Some h ->
  (0 <= d)%Z -> (d <= d')%Z -> Fle (h sg d') (h sg d).
Proof.
  intros Hin Hk H0 Hdd. simpl in Hin. unfold Fle.
  assert (Hr : IZR d <= IZR d') by now apply IZR_le.
  assert (Hs : sqrt (IZR d) <= sqrt (IZR d')) by now apply sqrt_le_1_alt.
  assert (Hi : 0 < / sg) by now apply Rinv_0_lt_compat.
  assert (Hi2 : 0 < / (2 * sg)) by (apply Rinv_0_lt_compat; lra).
  destruct Hin as [<-|[<-|[<-|[]]]]; injection Hk as <-.
  - rewrite !gaussian_fin. apply np_exp_monotone. unfold Rdiv. nra.
  - rewrite !exponential_fin by lia. apply np_exp_monotone.
    unfold Rdiv. nra.
  - rewrite !linear_fin by lia. apply Fleb_fin_true.
    assert (Hl : 1 - sqrt (IZR d') / sg <= 1 - sqrt (IZR d) / sg)
      by (unfold Rdiv; nra).
    set (x := 1 - sqrt (IZR d') / sg) in *.
    set (y := 1 - sqrt (IZR d) / sg) in *.
    unfold Rmin, Rbasic_fun.Rmax.
    destruct (Rle_dec x 0), (Rle_dec y 0);
      repeat match goal with
             | |- context [Rle_dec ?a ?b] => destruct (Rle_dec a b)
             end; lra.
Qed.
End Kernels.

(** With radius zero the self-weight is [0/0]. *)
Lemma gaussian_zero_radius : gaussian 0 0 = NaN.
Proof.
  unfold gaussian, FZ. simpl Fmul.
  replace (2 * 0)%R with 0%R by lra. now rewrite Fdiv_zero_zero.
Qed.

Lemma kernel_tensor_entry (h : R -> Z -> F) (sigs : list R)
      (d2 : list (list Z)) (e i j : nat) :
  (e < length sigs)%nat -> (i < length d2)%nat ->
  (j < length (nth i d2 []))%nat ->
  kernel_entry (kernel_tensor h sigs d2) e i j
  = h (nth e sigs 0%R) (entry d2 i j).
Proof.
  intros He Hi Hj. unfold kernel_entry, kernel_tensor, entry.
  rewrite (map_nth_in _ sigs 0%R []) by assumption.
  rewrite (map_nth_in _ d2 [] []) by assumption.
  now rewrite (map_nth_in _ _ 0%Z NaN) by assumption.
Qed.

(** What [make_kernels] does, in one equation. *)
Lemma make_kernels_spec (s : SOM) (out : list string) :
  make_kernels s out =
  match sigs_of s with
  | inl e => (inl e, s, out)
  | inr sigs =>
      match kernel_of (neighbourhood s) with
      | Some h =>
          (inr tt, set_kernels (Some (kernel_tensor h sigs (d2mat s))) s, out)
      | None => (inr tt, s, (out ++ ["Invalid neighbourhood"%string])%list)
      end
  end.
Proof.
  unfold make_kernels, kernel_of, bind, get, lift, modify, print.
  destruct (sigs_of s) as [e|sigs]; [reflexivity|].
  repeat match goal with
         | |- context [String.eqb ?a ?b] => destruct (String.eqb a b)
         end; reflexivity.
Qed.

(** Every radius is positive as soon as [Rmax] is. *)
Lemma radii_positive (s : SOM) (sigs : list R) (e : nat) :
  (0 < Rmax s)%R -> sigs_of s = inr sigs -> (e < length sigs)%nat ->
  (0 < nth e sigs 0)%R.
Proof.
  intros Hr Hs He. unfold sigs_of in Hs.
  pose proof (linspace_length _ _ _ sigs Hs) as Hl.
  assert (Hn : (1 <= n_epochs s)%Z) by lia.
  destruct (linspace_between (Rmax s) (1 / 2) (n_epochs s) sigs e Hn Hs)
    as [Hlo _]; [lia|].
  unfold Rmin in Hlo. destruct (Rle_dec (Rmax s) (1 / 2)); lra.
Qed.

(** C4 (as amended).  For the gaussian, exponential and linear families,
    on a lattice built by the constructor, [make_kernels] stores a kernel
    tensor with one matrix per epoch, and at every epoch [e] whose radius
    [sig[e]] is positive the self-weight [K[e,i,i]] is [1] and [K[e,i,j]]
    does not increase with [D2[i,j]].  Every radius is positive when
    [Rmax > 0]. *)
Theorem kernel_monotone_self_weight :
  forall (s : SOM) (k : nat) (sigs : list R) (out : list string),
    In (neighbourhood s) ["gaussian"; "exponential"; "linear"]%string ->
    lattice_distances (n_cols s) k (d2mat s) ->
    sigs_of s = inr sigs ->
    exists K,
      make_kernels s out = (inr tt, set_kernels (Some K) s, out) /\
      length K = length sigs /\
      (forall e, (e < length sigs)%nat -> (0 < nth e sigs 0)%R ->
                 kernel_monotone_at k (d2mat s) K e) /\
      ((0 < Rmax s)%R ->
       forall e, (e < length sigs)%nat -> kernel_monotone_at k (d2mat s) K e).
Proof.
  intros s k sigs out Hin [Hlen Hlat] Hs.
  assert (Hk : exists h, kernel_of (neighbourhood s) = Some h).
  { simpl in Hin. destruct Hin as [<-|[<-|[<-|[]]]]; eexists; reflexivity. }
  destruct Hk as [h Hk].
  exists (kernel_tensor h sigs (d2mat s)).
  split; [rewrite make_kernels_spec, Hs, Hk; reflexivity|].
  split; [unfold kernel_tensor; apply length_map|].
  assert (Hmono : forall e, (e < length sigs)%nat -> (0 < nth e sigs 0)%R ->
            kernel_monotone_at k (d2mat s) (kernel_tensor h sigs (d2mat s)) e).
  { intros e He Hpos. split.
    - intros i Hi. destruct (Hlat i i Hi Hi) as (Hrow & _ & Hdiag & _).
      rewrite kernel_tensor_entry by (rewrite ?Hrow; lia).
      rewrite Hdiag.
      exact (smooth_kernel_self _ Hpos h _ Hin Hk).
    - intros i j i' j' Hi Hj Hi' Hj' Hd.
      destruct (Hlat i j Hi Hj) as (Hrow & _ & _ & _ & Hnn).
      destruct (Hlat i' j' Hi' Hj') as (Hrow' & _).
      rewrite !kernel_tensor_entry by (rewrite ?Hrow, ?Hrow'; lia).
      exact (smooth_kernel_monotone _ Hpos h _ _ _ Hin Hk Hnn Hd). }
  split; [exact Hmono|].
  intros Hr e He. apply Hmono; [exact He|].
  exact (radii_positive s sigs e Hr Hs He).
Qed.

Lemma kernel_monotone_self_weight_witness :
  exists s sigs K,
    SOM_default 2 3 = inr s /\
    sigs_of s = inr sigs /\
    make_kernels s [] = (inr tt, set_kernels (Some K) s, []) /\
    length K = 10%nat /\
    forall e, (e < 10)%nat -> kernel_monotone_at 6 (d2mat s) K e.
Proof.
  destruct (SOM_default 2 3) as [e|s] eqn:Es; [discriminate Es|].
  injection Es as Es.
  assert (Hr : (0 < Rmax s)%R).
  { subst s; simpl.
    replace ((3 - 1) ^ 2 + (2 - 1) ^ 2)%Z with 5%Z by reflexivity.
    apply sqrt_lt_R0. lra. }
  destruct (sigs_of_ends s) as (sigs & Hs & Hl & _);
    [subst s; simpl; lia|].
  assert (Hl' : length sigs = 10%nat) by (rewrite Hl; subst s; reflexivity).
  destruct (kernel_monotone_self_weight s 6 sigs []) as (K & HK & HlK & _ & H);
    [subst s; simpl; auto
    | subst s; exact (make_d2mat_lattice 2 3 ltac:(lia))
    | exact Hs |].
  exists s, sigs, K. split; [reflexivity|]. split; [exact Hs|].
  split; [exact HK|]. split; [congruence|].
  intros e He. apply (H Hr). lia.
Defined.

(** C4 as stated fails at an epoch of radius zero.  The 1 x 1 lattice has
    the default [Rmax = 0], so its first radius is [0] and the gaussian
    self-weight of its only neuron is [exp(-(0/0))], not a number. *)
Lemma kernel_self_weight_nan :
  exists s K,
    SOM_default 1 1 = inr s /\
    make_kernels s [] = (inr tt, set_kernels (Some K) s, []) /\
    kernel_entry K 0 0 0 = NaN /\
    ~ kernel_monotone_at 1 (d2mat s) K 0.
Proof.
  destruct (SOM_default 1 1) as [e|s] eqn:Es; [discriminate Es|].
  injection Es as Es.
  destruct (sigs_of_ends s) as (sigs & Hs & Hl & H0 & _);
    [subst s; simpl; lia|].
  assert (Hr : Rmax s = 0%R).
  { subst s; simpl.
    replace ((1 - 1) ^ 2 + (1 - 1) ^ 2)%Z with 0%Z by reflexivity.
    apply sqrt_0. }
  assert (Hk : kernel_of (neighbourhood s) = Some gaussian)
    by (subst s; reflexivity).
  assert (Hd : d2mat s = [[0%Z]]) by (subst s; reflexivity).
  exists s, (kernel_tensor gaussian sigs (d2mat s)).
  split; [reflexivity|].
  split; [rewrite make_kernels_spec, Hs, Hk; reflexivity|].
  assert (HN : kernel_entry (kernel_tensor gaussian sigs (d2mat s)) 0 0 0
               = NaN).
  { rewrite kernel_tensor_entry.
    - rewrite H0, Hr, Hd. exact gaussian_zero_radius.
    - rewrite Hl. subst s; simpl; lia.
    - rewrite Hd; simpl; lia.
    - rewrite Hd; simpl; lia. }
  split; [exact HN|].
  intros [Hself _]. specialize (Hself 0%nat ltac:(lia)).
  rewrite HN in Hself. discriminate Hself.
Qed.

(* ================================================================= *)
(** ** The order on floats that are not [nan] *)

Lemma Fleb_not_nan (x y : F) :
  Fleb x y = true -> Fis_nan x = false /\ Fis_nan y = false.
Proof. destruct x, y; simpl; intros H; try discriminate; auto. Qed.

Lemma Fleb_refl (x : F) : Fis_nan x = false -> Fleb x x = true.
Proof.
  destruct x; simpl; intros H; try discriminate; auto.
  destruct (Rle_dec r r); [reflexivity | lra].
Qed.

Lemma Fleb_trans (x y z : F) :
  Fleb x y = true -> Fleb y z = true -> Fleb x z = true.
Proof.
  destruct x, y, z; simpl; intros H1 H2; try discriminate; auto.
  destruct (Rle_dec r r0), (Rle_dec r0 r1), (Rle_dec r r1);
    try discriminate; auto; lra.
Qed.

Lemma Fleb_total (x y : F) :
  Fis_nan x = false -> Fis_nan y = false ->
  Fleb x y = true \/ Fleb y x = true.
Proof.
  destruct x, y; simpl; intros H1 H2; try discriminate; auto.
  destruct (Rle_dec r r0), (Rle_dec r0 r); auto; lra.
Qed.

(* ================================================================= *)
(** ** [argmin] on a row without [nan] *)

(** The scan keeps this invariant: [best] is the value at [bi], it is a
    minimum of the part of the row already seen, and no earlier entry is
    as small. *)
Lemma argmin_from_spec (l pre : list F) (best : F) (bi : nat) :
  let L := (pre ++ l)%list in
  (forall j, (j < length L)%nat -> Fis_nan (nth j L NaN) = false) ->
  (bi < length pre)%nat ->
  best = nth bi L NaN ->
  (forall j, (j < length pre)%nat -> Fleb best (nth j L NaN) = true) ->
  (forall j, (j < bi)%nat -> Fleb (nth j L NaN) best = false) ->
  let r := argmin_from best bi (length pre) l in
  (r < length L)%nat /\
  (forall j, (j < length L)%nat ->
     Fleb (nth r L NaN) (nth j L NaN) = true) /\
  (forall j, (j < r)%nat -> Fleb (nth j L NaN) (nth r L NaN) = false).
Proof.
  revert pre best bi. induction l as [|v l IH]; intros pre best bi L.
  - subst L. rewrite app_nil_r. simpl. intros Hnan Hbi -> Hmin Hfirst.
    repeat split; auto.
  - intros Hnan Hbi Hbest Hmin Hfirst. simpl.
    assert (EL : L = ((pre ++ [v]) ++ l)%list)
      by (subst L; now rewrite <- app_assoc).
    assert (Hlen : length (pre ++ [v]) = S (length pre))
      by (rewrite length_app; simpl; lia).
    assert (Hv : nth (length pre) L NaN = v)
      by (subst L; apply nth_middle).
    assert (Hvn : Fis_nan v = false).
    { rewrite <- Hv. apply Hnan. subst L. rewrite length_app. simpl. lia. }
    assert (Hbn : Fis_nan best = false).
    { rewrite Hbest. apply Hnan. subst L. rewrite length_app. lia. }
    unfold Fgeb. destruct (Fleb best v) eqn:E.
    + specialize (IH (pre ++ [v])%list best bi).
      rewrite Hlen in IH. cbv zeta in IH. rewrite <- EL in IH.
      apply IH; auto; try lia.
      intros j Hj. destruct (Nat.eq_dec j (length pre)) as [->|Hne].
      * now rewrite Hv.
      * apply Hmin. lia.
    + rewrite Hvn.
      assert (Hvb : Fleb v best = true).
      { destruct (Fleb_total v best Hvn Hbn) as [H|H]; [exact H|congruence]. }
      specialize (IH (pre ++ [v])%list v (length pre)).
      rewrite Hlen in IH. cbv zeta in IH. rewrite <- EL in IH.
      apply IH; auto; try lia.
      * intros j Hj. destruct (Nat.eq_dec j (length pre)) as [->|Hne].
        -- rewrite Hv. now apply Fleb_refl.
        -- apply Fleb_trans with best; [exact Hvb | apply Hmin; lia].
      * intros j Hj.
        destruct (Fleb (nth j L NaN) v) eqn:Ej; [|reflexivity].
        rewrite <- E. symmetry.
        apply Fleb_trans with (nth j L NaN); [apply Hmin; lia | exact Ej].
Qed.

Lemma argmin_row_spec (L : list F) :
  L <> [] ->
  (forall j, (j < length L)%nat -> Fis_nan (nth j L NaN) = false) ->
  let r := argmin_row L in
  (r < length L)%nat /\
  (forall j, (j < length L)%nat ->
     Fleb (nth r L NaN) (nth j L NaN) = true) /\
  (forall j, (j < r)%nat -> Fleb (nth j L NaN) (nth r L NaN) = false).
Proof.
  destruct L as [|v l]; [congruence|]. intros _ Hnan.
  assert (Hv : Fis_nan v = false) by (apply (Hnan 0%nat); simpl; lia).
  unfold argmin_row. rewrite Hv.
  apply (argmin_from_spec l [v] v 0); simpl; auto; try lia.
  intros [|j] Hj; [now apply Fleb_refl | lia].
Qed.

(* ================================================================= *)
(** ** [calc_BMUs] on arrays of matching shape *)

Lemma res_mapM_inr {A B} (f : A -> res B) (g : A -> B) (l : list A) :
  (forall a, In a l -> f a = inr (g a)) -> res_mapM f l = inr (map g l).
Proof.
  induction l as [|a l IH]; intros H; simpl; [reflexivity|].
  rewrite (H a) by (left; reflexivity). simpl.
  rewrite IH by (intros; apply H; right; assumption). reflexivity.
Qed.

Lemma bcast2_same_length {A B C} (f : A -> B -> C) (u : list A)
      (v : list B) :
  length u = length v -> bcast2 f u v = inr (map2 f u v).
Proof.
  intros H. unfold bcast2. now rewrite H, Nat.eqb_refl.
Qed.

Lemma sqdist_same_length (x w : list F) :
  length x = length w -> sqdist x w = inr (sq_distance x w).
Proof.
  intros H. unfold sqdist. now rewrite bcast2_same_length.
Qed.

Lemma sqdist_matrix_spec (f : nat) (X W : matrix) :
  rows_of_length f X -> rows_of_length f W ->
  sqdist_matrix X W = inr (map (fun x => map (sq_distance x) W) X).
Proof.
  intros HX HW. unfold sqdist_matrix.
  apply res_mapM_inr. intros x Hx.
  apply res_mapM_inr. intros w Hw.
  apply sqdist_same_length.
  unfold rows_of_length in *. rewrite Forall_forall in HX, HW.
  now rewrite (HX x Hx), (HW w Hw).
Qed.

Lemma argmin_nonempty (l : list F) : l <> [] -> argmin l = inr (argmin_row l).
Proof. destruct l; [congruence | reflexivity]. Qed.

(** On a codebook with at least one neuron and samples with as many
    features as the neurons, [calc_BMUs] returns, changes nothing and
    prints nothing. *)
Lemma calc_BMUs_spec (s : SOM) (X W : matrix) (f : nat) (out : list string) :
  wts s = Some W -> W <> [] ->
  rows_of_length f X -> rows_of_length f W ->
  calc_BMUs X s out = (inr (map (bmu_of W) X), s, out).
Proof.
  intros Hw Hne HX HW.
  unfold calc_BMUs, bind, attr, lift. rewrite Hw.
  rewrite (sqdist_matrix_spec f) by assumption.
  destruct W as [|w W']; [congruence|].
  set (W := w :: W') in *.
  rewrite (res_mapM_inr argmin argmin_row).
  - rewrite map_map. reflexivity.
  - intros l Hl. apply argmin_nonempty.
    apply in_map_iff in Hl. destruct Hl as (x & <- & _). discriminate.
Qed.

Lemma bmu_of_nearest (W : matrix) (x : list F) :
  W <> [] ->
  (forall w, In w W -> Fis_nan (sq_distance x w) = false) ->
  nearest_first W x (bmu_of W x).
Proof.
  intros Hne Hnan. unfold bmu_of, nearest_first.
  set (L := map (sq_distance x) W).
  assert (HL : length L = length W) by apply length_map.
  assert (Hnth : forall j, (j < length W)%nat ->
                           nth j L NaN = sq_distance x (nth j W [])).
  { intros j Hj. unfold L. now rewrite (map_nth_in _ _ [] NaN). }
  destruct (argmin_row_spec L) as (Hr & Hmin & Hfirst).
  - destruct W; [congruence | discriminate].
  - intros j Hj. rewrite Hnth by lia. apply Hnan. apply nth_In. lia.
  - rewrite HL in *. split; [exact Hr|]. split.
    + intros j Hj. unfold Fle. rewrite <- !Hnth by assumption. now apply Hmin.
    + intros j Hj. unfold Fle. rewrite <- !Hnth by lia.
      rewrite Hfirst by assumption. discriminate.
Qed.

(** C2 (as amended).  For a codebook [W] with at least one neuron, a
    data matrix [X] with the same number of features, and no squared
    distance that is not a number, [calc_BMUs] returns one index per
    sample; the index of sample [i] is a neuron at least as near to
    [X[i]] as every neuron [j], and every neuron before it is strictly
    farther (the lowest index among ties). *)
Theorem calc_BMUs_nearest :
  forall (s : SOM) (X W : matrix) (f : nat) (out : list string),
    wts s = Some W -> W <> [] ->
    rows_of_length f X -> rows_of_length f W ->
    (forall x w, In x X -> In w W -> Fis_nan (sq_distance x w) = false) ->
    exists b,
      calc_BMUs X s out = (inr b, s, out) /\
      length b = length X /\
      forall i, (i < length X)%nat ->
                nearest_first W (nth i X []) (nth i b 0%nat).
Proof.
  intros s X W f out Hw Hne HX HW Hnan.
  exists (map (bmu_of W) X).
  split; [now apply (calc_BMUs_spec s X W f)|].
  split; [apply length_map|].
  intros i Hi. rewrite (map_nth_in _ _ [] 0%nat) by assumption.
  apply bmu_of_nearest; [exact Hne|].
  intros w Hin. apply Hnan; [apply nth_In; exact Hi | exact Hin].
Qed.

Lemma calc_BMUs_nearest_witness :
  exists b,
    calc_BMUs three_samples (som_1x2 "gaussian" 10 two_neurons) [] =
      (inr b, som_1x2 "gaussian" 10 two_neurons, []) /\
    length b = 3%nat /\
    nearest_first two_neurons [Fin 5; Fin 5] (nth 2 b 0%nat).
Proof.
  destruct (calc_BMUs_nearest (som_1x2 "gaussian" 10 two_neurons)
              three_samples two_neurons 2 [])
    as (b & Hb & Hl & Hn).
  - reflexivity.
  - discriminate.
  - repeat constructor.
  - repeat constructor.
  - intros x w Hx Hw. simpl in Hx, Hw.
    destruct Hx as [<-|[<-|[<-|[]]]]; destruct Hw as [<-|[<-|[]]];
      reflexivity.
  - exists b. split; [exact Hb|]. split; [exact Hl|].
    apply (Hn 2%nat). simpl. lia.
Defined.

(* ================================================================= *)
(** ** Sums along the sample axis *)

Lemma nth_repeat_in {A} (a d : A) (k j : nat) :
  (j < k)%nat -> nth j (repeat a k) d = a.
Proof.
  revert j; induction k as [|k IH]; intros [|j] H; simpl; try lia; auto.
  apply IH; lia.
Qed.

Lemma map2_map_r {A B B' C} (f : A -> B -> C) (g : B' -> B)
      (l1 : list A) (l2 : list B') :
  map2 f l1 (map g l2) = map2 (fun a b => f a (g b)) l1 l2.
Proof.
  revert l2; induction l1 as [|a l1 IH]; intros [|b l2]; simpl; auto.
  now rewrite IH.
Qed.

Lemma map2_combine {A B C} (f : A -> B -> C) (l1 : list A) (l2 : list B) :
  map2 f l1 l2 = map (fun p => f (fst p) (snd p)) (combine l1 l2).
Proof.
  revert l2; induction l1 as [|a l1 IH]; intros [|b l2]; simpl; auto.
  now rewrite IH.
Qed.

Lemma vsum_length (k : nat) (rows : matrix) :
  rows_of_length k rows -> length (sum_axis0 vadd (vzeros k) rows) = k.
Proof.
  induction 1 as [|r rows Hr _ IH]; simpl.
  - apply repeat_length.
  - unfold vadd at 1. rewrite map2_length, IH, Hr. lia.
Qed.

Lemma vsum_nth (k j : nat) (rows : matrix) :
  rows_of_length k rows -> (j < k)%nat ->
  nth j (sum_axis0 vadd (vzeros k) rows) NaN
  = Fsum (map (fun r => nth j r NaN) rows).
Proof.
  intros H Hj. induction H as [|r rows Hr Hrows IH]; simpl.
  - now apply nth_repeat_in.
  - unfold vadd at 1.
    rewrite (map2_nth _ _ _ NaN NaN NaN)
      by (rewrite ?vsum_length by assumption; lia).
    now rewrite IH.
Qed.

Lemma msum_length (k f : nat) (stack : list matrix) :
  Forall (fun T => length T = k) stack ->
  length (sum_axis0 madd (mzeros k f) stack) = k.
Proof.
  induction 1 as [|T stack HT _ IH]; simpl.
  - apply repeat_length.
  - unfold madd at 1. rewrite map2_length, IH, HT. lia.
Qed.

Lemma msum_row (k f j : nat) (stack : list matrix) :
  Forall (fun T => length T = k) stack -> (j < k)%nat ->
  nth j (sum_axis0 madd (mzeros k f) stack) []
  = sum_axis0 vadd (vzeros f) (map (fun T => nth j T []) stack).
Proof.
  intros H Hj. induction H as [|T stack HT Hs IH]; simpl.
  - now apply nth_repeat_in.
  - unfold madd at 1.
    rewrite (map2_nth _ _ _ [] [] [])
      by (rewrite ?msum_length by assumption; lia).
    now rewrite IH.
Qed.

Lemma weighted_rows_length (x kb : list F) :
  length (weighted_rows x kb) = length kb.
Proof. unfold weighted_rows. apply length_map. Qed.

Lemma weighted_rows_row (x kb : list F) (j : nat) :
  (j < length kb)%nat ->
  nth j (weighted_rows x kb) [] = map (fun xf => Fmul xf (nth j kb NaN)) x.
Proof.
  intros Hj. unfold weighted_rows.
  now rewrite (map_nth_in _ _ NaN []).
Qed.

(* ================================================================= *)
(** ** Bounds on [argmin] *)

Lemma argmin_from_bound (l : list F) (best : F) (bi i : nat) :
  (bi < i)%nat -> (argmin_from best bi i l < i + length l)%nat.
Proof.
  revert best bi i; induction l as [|v l IH]; intros best bi i H; simpl.
  - lia.
  - destruct (Fgeb v best).
    + specialize (IH best bi (S i)). lia.
    + destruct (Fis_nan v); [lia|].
      specialize (IH v i (S i)). lia.
Qed.

Lemma argmin_row_bound (l : list F) :
  l <> [] -> (argmin_row l < length l)%nat.
Proof.
  destruct l as [|v l]; [congruence|]. intros _. simpl.
  destruct (Fis_nan v); [lia|].
  pose proof (argmin_from_bound l v 0 1). lia.
Qed.

Lemma bmu_of_bound (W : matrix) (x : list F) :
  W <> [] -> (bmu_of W x < length W)%nat.
Proof.
  intros H. unfold bmu_of.
  rewrite <- (length_map (sq_distance x) W).
  apply argmin_row_bound. destruct W; [congruence|discriminate].
Qed.

Lemma take_spec {A} (a : list A) (idx : list nat) (d : A) :
  Forall (fun i => (i < length a)%nat) idx ->
  take a idx = inr (map (fun i => nth i a d) idx).
Proof.
  intros H. unfold take. apply res_mapM_inr.
  intros i Hi. rewrite Forall_forall in H. specialize (H i Hi).
  destruct (nth_error a i) eqn:E.
  - now rewrite (nth_error_nth _ _ d E).
  - apply nth_error_None in E. lia.
Qed.

(* ================================================================= *)
(** ** The weight update *)

Section Update.
Variables (Ke X : matrix) (b : list nat) (k f : nat).
Hypothesis HX : rows_of_length f X.
Hypothesis Hbk : Forall (fun bn => (bn < length Ke)%nat) b.
Hypothesis HKe : rows_of_length k Ke.

Let Kb : matrix := map (fun bn => nth bn Ke []) b.
Let stack : list matrix := map2 weighted_rows X Kb.

Lemma Kb_rows : rows_of_length k Kb.
Proof.
  unfold Kb, rows_of_length in *. apply Forall_map.
  rewrite Forall_forall in *. intros bn Hbn.
  apply HKe. apply nth_In. now apply Hbk.
Qed.

Lemma stack_eq :
  stack = map (fun xb => weighted_rows (fst xb) (nth (snd xb) Ke []))
              (combine X b).
Proof.
  unfold stack, Kb. now rewrite map2_map_r, map2_combine.
Qed.

Lemma stack_lengths : Forall (fun T => length T = k) stack.
Proof.
  rewrite stack_eq. apply Forall_map. rewrite Forall_forall.
  intros [x bn] Hin. simpl. rewrite weighted_rows_length.
  apply in_combine_r in Hin.
  unfold rows_of_length in HKe. rewrite Forall_forall in HKe, Hbk.
  apply HKe. apply nth_In. now apply Hbk.
Qed.

Lemma stack_rows (j : nat) :
  (j < k)%nat -> rows_of_length f (map (fun T => nth j T []) stack).
Proof.
  intros Hj. rewrite stack_eq, map_map.
  unfold rows_of_length in *. apply Forall_map. rewrite Forall_forall.
  intros [x bn] Hin. simpl.
  pose proof (in_combine_l _ _ _ _ Hin) as Hx.
  pose proof (in_combine_r _ _ _ _ Hin) as Hbn.
  rewrite Forall_forall in HX, HKe, Hbk.
  rewrite weighted_rows_row, length_map; [now apply HX|].
  rewrite (HKe (nth bn Ke [])); [exact Hj|].
  apply nth_In. now apply Hbk.
Qed.

Lemma numerator_length : length (numerator k f X Kb) = k.
Proof. apply msum_length. exact stack_lengths. Qed.

Lemma numerator_row_length (j : nat) :
  (j < k)%nat -> length (nth j (numerator k f X Kb) []) = f.
Proof.
  intros Hj. unfold numerator.
  rewrite msum_row by (exact stack_lengths || exact Hj).
  apply vsum_length. now apply stack_rows.
Qed.

Lemma numerator_entry (j c : nat) :
  (j < k)%nat -> (c < f)%nat ->
  nth c (nth j (numerator k f X Kb) []) NaN = centroid_num Ke X b j c.
Proof.
  intros Hj Hc. unfold numerator.
  rewrite msum_row by (exact stack_lengths || exact Hj).
  rewrite vsum_nth by (try apply stack_rows; assumption).
  unfold centroid_num. f_equal.
  fold stack. rewrite stack_eq, !map_map.
  apply map_ext_in. intros [x bn] Hin. simpl.
  pose proof (in_combine_l _ _ _ _ Hin) as Hx.
  pose proof (in_combine_r _ _ _ _ Hin) as Hbn.
  unfold rows_of_length in *. rewrite Forall_forall in HX, HKe, Hbk.
  assert (Hrow : length (nth bn Ke []) = k)
    by (apply HKe, nth_In; now apply Hbk).
  rewrite weighted_rows_row by (rewrite Hrow; exact Hj).
  rewrite (map_nth_in _ _ NaN NaN) by (rewrite (HX x Hx); exact Hc).
  reflexivity.
Qed.

Lemma denominator_length : length (denominator k Kb) = k.
Proof. apply vsum_length. exact Kb_rows. Qed.

Lemma denominator_entry (j : nat) :
  (j < k)%nat -> nth j (denominator k Kb) NaN = centroid_den Ke b j.
Proof.
  intros Hj. unfold denominator.
  rewrite vsum_nth by (exact Kb_rows || exact Hj).
  unfold centroid_den, Kb. now rewrite map_map.
Qed.

Lemma update_weights_length : length (update_weights k f X Kb) = k.
Proof.
  unfold update_weights.
  rewrite map2_length, numerator_length, denominator_length. lia.
Qed.

Lemma update_weights_row (j : nat) :
  (j < k)%nat ->
  nth j (update_weights k f X Kb) []
  = map (fun v => Fdiv v (centroid_den Ke b j))
        (nth j (numerator k f X Kb) []).
Proof.
  intros Hj. unfold update_weights.
  rewrite (map2_nth _ _ _ [] NaN [])
    by (rewrite ?numerator_length, ?denominator_length; exact Hj).
  now rewrite denominator_entry.
Qed.

Lemma update_weights_rows : rows_of_length f (update_weights k f X Kb).
Proof.
  unfold rows_of_length. rewrite Forall_forall. intros r Hr.
  destruct (In_nth _ _ [] Hr) as (j & Hj & <-).
  rewrite update_weights_length in Hj.
  rewrite update_weights_row, length_map by exact Hj.
  now apply numerator_row_length.
Qed.

Lemma update_weights_entry (j c : nat) :
  (j < k)%nat -> (c < f)%nat ->
  nth c (nth j (update_weights k f X Kb) []) NaN
  = Fdiv (centroid_num Ke X b j c) (centroid_den Ke b j).
Proof.
  intros Hj Hc. rewrite update_weights_row by exact Hj.
  rewrite (map_nth_in _ _ NaN NaN)
    by (rewrite numerator_row_length; assumption).
  now rewrite numerator_entry.
Qed.
End Update.

(* ================================================================= *)
(** ** Zero denominators *)

Lemma kernel_value_ok_cases (v : F) :
  kernel_value_ok v <->
  v = NaN \/ v = PInf \/ exists a, v = Fin a /\ (0 <= a)%R.
Proof.
  unfold kernel_value_ok, Fle. split.
  - intros [H|H]; destruct v; simpl in H; try discriminate; auto.
    right; right. exists r. split; [reflexivity|].
    destruct (Rle_dec 0 r); [assumption|discriminate].
  - intros [->|[->|(a & -> & Ha)]]; simpl; auto.
    right. destruct (Rle_dec 0 a); [reflexivity|contradiction].
Qed.

Lemma Fadd_ok (u v : F) :
  kernel_value_ok u -> kernel_value_ok v -> kernel_value_ok (Fadd u v).
Proof.
  rewrite !kernel_value_ok_cases.
  intros [->|[->|(a & -> & Ha)]] [->|[->|(c & -> & Hc)]]; simpl; auto.
  right; right. exists (a + c)%R. split; [reflexivity|lra].
Qed.

Lemma Fsum_ok (l : list F) :
  Forall kernel_value_ok l -> kernel_value_ok (Fsum l).
Proof.
  induction 1 as [|v l Hv _ IH]; simpl.
  - apply kernel_value_ok_cases. right; right. exists 0%R. split; auto; lra.
  - now apply Fadd_ok.
Qed.

(** A sum of kernel weights is zero only if every weight is zero. *)
Lemma Fsum_zero (l : list F) :
  Forall kernel_value_ok l -> Fsum l = Fin 0 -> Forall (eq (Fin 0)) l.
Proof.
  induction 1 as [|v l Hv Hl IH]; simpl; intros Hs; [constructor|].
  pose proof (Fsum_ok l Hl) as Hrest.
  apply kernel_value_ok_cases in Hv, Hrest.
  destruct Hv as [->|[->|(a & -> & Ha)]];
    destruct Hrest as [E|[E|(c & E & Hc)]]; rewrite E in Hs;
    simpl in Hs; try discriminate.
  injection Hs as Hs.
  assert (a = 0%R) by lra. assert (c = 0%R) by lra. subst a c.
  constructor; [reflexivity | now apply IH].
Qed.

Lemma Fmul_zero_r (x : F) : zero_or_nan (Fmul x (Fin 0)).
Proof.
  destruct x; simpl.
  - right. f_equal. ring.
  - left. now rewrite Rsign_zero.
  - left. now rewrite Rsign_zero.
  - now left.
Qed.

Lemma Fsum_zero_or_nan (l : list F) :
  Forall zero_or_nan l -> zero_or_nan (Fsum l).
Proof.
  induction 1 as [|v l Hv _ IH]; simpl; [now right|].
  destruct Hv as [->| ->]; [now left|].
  destruct IH as [->| ->]; [now left|].
  right. simpl. f_equal. lra.
Qed.

Lemma Fdiv_zero_or_nan (v : F) : zero_or_nan v -> Fdiv v (Fin 0) = NaN.
Proof.
  intros [->| ->]; [reflexivity | apply Fdiv_zero_zero].
Qed.

(** A neuron whose denominator is zero gets [nan] in every feature. *)
Lemma centroid_zero_denominator (Ke X : matrix) (b : list nat) (j c : nat) :
  Forall (fun bn => kernel_value_ok (nth j (nth bn Ke []) NaN)) b ->
  centroid_den Ke b j = Fin 0 ->
  Fdiv (centroid_num Ke X b j c) (centroid_den Ke b j) = NaN.
Proof.
  intros Hok Hden. rewrite Hden. apply Fdiv_zero_or_nan.
  unfold centroid_num. apply Fsum_zero_or_nan.
  apply Forall_map. rewrite Forall_forall. intros [x bn] Hin. simpl.
  assert (Hz : Forall (eq (Fin 0)) (map (fun bn => nth j (nth bn Ke []) NaN) b)).
  { apply Fsum_zero; [now apply Forall_map | exact Hden]. }
  rewrite Forall_map, Forall_forall in Hz.
  rewrite <- (Hz bn) by (eapply in_combine_r; eassumption).
  apply Fmul_zero_r.
Qed.

(** Every neighbourhood function yields a weight that is not-a-number or
    non-negative, at every radius and distance. *)
Lemma Fclip_ok (x : F) : kernel_value_ok (Fclip x (Fin 0) (Fin 1)).
Proof.
  apply kernel_value_ok_cases.
  destruct x as [r| | |].
  - rewrite Fclip_fin. right; right. eexists; split; [reflexivity|].
    unfold Rmin, Rbasic_fun.Rmax.
    destruct (Rle_dec r 0);
      match goal with |- context [Rle_dec ?a 1] => destruct (Rle_dec a 1) end;
      lra.
  - right; right. exists 1%R. split; [reflexivity|lra].
  - right; right. exists 0%R. split; [|lra].
    unfold Fclip, Fmaximum, Fminimum. simpl.
    destruct (Rle_dec 0 1); [reflexivity|lra].
  - now left.
Qed.

Lemma Fexp_ok (x : F) : kernel_value_ok (Fexp x).
Proof.
  apply kernel_value_ok_cases. destruct x as [r| | |]; simpl; auto.
  - unfold np_exp. destruct (Rle_dec (exp r) (/ 2 ^ 1075)).
    + right; right. exists 0%R. split; [reflexivity|lra].
    + destruct (Rle_dec (2 ^ 1024) (exp r)); [now right; left|].
      right; right. exists (exp r). split; [reflexivity|].
      left. apply exp_pos.
  - right; right. exists 0%R. split; [reflexivity|lra].
Qed.

Lemma kernel_values_ok (name : string) (h : R -> Z -> F) (sg : R) (d : Z) :
  kernel_of name = Some h -> kernel_value_ok (h sg d).
Proof.
  unfold kernel_of. intros H.
  repeat match type of H with
         | (if ?c then _ else _) = _ => destruct c
         end; try discriminate; injection H as <-.
  - unfold bubble. apply kernel_value_ok_cases. right; right.
    destruct (Fleb _ _); eexists; (split; [reflexivity|lra]).
  - apply Fclip_ok.
  - apply Fexp_ok.
  - apply Fexp_ok.
Qed.

(* ================================================================= *)
(** ** One training epoch *)

Lemma n_columns_rows {A} (k : nat) (a : list (list A)) :
  a <> [] -> rows_of_length k a -> n_columns a = k.
Proof.
  destruct a as [|r a]; [congruence|]. intros _ H.
  inversion H; subst. reflexivity.
Qed.

Lemma epoch_spec (s : SOM) (X W Ke : matrix) (K : list matrix)
      (i k f : nat) (out : list string) :
  wts s = Some W -> length W = k -> (0 < k)%nat -> rows_of_length f W ->
  X <> [] -> rows_of_length f X ->
  kernels s = Some K -> nth_error K i = Some Ke ->
  length Ke = k -> rows_of_length k Ke ->
  epoch X i s out =
  (inr tt,
   set_wts (Some (update_weights k f X
                    (map (fun bn => nth bn Ke []) (map (bmu_of W) X)))) s,
   out).
Proof.
  intros Hw Hk Hpos HW HXne HX HK Hi HlKe HKe.
  assert (HWne : W <> []) by (destruct W; [simpl in Hk; lia | discriminate]).
  assert (HKne : Ke <> []) by (destruct Ke; [simpl in HlKe; lia | discriminate]).
  unfold epoch, bind.
  rewrite (calc_BMUs_spec s X W f out Hw HWne HX HW).
  unfold attr, lift, modify. rewrite HK, Hi.
  rewrite (take_spec Ke (map (bmu_of W) X) []).
  - rewrite (n_columns_rows k Ke HKne HKe), (n_columns_rows f X HXne HX).
    reflexivity.
  - apply Forall_map. rewrite Forall_forall. intros x _.
    rewrite HlKe, <- Hk. now apply bmu_of_bound.
Qed.

Lemma kernel_tensor_nth_error (h : R -> Z -> F) (sigs : list R)
      (d2 : list (list Z)) (i : nat) :
  (i < length sigs)%nat ->
  nth_error (kernel_tensor h sigs d2) i
  = Some (map (map (h (nth i sigs 0%R))) d2).
Proof.
  intros Hi. unfold kernel_tensor.
  rewrite (nth_error_nth' _ []) by (rewrite length_map; exact Hi).
  now rewrite (map_nth_in _ _ 0%R []).
Qed.

Lemma kernel_matrix_rows (h : Z -> F) (d2 : list (list Z)) (k : nat) :
  rows_of_length k d2 -> rows_of_length k (map (map h) d2).
Proof.
  unfold rows_of_length. intros H. apply Forall_map.
  eapply Forall_impl; [|exact H]. intros r Hr. simpl.
  now rewrite length_map.
Qed.

Lemma kernel_matrix_ok (name : string) (h : R -> Z -> F) (sg : R)
      (d2 : list (list Z)) (k bn j : nat) :
  kernel_of name = Some h -> rows_of_length k d2 ->
  (bn < length d2)%nat -> (j < k)%nat ->
  kernel_value_ok (nth j (nth bn (map (map (h sg)) d2) []) NaN).
Proof.
  intros Hk Hr Hbn Hj.
  rewrite (map_nth_in _ _ [] []) by exact Hbn.
  unfold rows_of_length in Hr. rewrite Forall_forall in Hr.
  rewrite (map_nth_in _ _ 0%Z NaN)
    by (rewrite (Hr (nth bn d2 [])); [exact Hj | now apply nth_In]).
  now apply (kernel_values_ok name).
Qed.

(** C1.  In a training epoch [i] of [fit] -- the object holds a codebook
    [W] of [k] neurons with [f] features and the kernel tensor that
    [make_kernels] built for its neighbourhood family, [X] is a non-empty
    sample matrix with [f] features -- the loop body returns and stores a
    codebook [W'] of the same shape in which, for every neuron [j] and
    feature [c], [W'[j,c]] is the numerator [sum_n X[n,c] * K[i][b[n], j]]
    divided by the denominator [sum_n K[i][b[n], j]], where [b] are the
    best-matching units of [X] in [W]; and when that denominator is zero,
    [W'[j,c]] is not-a-number. *)
Theorem epoch_weighted_centroid :
  forall (s : SOM) (X W : matrix) (h : R -> Z -> F) (sigs : list R)
         (i k f : nat) (out : list string),
    wts s = Some W -> length W = k -> (0 < k)%nat -> rows_of_length f W ->
    X <> [] -> rows_of_length f X ->
    kernel_of (neighbourhood s) = Some h ->
    kernels s = Some (kernel_tensor h sigs (d2mat s)) ->
    (i < length sigs)%nat ->
    length (d2mat s) = k -> rows_of_length k (d2mat s) ->
    exists W' Ke,
      nth_error (kernel_tensor h sigs (d2mat s)) i = Some Ke /\
      epoch X i s out = (inr tt, set_wts (Some W') s, out) /\
      length W' = k /\ rows_of_length f W' /\
      forall j c, (j < k)%nat -> (c < f)%nat ->
        nth c (nth j W' []) NaN
        = Fdiv (centroid_num Ke X (map (bmu_of W) X) j c)
               (centroid_den Ke (map (bmu_of W) X) j) /\
        (centroid_den Ke (map (bmu_of W) X) j = Fin 0 ->
         nth c (nth j W' []) NaN = NaN).
Proof.
  intros s X W h sigs i k f out Hw Hk Hpos HW HXne HX Hfam HK Hi Hd2 Hd2r.
  set (Ke := map (map (h (nth i sigs 0%R))) (d2mat s)).
  set (b := map (bmu_of W) X).
  assert (HWne : W <> []) by (destruct W; [simpl in Hk; lia | discriminate]).
  assert (HlKe : length Ke = k) by (unfold Ke; now rewrite length_map).
  assert (HKe : rows_of_length k Ke) by now apply kernel_matrix_rows.
  assert (Hbk : Forall (fun bn => (bn < length Ke)%nat) b).
  { apply Forall_map. rewrite Forall_forall. intros x _.
    rewrite HlKe, <- Hk. now apply bmu_of_bound. }
  exists (update_weights k f X (map (fun bn => nth bn Ke []) b)), Ke.
  split; [now apply kernel_tensor_nth_error|].
  split.
  { apply (epoch_spec s X W Ke (kernel_tensor h sigs (d2mat s)));
      auto using kernel_tensor_nth_error. }
  split; [now apply update_weights_length|].
  split; [now apply update_weights_rows|].
  intros j c Hj Hc.
  rewrite (update_weights_entry Ke X b k f HX Hbk HKe j c Hj Hc).
  split; [reflexivity|].
  apply centroid_zero_denominator.
  rewrite Forall_forall. intros bn Hbn.
  rewrite Forall_forall in Hbk. specialize (Hbk bn Hbn).
  apply (kernel_matrix_ok (neighbourhood s) h _ (d2mat s) k); auto.
  rewrite HlKe in Hbk. now rewrite Hd2.
Qed.

(* ================================================================= *)
(** ** A whole [fit] *)

Lemma set_wts_same (s : SOM) (W : matrix) :
  wts s = Some W -> set_wts (Some W) s = s.
Proof. destruct s; simpl; intros ->; reflexivity. Qed.

Lemma next_codebook_shape (Ke X W : matrix) (k f : nat) :
  length W = k -> (0 < k)%nat -> X <> [] -> rows_of_length f X ->
  length Ke = k -> rows_of_length k Ke ->
  length (next_codebook Ke X W) = k /\
  rows_of_length f (next_codebook Ke X W).
Proof.
  intros Hk Hpos HXne HX HlKe HKe. unfold next_codebook.
  assert (HWne : W <> []) by (destruct W; [simpl in Hk; lia | discriminate]).
  rewrite Hk, (n_columns_rows f X HXne HX).
  assert (Hbk : Forall (fun bn => (bn < length Ke)%nat) (map (bmu_of W) X)).
  { apply Forall_map. rewrite Forall_forall. intros x _.
    rewrite HlKe, <- Hk. now apply bmu_of_bound. }
  split; [now apply update_weights_length | now apply update_weights_rows].
Qed.

Section Training.
Variables (X : matrix) (K : list matrix) (k f : nat).
Hypothesis Hpos : (0 < k)%nat.
Hypothesis HXne : X <> [].
Hypothesis HX : rows_of_length f X.
Hypothesis HK : kernel_shape k K.

Lemma kernel_shape_nth (i : nat) :
  (i < length K)%nat ->
  length (nth i K []) = k /\ rows_of_length k (nth i K []).
Proof.
  intros Hi. unfold kernel_shape in HK. rewrite Forall_forall in HK.
  apply HK. now apply nth_In.
Qed.

Lemma train_codebook_shape (n i : nat) (W : matrix) :
  (i + n <= length K)%nat -> length W = k -> rows_of_length f W ->
  length (train_codebook K X n i W) = k /\
  rows_of_length f (train_codebook K X n i W).
Proof.
  revert i W; induction n as [|n IH]; intros i W Hin Hk HW; simpl; auto.
  destruct (kernel_shape_nth i) as [H1 H2]; [lia|].
  destruct (next_codebook_shape (nth i K []) X W k f) as [H3 H4]; auto.
  apply IH; auto. lia.
Qed.

(** The training loop runs to its end and leaves the codebook that the
    updates compute one after the other. *)
Lemma training_loop (n i : nat) (s : SOM) (W : matrix) (out : list string) :
  (i + n <= length K)%nat ->
  wts s = Some W -> length W = k -> rows_of_length f W ->
  kernels s = Some K ->
  for_range n i (epoch X) s out
  = (inr tt, set_wts (Some (train_codebook K X n i W)) s, out).
Proof.
  revert i s W; induction n as [|n IH]; intros i s W Hin Hw Hk HW HKs; simpl.
  - unfold ret. now rewrite set_wts_same.
  - destruct (kernel_shape_nth i) as [H1 H2]; [lia|].
    unfold bind.
    rewrite (epoch_spec s X W (nth i K []) K i k f out); auto.
    2:{ apply nth_error_nth'. lia. }
    destruct (next_codebook_shape (nth i K []) X W k f) as [H3 H4]; auto.
    rewrite (IH (S i) _ (next_codebook (nth i K []) X W)); auto; try lia.
    unfold next_codebook.
    rewrite Hk, (n_columns_rows f X HXne HX). reflexivity.
Qed.
End Training.

Lemma feature_distances_spec (W : matrix) (f : nat) :
  rows_of_length f W -> feature_distances W = inr (final_dmat W).
Proof.
  intros HW. unfold feature_distances, final_dmat.
  apply res_mapM_inr. intros wa Ha.
  apply res_mapM_inr. intros wb Hb.
  unfold rows_of_length in HW. rewrite Forall_forall in HW.
  rewrite sqdist_same_length by now rewrite (HW wa Ha), (HW wb Hb).
  reflexivity.
Qed.

Lemma inertia_of_spec (X W : matrix) (f : nat) :
  W <> [] -> rows_of_length f X -> rows_of_length f W ->
  inertia_of X W (map (bmu_of W) X) = inr (final_inertia X W).
Proof.
  intros HWne HX HW. unfold inertia_of, final_inertia.
  rewrite (take_spec W (map (bmu_of W) X) []).
  2:{ apply Forall_map. rewrite Forall_forall. intros x _.
      now apply bmu_of_bound. }
  unfold res_bind at 1. rewrite !length_map, Nat.eqb_refl.
  rewrite map_map.
  rewrite (res_mapM_inr _ (fun xw => sq_distance (fst xw) (snd xw))).
  - simpl. do 2 f_equal.
    rewrite <- map2_combine, map2_map_r.
    clear. induction X as [|x X IH]; simpl; [reflexivity|]. now rewrite IH.
  - intros [x w] Hin. simpl. apply sqdist_same_length.
    pose proof (in_combine_l _ _ _ _ Hin) as Hx.
    pose proof (in_combine_r _ _ _ _ Hin) as Hw0.
    apply in_map_iff in Hw0. destruct Hw0 as (x' & <- & _).
    unfold rows_of_length in *. rewrite Forall_forall in HX, HW.
    rewrite (HX x Hx). symmetry. apply HW. apply nth_In.
    now apply bmu_of_bound.
Qed.

Lemma kernel_tensor_shape (h : R -> Z -> F) (sigs : list R)
      (d2 : list (list Z)) (k : nat) :
  length d2 = k -> rows_of_length k d2 ->
  kernel_shape k (kernel_tensor h sigs d2).
Proof.
  intros Hl Hr. unfold kernel_shape, kernel_tensor.
  apply Forall_map. rewrite Forall_forall. intros sg _.
  split; [now rewrite length_map | now apply kernel_matrix_rows].
Qed.

Lemma bind_inr {St A B} {m : M St A} {k : A -> M St B} {s s' : St}
      {out out' : list string} {a : A} :
  m s out = (inr a, s', out') -> bind m k s out = k a s' out'.
Proof. unfold bind. intros ->. reflexivity. Qed.

(** [train] on well-shaped arrays: it returns, prints nothing, and
    leaves the object [fitted] with the kernel tensor of the family and
    the codebook after [n_epochs] updates. *)
Lemma train_spec (s : SOM) (X W0 : matrix) (h : R -> Z -> F)
      (sigs : list R) (k f : nat) (out : list string) :
  kernel_of (neighbourhood s) = Some h ->
  sigs_of s = inr sigs ->
  length (d2mat s) = k -> rows_of_length k (d2mat s) -> (0 < k)%nat ->
  X <> [] -> rows_of_length f X ->
  wts s = Some W0 -> length W0 = k -> rows_of_length f W0 ->
  let K := kernel_tensor h sigs (d2mat s) in
  let Wn := train_codebook K X (Z.to_nat (n_epochs s)) 0 W0 in
  train X s out = (inr tt, fitted s K X Wn, out).
Proof.
  intros Hfam Hs Hd2 Hd2r Hpos HXne HX Hw Hk HW K Wn.
  assert (Hls : length sigs = Z.to_nat (n_epochs s))
    by exact (linspace_length _ _ _ sigs Hs).
  assert (HK : kernel_shape k K) by now apply kernel_tensor_shape.
  assert (HlK : length K = Z.to_nat (n_epochs s))
    by (unfold K, kernel_tensor; now rewrite length_map).
  destruct (train_codebook_shape X K k f Hpos HXne HX HK
              (Z.to_nat (n_epochs s)) 0 W0) as [HWn1 HWn2]; auto; try lia.
  fold Wn in HWn1, HWn2.
  assert (HWne : Wn <> [])
    by (destruct Wn; [simpl in HWn1; lia | discriminate]).
  set (s1 := set_kernels (Some K) s).
  set (s2 := set_wts (Some Wn) s1).
  set (b := map (bmu_of Wn) X).
  assert (E1 : make_kernels s out = (inr tt, s1, out))
    by (rewrite make_kernels_spec, Hs, Hfam; reflexivity).
  assert (E2 : for_range (Z.to_nat (n_epochs s1)) 0 (epoch X) s1 out
               = (inr tt, s2, out)).
  { apply (training_loop X K k f Hpos HXne HX HK); auto.
    simpl. lia. }
  assert (E3 : calc_BMUs X s2 out = (inr b, s2, out))
    by (apply (calc_BMUs_spec s2 X Wn f out); auto).
  assert (E4 : lift (feature_distances Wn) (set_bmus (Some b) s2) out
               = (inr (final_dmat Wn), set_bmus (Some b) s2, out))
    by (unfold lift; now rewrite (feature_distances_spec Wn f HWn2)).
  assert (E5 : lift (inertia_of X Wn b)
                 (set_dmat (Some (final_dmat Wn)) (set_bmus (Some b) s2)) out
               = (inr (final_inertia X Wn),
                  set_dmat (Some (final_dmat Wn)) (set_bmus (Some b) s2),
                  out))
    by (unfold lift, b; now rewrite (inertia_of_spec X Wn f HWne HX HWn2)).
  unfold train.
  rewrite (bind_inr E1).
  erewrite bind_inr by reflexivity.
  rewrite (bind_inr E2), (bind_inr E3).
  erewrite bind_inr by reflexivity.
  erewrite bind_inr by reflexivity.
  rewrite (bind_inr E4).
  erewrite bind_inr by reflexivity.
  rewrite (bind_inr E5).
  reflexivity.
Qed.

Lemma moderate_finite (X : matrix) :
  Forall (Forall moderate) X -> forallb (forallb Fis_finite) X = true.
Proof.
  intros H. apply forallb_forall. intros x Hx.
  rewrite Forall_forall in H. specialize (H x Hx).
  apply forallb_forall. intros v Hv.
  rewrite Forall_forall in H. destruct (H v Hv) as (r & -> & _).
  reflexivity.
Qed.

Lemma moderate_small (r : R) : (-1024 <= r <= 1024)%R -> moderate (Fin r).
Proof.
  intros H. exists r. split; [reflexivity|].
  assert (H10 : (2 ^ 10 <= 2 ^ 500)%R) by (apply Rle_pow; [lra | lia]).
  assert (E : (2 ^ 10 = 1024)%R) by (simpl; lra).
  unfold Rabs. destruct (Rcase_abs r); lra.
Qed.

(** When the initialiser returns, [fit] is the training of the codebook
    that the initialiser made. *)
Lemma fit_enters_train (s : SOM) (X W0 : matrix) (out : list string) :
  initialises s X ->
  fit X W0 s out = train X (set_wts (Some W0) s) out.
Proof.
  intros [[Hi Hk] | (Hi & Hr & Hc & Hf & _ & Hm)];
    unfold fit; (erewrite bind_inr by reflexivity); rewrite Hi;
    cbn [String.eqb Ascii.eqb Bool.eqb].
  - assert (E : random_weights W0 s out
                = (inr tt, set_wts (Some W0) s, out)).
    { unfold random_weights, bind, get.
      assert (En : (n_rows s * n_cols s <? 0)%Z = false)
        by (apply Z.ltb_ge; exact Hk).
      now rewrite En. }
    now rewrite (bind_inr E).
  - assert (E : pca_weights X W0 s out
                = (inr tt, set_wts (Some W0) s, out)).
    { unfold pca_weights, bind, get. cbv zeta.
      rewrite (moderate_finite X Hm).
      assert (E1 : (n_rows s <? 0)%Z = false) by (apply Z.ltb_ge; lia).
      assert (E2 : (n_cols s <? 0)%Z = false) by (apply Z.ltb_ge; lia).
      assert (E3 : (n_columns X <? 2)%nat = false)
        by (apply Nat.ltb_ge; exact Hf).
      assert (E4 : (n_rows s * n_cols s =? 0)%Z = false)
        by (apply Z.eqb_neq; nia).
      rewrite E1, E2, E3, E4.
      rewrite Bool.andb_false_r. reflexivity. }
    now rewrite (bind_inr E).
Qed.

(** [fit] on well-shaped arrays, when the initialiser returns, for a
    recognised neighbourhood. *)
Lemma fit_spec (s : SOM) (X W0 : matrix) (h : R -> Z -> F)
      (sigs : list R) (k f : nat) (out : list string) :
  initialises s X ->
  kernel_of (neighbourhood s) = Some h ->
  sigs_of s = inr sigs ->
  length (d2mat s) = k -> rows_of_length k (d2mat s) -> (0 < k)%nat ->
  X <> [] -> rows_of_length f X ->
  length W0 = k -> rows_of_length f W0 ->
  let K := kernel_tensor h sigs (d2mat s) in
  let Wn := train_codebook K X (Z.to_nat (n_epochs s)) 0 W0 in
  fit X W0 s out = (inr tt, fitted (set_wts (Some W0) s) K X Wn, out).
Proof.
  intros Hini Hfam Hs Hd2 Hd2r Hpos HXne HX Hk HW K Wn.
  pose proof (train_spec (set_wts (Some W0) s) X W0 h sigs k f out
                Hfam Hs Hd2 Hd2r Hpos HXne HX eq_refl Hk HW) as Ht.
  cbv zeta in Ht. simpl d2mat in Ht. simpl n_epochs in Ht.
  rewrite (fit_enters_train s X W0 out Hini). exact Ht.
Qed.

Lemma make_d2mat_rows (r c : Z) :
  rows_of_length (Z.to_nat (r * c)) (make_d2mat r c).
Proof.
  unfold rows_of_length. rewrite Forall_forall. intros row Hin.
  destruct (In_nth _ _ [] Hin) as (i & Hi & <-).
  rewrite make_d2mat_length in Hi. now apply make_d2mat_row_length.
Qed.

(* ================================================================= *)
(** ** [predict] *)

Lemma bind_inr_inv {St A B} (m : M St A) (k : A -> M St B) (s s' : St)
      (out out' : list string) (b : B) :
  bind m k s out = (inr b, s', out') ->
  exists a s1 out1,
    m s out = (inr a, s1, out1) /\ k a s1 out1 = (inr b, s', out').
Proof.
  unfold bind. destruct (m s out) as [[[e|a] s1] out1]; [discriminate|].
  intros H. exists a, s1, out1. auto.
Qed.

(** [calc_BMUs] reads nothing but the weights, and changes nothing. *)
Lemma calc_BMUs_reads_wts (X : matrix) (s : SOM) (out : list string) :
  exists r,
    calc_BMUs X s out = (r, s, out) /\
    forall s2 out2, wts s2 = wts s -> calc_BMUs X s2 out2 = (r, s2, out2).
Proof.
  unfold calc_BMUs, bind, attr, lift, raise.
  destruct (wts s) as [W|] eqn:Ew.
  - destruct (sqdist_matrix X W) as [e|D] eqn:ED.
    + eexists. split; [reflexivity|]. intros s2 out2 ->. now rewrite ED.
    + destruct W as [|w W'].
      * eexists. split; [reflexivity|]. intros s2 out2 ->. now rewrite ED.
      * eexists. split; [reflexivity|]. intros s2 out2 ->. now rewrite ED.
  - eexists. split; [reflexivity|]. intros s2 out2 ->. reflexivity.
Qed.

(** When [train] returns, it has stored the BMUs of the training set in
    the final weights. *)
Lemma train_returned (X : matrix) (s s' : SOM) (out out' : list string) :
  train X s out = (inr tt, s', out') ->
  exists W b,
    wts s' = Some W /\ bmus s' = Some b /\
    calc_BMUs X s' out' = (inr b, s', out').
Proof.
  unfold train. intros H.
  apply bind_inr_inv in H. destruct H as (u1 & s1 & o1 & _ & H).
  apply bind_inr_inv in H. destruct H as (sg & s2 & o2 & _ & H).
  apply bind_inr_inv in H. destruct H as (u2 & s3 & o3 & _ & H).
  apply bind_inr_inv in H. destruct H as (b & s4 & o4 & Hb & H).
  apply bind_inr_inv in H. destruct H as (u3 & s5 & o5 & H5 & H).
  apply bind_inr_inv in H. destruct H as (W & s6 & o6 & HW & H).
  apply bind_inr_inv in H. destruct H as (D & s7 & o7 & HD & H).
  apply bind_inr_inv in H. destruct H as (u4 & s8 & o8 & H8 & H).
  apply bind_inr_inv in H. destruct H as (I & s9 & o9 & HI & H).
  destruct (calc_BMUs_reads_wts X s3 o3) as (r & Hr & Hsame).
  rewrite Hr in Hb. injection Hb as -> <- <-.
  unfold modify in H5. injection H5 as _ <- <-.
  unfold attr in HW. cbn [wts set_bmus] in HW.
  destruct (wts s3) as [W3|] eqn:Ew; [|discriminate HW].
  injection HW as <- <- <-.
  unfold lift in HD. injection HD as _ <- <-.
  unfold modify in H8. injection H8 as _ <- <-.
  unfold lift in HI. injection HI as _ <- <-.
  unfold modify in H. injection H as <- <-.
  exists W3, b. split; [exact Ew|]. split; [reflexivity|].
  apply Hsame. exact Ew.
Qed.

(** When [fit] returns under a recognised initialiser, it has trained. *)
Lemma fit_returned (X W0 : matrix) (s s' : SOM) (out out' : list string) :
  (initial s = "random" \/ initial s = "pca")%string ->
  fit X W0 s out = (inr tt, s', out') ->
  exists W b,
    wts s' = Some W /\ bmus s' = Some b /\
    calc_BMUs X s' out' = (inr b, s', out').
Proof.
  intros Hini H. unfold fit in H.
  apply bind_inr_inv in H. destruct H as (s0 & s1 & o1 & Hg & H).
  unfold get in Hg. injection Hg as <- <- <-.
  destruct Hini as [Hi|Hi]; rewrite Hi in H;
    cbn [String.eqb Ascii.eqb Bool.eqb] in H;
    apply bind_inr_inv in H; destruct H as (u & s2 & o2 & _ & H);
    exact (train_returned X s2 s' o2 out' H).
Qed.

(** C6 (as amended).  Whenever [fit] returns under a recognised
    initialiser, [predict] afterwards returns, for every argument, the
    BMU vector that [fit] stored -- the BMUs of the training set in the
    final weights -- and prints and changes nothing.  On an object whose
    weights are unset, as the constructor leaves it, [predict] prints the
    not-fitted message and returns [None].  It tests nothing but the
    weights: once they are set, by a [fit] that completed or by one that
    raised later on, [predict] returns the stored [bmus] as they are
    (possibly [None]) and prints nothing. *)
Theorem predict_returns_training_bmus :
  (forall (s s' : SOM) (X W0 : matrix) (out out' : list string),
      (initial s = "random" \/ initial s = "pca")%string ->
      fit X W0 s out = (inr tt, s', out') ->
      exists W b,
        wts s' = Some W /\ bmus s' = Some b /\
        calc_BMUs X s' out' = (inr b, s', out') /\
        forall X' o, predict X' s' o = (inr (Some b), s', o)) /\
  (forall (s : SOM) (X' : matrix) (o : list string),
      wts s = None ->
      predict X' s o =
      (inr None, s, (o ++ ["Train SOM before classifying"%string])%list)) /\
  (forall (s : SOM) (W X' : matrix) (o : list string),
      wts s = Some W ->
      predict X' s o = (inr (bmus s), s, o)).
Proof.
  split; [|split].
  - intros s s' X W0 out out' Hini H.
    destruct (fit_returned X W0 s s' out out' Hini H) as (W & b & Hw & Hb & Hc).
    exists W, b. split; [exact Hw|]. split; [exact Hb|]. split; [exact Hc|].
    intros X' o. unfold predict, bind, get, ret. now rewrite Hw, Hb.
  - intros s X' o Hw. unfold predict, bind, get, print, ret. now rewrite Hw.
  - intros s W X' o Hw. unfold predict, bind, get, ret. now rewrite Hw.
Qed.

(* ================================================================= *)
(** ** [fit] with an unrecognised neighbourhood *)

(** On a trainer that has no kernels yet, [fit] with an unrecognised
    neighbourhood (recognised initialiser, at least one epoch, well-shaped
    arrays) stores the initial codebook, prints the complaint of
    [make_kernels], goes on into the training loop and raises
    [AttributeError] at [self.kernels]. *)
Lemma fit_invalid_neighbourhood (s : SOM) (X W0 : matrix) (f : nat)
      (out : list string) :
  initialises s X ->
  kernel_of (neighbourhood s) = None ->
  kernels s = None ->
  (1 <= n_epochs s)%Z ->
  rows_of_length f X -> W0 <> [] -> rows_of_length f W0 ->
  fit X W0 s out =
  (inl AttributeError, set_wts (Some W0) s,
   (out ++ ["Invalid neighbourhood"%string])%list).
Proof.
  intros Hini Hfam Hker Hn HX HWne HW.
  destruct (sigs_of_nonneg s ltac:(lia)) as (sigs & Hs & _).
  set (s0 := set_wts (Some W0) s).
  set (out1 := (out ++ ["Invalid neighbourhood"%string])%list).
  assert (E1 : make_kernels s0 out = (inr tt, s0, out1)).
  { rewrite make_kernels_spec. change (sigs_of s0) with (sigs_of s).
    change (neighbourhood s0) with (neighbourhood s).
    now rewrite Hs, Hfam. }
  assert (E2 : train X s0 out = (inl AttributeError, s0, out1)).
  { unfold train. rewrite (bind_inr E1).
    erewrite bind_inr by reflexivity.
    change (n_epochs s0) with (n_epochs s).
    destruct (Z.to_nat (n_epochs s)) as [|n] eqn:En; [lia|].
    simpl for_range. unfold bind at 1. unfold bind at 1. unfold epoch.
    rewrite (bind_inr (calc_BMUs_spec s0 X W0 f out1 eq_refl HWne HX HW)).
    unfold bind, attr. change (kernels s0) with (kernels s).
    now rewrite Hker. }
  rewrite (fit_enters_train s X W0 out Hini). exact E2.
Qed.

(** C7, at a failing input.  [SOM(1, 2, neighbourhood='cone', n_epochs=2,
    initial='random').fit([[0.]])]: the call raises [AttributeError] out
    of the training loop, after [wts] was changed from [None] to the
    initial codebook. *)
Theorem fit_unknown_neighbourhood_mutates :
  exists s s',
    SOM_init 1 2 "cone" 2 (1 / 2) (1 / 100) None "random" = inr s /\
    fit one_sample W0_1x2 s [] =
      (inl AttributeError, s', ["Invalid neighbourhood"%string]) /\
    wts s = None /\
    wts s' = Some W0_1x2.
Proof.
  eexists. eexists. split; [reflexivity|].
  split.
  - apply (fit_invalid_neighbourhood _ one_sample W0_1x2 1 []).
    + left; split; [reflexivity | simpl; lia].
    + reflexivity.
    + reflexivity.
    + simpl; lia.
    + repeat constructor.
    + discriminate.
    + repeat constructor.
  - split; reflexivity.
Qed.

(** C6 as stated fails in its second half.  After
    [SOM(1, 2, neighbourhood='cone', n_epochs=2, initial='random')
    .fit([[0.]])], which raises, no [fit] has succeeded; yet [predict]
    reports nothing: the weights are set, so it returns the stored
    [bmus], which is [None], and prints no message. *)
Lemma predict_silent_after_failed_fit :
  exists s s',
    SOM_init 1 2 "cone" 2 (1 / 2) (1 / 100) None "random" = inr s /\
    fit one_sample W0_1x2 s [] =
      (inl AttributeError, s', ["Invalid neighbourhood"%string]) /\
    bmus s' = None /\
    forall X o, predict X s' o = (inr None, s', o).
Proof.
  eexists. eexists. split; [reflexivity|].
  split.
  - apply (fit_invalid_neighbourhood _ one_sample W0_1x2 1 []).
    + left; split; [reflexivity | simpl; lia].
    + reflexivity.
    + reflexivity.
    + simpl; lia.
    + repeat constructor.
    + discriminate.
    + repeat constructor.
  - split; [reflexivity|]. intros X o. reflexivity.
Qed.

(* ================================================================= *)
(** ** A degenerate neuron: bubble kernel on the 1 x 2 lattice *)

(** Decide the comparisons of concrete reals that an evaluation meets. *)
Ltac Rdecide :=
  repeat match goal with
    | |- context [Rle_dec ?a ?b] =>
        destruct (Rle_dec a b); [try (exfalso; lra) | try (exfalso; lra)]
    | |- context [Rlt_dec ?a ?b] =>
        destruct (Rlt_dec a b); [try (exfalso; lra) | try (exfalso; lra)]
    | |- context [Req_dec_T ?a ?b] =>
        destruct (Req_dec_T a b); [try (exfalso; lra) | try (exfalso; lra)]
    end.

Ltac eval_codebook :=
  cbn [map length n_columns hd sq_distance map2 Fsum Fsub Fneg Fadd Fsquare
       Fmul fold_right Fis_nan argmin_from Fgeb Fleb];
  Rdecide; cbn; Rdecide.

Lemma bubble_inside (sg : R) (d : Z) :
  (0 <= d)%Z -> (sqrt (IZR d) <= sg)%R -> bubble sg d = Fin 1.
Proof.
  intros Hd H. unfold bubble, FZ.
  rewrite Fsqrt_fin by (apply IZR_le in Hd; exact Hd).
  now rewrite Fleb_fin_true.
Qed.

Lemma bubble_outside (sg : R) (d : Z) :
  (0 <= d)%Z -> (sg < sqrt (IZR d))%R -> bubble sg d = Fin 0.
Proof.
  intros Hd H. unfold bubble, FZ.
  rewrite Fsqrt_fin by (apply IZR_le in Hd; exact Hd).
  now rewrite Fleb_fin_false.
Qed.

Lemma sigs_1x2_two_epochs (s : SOM) :
  Rmax s = sqrt 1 -> n_epochs s = 2%Z ->
  sigs_of s = inr [1%R; (1 / 2)%R].
Proof.
  intros Hr Hn. unfold sigs_of, linspace. rewrite Hr, Hn. simpl.
  rewrite sqrt_1. do 3 f_equal. lra.
Qed.

Lemma bubble_kernels_1x2 :
  kernel_tensor bubble [1%R; (1 / 2)%R] (make_d2mat 1 2) = [ones2; id2].
Proof.
  change (make_d2mat 1 2) with [[0; 1]; [1; 0]]%Z.
  unfold kernel_tensor. cbn [map].
  rewrite (bubble_inside 1 0), (bubble_inside 1 1),
    (bubble_inside (1 / 2) 0), (bubble_outside (1 / 2) 1);
    try lia; rewrite ?sqrt_0, ?sqrt_1; try lra.
  reflexivity.
Qed.

(** Epoch 0: both neurons move to the sample. *)
Lemma first_epoch_1x2 :
  next_codebook ones2 one_sample W0_1x2 = [[Fin 0]; [Fin 0]].
Proof.
  unfold next_codebook, one_sample, W0_1x2, ones2, bmu_of, argmin_row.
  eval_codebook. repeat f_equal; lra.
Qed.

(** Epoch 1: the tie goes to neuron 0, and neuron 1 is left with [0/0]. *)
Lemma second_epoch_1x2 :
  next_codebook id2 one_sample [[Fin 0]; [Fin 0]] = degenerate_codebook.
Proof.
  unfold next_codebook, one_sample, id2, bmu_of, argmin_row.
  eval_codebook. unfold Rsign. Rdecide. cbn.
  unfold degenerate_codebook. repeat f_equal; lra.
Qed.

(** [SOM(1, 2, neighbourhood='bubble', n_epochs=2, initial='random')
    .fit([[0.]])] completes and leaves the degenerate codebook. *)
Lemma fit_bubble_1x2 (s : SOM) :
  SOM_init 1 2 "bubble" 2 (1 / 2) (1 / 100) None "random" = inr s ->
  fit one_sample W0_1x2 s [] =
  (inr tt,
   fitted (set_wts (Some W0_1x2) s) [ones2; id2] one_sample
          degenerate_codebook,
   []).
Proof.
  intros Hs. injection Hs as <-.
  match goal with |- fit _ _ ?s0 _ = _ => set (s := s0) end.
  pose proof (fit_spec s one_sample W0_1x2 bubble [1%R; (1 / 2)%R] 2 1 [])
    as H.
  cbv zeta in H. rewrite H.
  - change (d2mat s) with (make_d2mat 1 2). rewrite bubble_kernels_1x2.
    change (Z.to_nat (n_epochs s)) with 2%nat.
    cbn [train_codebook nth].
    now rewrite first_epoch_1x2, second_epoch_1x2.
  - left; split; [reflexivity | simpl; lia].
  - reflexivity.
  - apply sigs_1x2_two_epochs; reflexivity.
  - reflexivity.
  - repeat constructor.
  - lia.
  - discriminate.
  - repeat constructor.
  - reflexivity.
  - repeat constructor.
Qed.

(** C9, at a failing input.  [SOM_cluster(2, 1, 2, neighbourhood='bubble',
    n_epochs=2, initial='random').fit([[0.]], [7])] completes; the only
    sample is assigned to the not-a-number neuron 1, which gets the label
    7; neuron 0 gets no vote, and the backfill picks for it the column
    that sorts first in [[inf, nan]], its own, so its label stays unset. *)
Theorem supervised_fit_leaves_unlabelled :
  exists c c',
    SOM_cluster_init 2 1 2 "bubble" 2 (1 / 2) (1 / 100) None "random"
      = inr c /\
    cluster_fit one_sample (Some [7%Z]) W0_1x2 [] c [] = (inr tt, c', []) /\
    wts (base c') = Some degenerate_codebook /\
    bmus (base c') = Some [1%nat] /\
    neuron_to_label c' = [NaN; Fin 7] /\
    ~ fully_labelled (neuron_to_label c').
Proof.
  eexists. eexists. split; [reflexivity|].
  match goal with |- context [cluster_fit _ _ _ _ ?c0 _] => set (c := c0) end.
  split.
  - unfold cluster_fit.
    erewrite bind_inr.
    2:{ unfold super, zoom. rewrite (fit_bubble_1x2 (base c) eq_refl).
        reflexivity. }
    reflexivity.
  - repeat (split; [reflexivity|]).
    intros H. inversion H as [|l ls Hl _]. discriminate Hl.
Qed.

Lemma epoch_weighted_centroid_witness :
  exists W' Ke,
    nth_error (kernel_tensor bubble [1%R; (1 / 2)%R] (make_d2mat 1 2)) 1
      = Some Ke /\
    epoch one_sample 1 som_mid_training [] =
      (inr tt, set_wts (Some W') som_mid_training, []) /\
    length W' = 2%nat /\
    centroid_den Ke (map (bmu_of [[Fin 0]; [Fin 0]]) one_sample) 1 = Fin 0 /\
    nth 0 (nth 1 W' []) NaN = NaN.
Proof.
  destruct (epoch_weighted_centroid som_mid_training one_sample
              [[Fin 0]; [Fin 0]] bubble [1%R; (1 / 2)%R] 1 2 1 [])
    as (W' & Ke & HKe & Hep & Hl & _ & Hent).
  - reflexivity.
  - reflexivity.
  - lia.
  - repeat constructor.
  - discriminate.
  - repeat constructor.
  - reflexivity.
  - reflexivity.
  - simpl; lia.
  - reflexivity.
  - repeat constructor.
  - exists W', Ke.
    split; [exact HKe|]. split; [exact Hep|]. split; [exact Hl|].
    assert (Hden : centroid_den Ke
                     (map (bmu_of [[Fin 0]; [Fin 0]]) one_sample) 1 = Fin 0).
    { change (kernel_tensor bubble [1%R; (1 / 2)%R] (d2mat som_mid_training))
        with (kernel_tensor bubble [1%R; (1 / 2)%R] (make_d2mat 1 2)) in HKe.
      rewrite bubble_kernels_1x2 in HKe. injection HKe as <-.
      unfold centroid_den, one_sample, id2, bmu_of, argmin_row.
      eval_codebook. f_equal. lra. }
    split; [exact Hden|].
    destruct (Hent 1%nat 0%nat) as [_ Hnan]; [lia | lia |].
    exact (Hnan Hden).
Defined.

(** C2 as stated fails on a codebook with a row that is not a number, and
    training produces such codebooks.  After
    [SOM(1, 2, neighbourhood='bubble', n_epochs=2, initial='random')
    .fit([[0.]])] neuron 0 sits on the sample and neuron 1 is [nan]; the
    distance to neuron 1 is [nan], [argmin] returns 1, and that distance
    is not at most the distance [0] to neuron 0.  The same happens on any
    codebook with a [nan] row, wherever the row is. *)
Lemma calc_BMUs_nan_codebook :
  (exists s s',
      SOM_init 1 2 "bubble" 2 (1 / 2) (1 / 100) None "random" = inr s /\
      fit one_sample W0_1x2 s [] = (inr tt, s', []) /\
      wts s' = Some degenerate_codebook /\
      rows_of_length 1 one_sample /\ rows_of_length 1 degenerate_codebook /\
      calc_BMUs one_sample s' [] = (inr [1%nat], s', []) /\
      ~ Fle (sq_distance [Fin 0] (nth 1 degenerate_codebook []))
            (sq_distance [Fin 0] (nth 0 degenerate_codebook [])) /\
      ~ nearest_first degenerate_codebook (nth 0 one_sample []) 1) /\
  (calc_BMUs one_sample (som_1x2 "gaussian" 10 nan_codebook) [] =
     (inr [0%nat], som_1x2 "gaussian" 10 nan_codebook, []) /\
   ~ nearest_first nan_codebook (nth 0 one_sample []) 0).
Proof.
  split.
  - eexists. eexists. split; [reflexivity|].
    split; [apply fit_bubble_1x2; reflexivity|].
    split; [reflexivity|].
    split; [repeat constructor|]. split; [repeat constructor|].
    split; [reflexivity|].
    split; [intros H; discriminate H|].
    intros (_ & H & _). specialize (H 0%nat ltac:(simpl; lia)).
    discriminate H.
  - split; [reflexivity|].
    intros (_ & H & _). specialize (H 1%nat ltac:(simpl; lia)).
    discriminate H.
Qed.

(* ================================================================= *)
(** * Further properties of the trainer *)

(** ** [fit]: the paths that do not train *)

Lemma bind_inl {St A B} {m : M St A} {k : A -> M St B} {s s' : St}
      {out out' : list string} {e : exn} :
  m s out = (inl e, s', out') -> bind m k s out = (inl e, s', out').
Proof. unfold bind. intros ->. reflexivity. Qed.

(** X1.  With an initialiser name that is neither ['random'] nor ['pca'],
    [fit] prints its complaint and returns at once: nothing of the object
    changes, whatever it held. *)
Theorem fit_unrecognised_initial :
  forall (s : SOM) (X W0 : matrix) (out : list string),
    initial s <> "random"%string -> initial s <> "pca"%string ->
    fit X W0 s out =
    (inr tt, s, (out ++ ["initial must be random or pca"%string])%list).
Proof.
  intros s X W0 out Hr Hp. unfold fit.
  erewrite bind_inr by reflexivity.
  destruct (String.eqb_spec (initial s) "random"); [contradiction|].
  destruct (String.eqb_spec (initial s) "pca"); [contradiction|].
  reflexivity.
Qed.

Lemma fit_unrecognised_initial_witness :
  fit three_samples two_neurons
      (som_1x2_with "gaussian" "kmeans" 10 None None) [] =
  (inr tt, som_1x2_with "gaussian" "kmeans" 10 None None,
   ["initial must be random or pca"%string]).
Proof.
  apply (fit_unrecognised_initial
           (som_1x2_with "gaussian" "kmeans" 10 None None));
    intros H; discriminate H.
Defined.

(** X2.  With a negative [n_epochs], on a lattice and data for which the
    initialiser returns, [fit] raises [ValueError] (out of [np.linspace])
    after it has replaced the weights by the initial codebook; kernels,
    BMUs and the rest are as before, and nothing is printed. *)
Theorem fit_negative_epochs :
  forall (s : SOM) (X W0 : matrix) (out : list string),
    initialises s X ->
    (n_epochs s < 0)%Z ->
    fit X W0 s out = (inl ValueError, set_wts (Some W0) s, out).
Proof.
  intros s X W0 out Hini Hn.
  rewrite fit_enters_train by exact Hini.
  unfold train. apply bind_inl.
  rewrite make_kernels_spec. unfold sigs_of, linspace. simpl n_epochs.
  apply Z.ltb_lt in Hn. now rewrite Hn.
Qed.

Lemma fit_negative_epochs_witness :
  fit three_samples two_neurons
      (som_1x2_with "gaussian" "pca" (-1) None None) [] =
  (inl ValueError,
   set_wts (Some two_neurons) (som_1x2_with "gaussian" "pca" (-1) None None),
   []).
Proof.
  apply (fit_negative_epochs (som_1x2_with "gaussian" "pca" (-1) None None)).
  - right. split; [reflexivity|]. split; [simpl; lia|].
    split; [simpl; lia|]. split; [vm_compute; lia|].
    split; [vm_compute; discriminate|].
    repeat constructor; apply moderate_small; lra.
  - simpl; lia.
Defined.

(** The part of [train] that follows [make_kernels], on an object that
    holds a kernel tensor with enough matrices of the right shape. *)
Lemma train_given_kernels (s s1 : SOM) (X W0 : matrix) (K : list matrix)
      (k f : nat) (out out1 : list string) :
  make_kernels s out = (inr tt, s1, out1) ->
  wts s1 = Some W0 -> kernels s1 = Some K ->
  kernel_shape k K -> (Z.to_nat (n_epochs s1) <= length K)%nat ->
  (0 < k)%nat -> X <> [] -> rows_of_length f X ->
  length W0 = k -> rows_of_length f W0 ->
  let Wn := train_codebook K X (Z.to_nat (n_epochs s1)) 0 W0 in
  train X s out =
  (inr tt,
   set_inertia_ (Some (final_inertia X Wn))
     (set_dmat (Some (final_dmat Wn))
        (set_bmus (Some (map (bmu_of Wn) X)) (set_wts (Some Wn) s1))),
   out1).
Proof.
  intros E1 Hw HKs HK HlK Hpos HXne HX Hk HW Wn.
  destruct (train_codebook_shape X K k f Hpos HXne HX HK
              (Z.to_nat (n_epochs s1)) 0 W0) as [HWn1 HWn2]; auto; try lia.
  fold Wn in HWn1, HWn2.
  assert (HWne : Wn <> [])
    by (destruct Wn; [simpl in HWn1; lia | discriminate]).
  set (s2 := set_wts (Some Wn) s1).
  set (b := map (bmu_of Wn) X).
  assert (E2 : for_range (Z.to_nat (n_epochs s1)) 0 (epoch X) s1 out1
               = (inr tt, s2, out1)).
  { apply (training_loop X K k f Hpos HXne HX HK); auto. }
  assert (E3 : calc_BMUs X s2 out1 = (inr b, s2, out1))
    by (apply (calc_BMUs_spec s2 X Wn f out1); auto).
  assert (E4 : lift (feature_distances Wn) (set_bmus (Some b) s2) out1
               = (inr (final_dmat Wn), set_bmus (Some b) s2, out1))
    by (unfold lift; now rewrite (feature_distances_spec Wn f HWn2)).
  assert (E5 : lift (inertia_of X Wn b)
                 (set_dmat (Some (final_dmat Wn)) (set_bmus (Some b) s2)) out1
               = (inr (final_inertia X Wn),
                  set_dmat (Some (final_dmat Wn)) (set_bmus (Some b) s2),
                  out1))
    by (unfold lift, b; now rewrite (inertia_of_spec X Wn f HWne HX HWn2)).
  unfold train.
  rewrite (bind_inr E1).
  erewrite bind_inr by reflexivity.
  rewrite (bind_inr E2), (bind_inr E3).
  erewrite bind_inr by reflexivity.
  erewrite bind_inr by reflexivity.
  rewrite (bind_inr E4).
  erewrite bind_inr by reflexivity.
  rewrite (bind_inr E5).
  reflexivity.
Qed.

Lemma set_kernels_same (s : SOM) (K : list matrix) :
  kernels s = Some K -> set_kernels (Some K) s = s.
Proof. destruct s; simpl; intros ->; reflexivity. Qed.

(** X3.  An unrecognised neighbourhood on a trainer that already holds
    kernels (from an earlier [fit]) is not an error for [fit] (on data for
    which the initialiser returns): it prints
    'Invalid neighbourhood', keeps the old kernel tensor, trains with it
    and returns normally. *)
Theorem fit_trains_with_stale_kernels :
  forall (s : SOM) (X W0 : matrix) (K : list matrix) (k f : nat)
         (out : list string),
    initialises s X ->
    kernel_of (neighbourhood s) = None ->
    (0 <= n_epochs s)%Z ->
    kernels s = Some K -> kernel_shape k K ->
    (Z.to_nat (n_epochs s) <= length K)%nat ->
    (0 < k)%nat -> X <> [] -> rows_of_length f X ->
    length W0 = k -> rows_of_length f W0 ->
    fit X W0 s out =
    (inr tt,
     fitted (set_wts (Some W0) s) K X
            (train_codebook K X (Z.to_nat (n_epochs s)) 0 W0),
     (out ++ ["Invalid neighbourhood"%string])%list).
Proof.
  intros s X W0 K k f out Hini Hfam Hn HKs HK HlK Hpos HXne HX Hk HW.
  rewrite fit_enters_train by exact Hini.
  set (s0 := set_wts (Some W0) s).
  destruct (sigs_of_nonneg s Hn) as (sigs & Hs & _).
  assert (E1 : make_kernels s0 out =
               (inr tt, s0, (out ++ ["Invalid neighbourhood"%string])%list)).
  { rewrite make_kernels_spec. change (sigs_of s0) with (sigs_of s).
    change (neighbourhood s0) with (neighbourhood s).
    now rewrite Hs, Hfam. }
  rewrite (train_given_kernels s0 s0 X W0 K k f _ _ E1); auto.
  unfold fitted. rewrite (set_kernels_same s0 K) by exact HKs.
  reflexivity.
Qed.

Lemma fit_trains_with_stale_kernels_witness :
  fit one_sample W0_1x2
      (som_1x2_with "cone" "random" 2 None (Some [ones2; id2])) [] =
  (inr tt,
   fitted (set_wts (Some W0_1x2)
             (som_1x2_with "cone" "random" 2 None (Some [ones2; id2])))
          [ones2; id2] one_sample
          (train_codebook [ones2; id2] one_sample 2 0 W0_1x2),
   ["Invalid neighbourhood"%string]).
Proof.
  apply (fit_trains_with_stale_kernels
           (som_1x2_with "cone" "random" 2 None (Some [ones2; id2]))
           one_sample W0_1x2 [ones2; id2] 2 1 []).
  - left; split; [reflexivity | simpl; lia].
  - reflexivity.
  - simpl; lia.
  - reflexivity.
  - repeat constructor.
  - simpl; lia.
  - lia.
  - discriminate.
  - repeat constructor.
  - reflexivity.
  - repeat constructor.
Defined.

Lemma linspace_zero (a b : R) : linspace a b 0 = inr [].
Proof. reflexivity. Qed.

(** X4.  With [n_epochs = 0] a [fit] with a recognised neighbourhood, on
    data for which the initialiser returns, trains nothing: it returns
    normally with an empty kernel tensor, the initial
    codebook as weights, and the BMUs, distance matrix and inertia of that
    untrained codebook. *)
Theorem fit_zero_epochs :
  forall (s : SOM) (X W0 : matrix) (h : R -> Z -> F) (k f : nat)
         (out : list string),
    initialises s X ->
    kernel_of (neighbourhood s) = Some h ->
    n_epochs s = 0%Z ->
    length (d2mat s) = k -> rows_of_length k (d2mat s) -> (0 < k)%nat ->
    X <> [] -> rows_of_length f X ->
    length W0 = k -> rows_of_length f W0 ->
    fit X W0 s out = (inr tt, fitted (set_wts (Some W0) s) [] X W0, out).
Proof.
  intros s X W0 h k f out Hini Hfam Hn Hd Hdr Hpos HXne HX Hk HW.
  assert (Hs : sigs_of s = inr []).
  { unfold sigs_of. rewrite Hn. apply linspace_zero. }
  rewrite (fit_spec s X W0 h [] k f out); auto.
  rewrite Hn. reflexivity.
Qed.

Lemma fit_zero_epochs_witness :
  fit three_samples two_neurons
      (som_1x2_with "linear" "random" 0 None None) [] =
  (inr tt,
   fitted (set_wts (Some two_neurons)
             (som_1x2_with "linear" "random" 0 None None))
          [] three_samples two_neurons,
   []).
Proof.
  apply (fit_zero_epochs (som_1x2_with "linear" "random" 0 None None)
           three_samples two_neurons linear 2 2 []).
  - left; split; [reflexivity | simpl; lia].
  - reflexivity.
  - reflexivity.
  - reflexivity.
  - repeat constructor.
  - lia.
  - discriminate.
  - repeat constructor.
  - reflexivity.
  - repeat constructor.
Defined.

(** X5.  With a recognised neighbourhood, [fit] starts from scratch: its
    outcome depends on the configuration, the lattice, the data and the
    initial codebook only.  Two trainers with the same configuration, on
    data for which the initialiser returns, end in the same state,
    whatever weights, BMUs, kernels, distances and inertia each held
    before.  (With an unrecognised neighbourhood this fails: the kernels
    of an earlier [fit] are then used, as X3 shows.) *)
Theorem fit_forgets_earlier_training :
  forall (s1 s2 : SOM) (X W0 : matrix) (h : R -> Z -> F) (k f : nat)
         (out : list string),
    same_configuration s1 s2 ->
    initialises s1 X ->
    kernel_of (neighbourhood s1) = Some h ->
    (0 <= n_epochs s1)%Z ->
    length (d2mat s1) = k -> rows_of_length k (d2mat s1) -> (0 < k)%nat ->
    X <> [] -> rows_of_length f X ->
    length W0 = k -> rows_of_length f W0 ->
    exists s',
      fit X W0 s1 out = (inr tt, s', out) /\
      fit X W0 s2 out = (inr tt, s', out).
Proof.
  intros s1 s2 X W0 h k f out Hc Hini Hfam Hn Hd Hdr Hpos HXne HX Hk HW.
  destruct Hc as (C1 & C2 & C3 & C4 & C5 & C6 & C7 & C8 & C9).
  destruct (sigs_of_nonneg s1 Hn) as (sigs & Hs & _).
  assert (Hs2 : sigs_of s2 = inr sigs)
    by (unfold sigs_of in *; now rewrite <- C7, <- C4).
  assert (Hini2 : initialises s2 X)
    by (unfold initialises in *; now rewrite <- C1, <- C2, <- C8).
  eexists. split.
  - apply (fit_spec s1 X W0 h sigs k f out); auto.
  - rewrite (fit_spec s2 X W0 h sigs k f out); try congruence.
    all: try (cbv zeta; do 2 f_equal;
              destruct s1, s2; simpl in *; subst; reflexivity).
Qed.

Lemma fit_forgets_earlier_training_witness :
  exists s',
    fit three_samples two_neurons
        (som_1x2_with "gaussian" "random" 3 None None) [] = (inr tt, s', []) /\
    fit three_samples two_neurons
        (som_1x2_with "gaussian" "random" 3 (Some nan_codebook)
                      (Some [ones2])) [] = (inr tt, s', []).
Proof.
  apply (fit_forgets_earlier_training
           (som_1x2_with "gaussian" "random" 3 None None)
           (som_1x2_with "gaussian" "random" 3 (Some nan_codebook)
                         (Some [ones2]))
           three_samples two_neurons gaussian 2 2 []).
  - repeat split.
  - left; split; [reflexivity | simpl; lia].
  - reflexivity.
  - simpl; lia.
  - reflexivity.
  - repeat constructor.
  - lia.
  - discriminate.
  - repeat constructor.
  - reflexivity.
  - repeat constructor.
Defined.

(** X6.  Shapes after a [fit] with a recognised neighbourhood, on a
    lattice and data for which the initialiser returns, on [m] samples
    with [f] features and a lattice of [k] neurons: the call completes;
    the codebook is [k] x [f], there
    is one BMU per sample and each is a neuron index below [k], the
    distance matrix is [k] x [k], and the kernel tensor holds [n_epochs]
    matrices of [k] x [k]. *)
Theorem fit_shapes :
  forall (s : SOM) (X W0 : matrix) (h : R -> Z -> F) (k f : nat)
         (out : list string),
    initialises s X ->
    kernel_of (neighbourhood s) = Some h ->
    (0 <= n_epochs s)%Z ->
    length (d2mat s) = k -> rows_of_length k (d2mat s) -> (0 < k)%nat ->
    X <> [] -> rows_of_length f X ->
    length W0 = k -> rows_of_length f W0 ->
    exists s' W b D K,
      fit X W0 s out = (inr tt, s', out) /\
      wts s' = Some W /\ length W = k /\ rows_of_length f W /\
      bmus s' = Some b /\ length b = length X /\
      Forall (fun bn => (bn < k)%nat) b /\
      dmat s' = Some D /\ length D = k /\ rows_of_length k D /\
      kernels s' = Some K /\ length K = Z.to_nat (n_epochs s) /\
      kernel_shape k K.
Proof.
  intros s X W0 h k f out Hini Hfam Hn Hd Hdr Hpos HXne HX Hk HW.
  destruct (sigs_of_nonneg s Hn) as (sigs & Hs & Hls).
  pose proof (fit_spec s X W0 h sigs k f out Hini Hfam Hs Hd Hdr Hpos
                HXne HX Hk HW) as Hfit.
  cbv zeta in Hfit.
  set (K := kernel_tensor h sigs (d2mat s)) in *.
  set (Wn := train_codebook K X (Z.to_nat (n_epochs s)) 0 W0) in *.
  assert (HK : kernel_shape k K) by now apply kernel_tensor_shape.
  assert (HlK : length K = Z.to_nat (n_epochs s))
    by (unfold K, kernel_tensor; now rewrite length_map).
  destruct (train_codebook_shape X K k f Hpos HXne HX HK
              (Z.to_nat (n_epochs s)) 0 W0) as [HWn1 HWn2]; auto; try lia.
  fold Wn in HWn1, HWn2.
  assert (HWne : Wn <> [])
    by (destruct Wn; [simpl in HWn1; lia | discriminate]).
  exists (fitted (set_wts (Some W0) s) K X Wn), Wn, (map (bmu_of Wn) X),
    (final_dmat Wn), K.
  split; [exact Hfit|].
  split; [reflexivity|]. split; [exact HWn1|]. split; [exact HWn2|].
  split; [reflexivity|]. split; [apply length_map|].
  split.
  { apply Forall_map. rewrite Forall_forall. intros x _.
    rewrite <- HWn1. now apply bmu_of_bound. }
  split; [reflexivity|].
  split; [unfold final_dmat; now rewrite length_map|].
  split.
  { unfold final_dmat, rows_of_length. apply Forall_map.
    rewrite Forall_forall. intros w _. now rewrite length_map. }
  split; [reflexivity|]. split; [exact HlK | exact HK].
Qed.

Lemma fit_shapes_witness :
  exists s' W b,
    fit three_samples two_neurons
        (som_1x2_with "exponential" "pca" 4 None None) [] =
      (inr tt, s', []) /\
    wts s' = Some W /\ length W = 2%nat /\ rows_of_length 2 W /\
    bmus s' = Some b /\ length b = 3%nat /\
    Forall (fun bn => (bn < 2)%nat) b.
Proof.
  destruct (fit_shapes (som_1x2_with "exponential" "pca" 4 None None)
              three_samples two_neurons exponential 2 2 [])
    as (s' & W & b & D & K & H1 & H2 & H3 & H4 & H5 & H6 & H7 & _).
  - right. split; [reflexivity|]. split; [simpl; lia|].
    split; [simpl; lia|]. split; [vm_compute; lia|].
    split; [vm_compute; discriminate|].
    repeat constructor; apply moderate_small; lra.
  - reflexivity.
  - simpl; lia.
  - reflexivity.
  - repeat constructor.
  - lia.
  - discriminate.
  - repeat constructor.
  - reflexivity.
  - repeat constructor.
  - exists s', W, b. repeat (split; [assumption|]). exact H7.
Defined.

(* ================================================================= *)
(** ** [calc_BMUs]: broadcasting and shape errors *)

Lemma bcast2_single_l {A B C} (f : A -> B -> C) (a : A) (v : list B) :
  bcast2 f [a] v = inr (map (f a) v).
Proof.
  unfold bcast2. destruct (length [a] =? length v)%nat eqn:E; [|reflexivity].
  apply Nat.eqb_eq in E. destruct v as [|b [|b' v]]; try discriminate E.
  reflexivity.
Qed.

Lemma bcast2_mismatch {A B C} (f : A -> B -> C) (u : list A) (v : list B) :
  length u <> length v -> length u <> 1%nat -> length v <> 1%nat ->
  bcast2 f u v = inl ValueError.
Proof.
  intros H Hu Hv. unfold bcast2.
  destruct (Nat.eqb_spec (length u) (length v)); [contradiction|].
  destruct u as [|a [|a' u]]; destruct v as [|b [|b' v]]; simpl in *;
    try reflexivity; congruence.
Qed.

(** X7.  A data matrix with a single feature column is accepted against
    a codebook of any feature dimension: the one value is broadcast over
    the features of every neuron, and [calc_BMUs] returns the first
    minimum of [sum_f (x - W[j,f])^2] per sample instead of raising. *)
Theorem calc_BMUs_broadcasts_single_feature :
  forall (s : SOM) (X W : matrix) (out : list string),
    wts s = Some W -> W <> [] -> rows_of_length 1 X ->
    calc_BMUs X s out =
    (inr (map (fun x =>
            argmin_row
              (map (fun w => Fsum (map Fsquare (map (Fsub (hd NaN x)) w))) W))
            X),
     s, out).
Proof.
  intros s X W out Hw Hne HX.
  unfold calc_BMUs. erewrite bind_inr by (unfold attr; now rewrite Hw).
  assert (E : sqdist_matrix X W =
              inr (map (fun x => map (fun w =>
                     Fsum (map Fsquare (map (Fsub (hd NaN x)) w))) W) X)).
  { unfold sqdist_matrix. apply res_mapM_inr. intros x Hx.
    apply res_mapM_inr. intros w _.
    unfold rows_of_length in HX. rewrite Forall_forall in HX.
    specialize (HX x Hx). destruct x as [|a [|a' x]]; try discriminate HX.
    unfold sqdist. now rewrite bcast2_single_l. }
  erewrite bind_inr by (unfold lift; now rewrite E).
  destruct W as [|w W']; [congruence|]. unfold lift.
  rewrite (res_mapM_inr argmin argmin_row).
  - now rewrite map_map.
  - intros l Hl. apply argmin_nonempty.
    apply in_map_iff in Hl. destruct Hl as (x & <- & _). discriminate.
Qed.

Lemma calc_BMUs_broadcasts_single_feature_witness :
  calc_BMUs [[Fin 5]] (som_1x2 "gaussian" 10 two_neurons) [] =
  (inr (map (fun x =>
          argmin_row
            (map (fun w => Fsum (map Fsquare (map (Fsub (hd NaN x)) w)))
                 two_neurons))
          [[Fin 5]]),
   som_1x2 "gaussian" 10 two_neurons, []).
Proof.
  apply (calc_BMUs_broadcasts_single_feature
           (som_1x2 "gaussian" 10 two_neurons) [[Fin 5]] two_neurons []).
  - reflexivity.
  - discriminate.
  - repeat constructor.
Defined.

(** X8.  Samples with [fx] features against neurons with [fw] features,
    [fx <> fw] and neither equal to one: [calc_BMUs] raises [ValueError]
    and leaves the object as it was. *)
Theorem calc_BMUs_shape_mismatch :
  forall (s : SOM) (X W : matrix) (fx fw : nat) (out : list string),
    wts s = Some W -> X <> [] -> W <> [] ->
    rows_of_length fx X -> rows_of_length fw W ->
    fx <> fw -> fx <> 1%nat -> fw <> 1%nat ->
    calc_BMUs X s out = (inl ValueError, s, out).
Proof.
  intros s X W fx fw out Hw HXne HWne HX HW Hne H1 H2.
  unfold calc_BMUs. erewrite bind_inr by (unfold attr; now rewrite Hw).
  apply bind_inl. unfold lift.
  destruct X as [|x X']; [congruence|].
  destruct W as [|w W']; [congruence|].
  inversion HX; subst. inversion HW; subst.
  unfold sqdist_matrix. simpl. unfold sqdist at 1.
  now rewrite bcast2_mismatch.
Qed.

Lemma calc_BMUs_shape_mismatch_witness :
  calc_BMUs [[Fin 1; Fin 2; Fin 3]] (som_1x2 "gaussian" 10 two_neurons) [] =
  (inl ValueError, som_1x2 "gaussian" 10 two_neurons, []).
Proof.
  apply (calc_BMUs_shape_mismatch (som_1x2 "gaussian" 10 two_neurons)
           [[Fin 1; Fin 2; Fin 3]] two_neurons 3 2 []);
    try reflexivity; try discriminate; try lia; repeat constructor.
Defined.

(* ================================================================= *)
(** ** The distance matrix in feature space and the inertia *)

Lemma Fsquare_sub_sym (a b : F) : Fsquare (Fsub a b) = Fsquare (Fsub b a).
Proof.
  destruct a, b; simpl; try reflexivity. f_equal. ring.
Qed.

Lemma sq_distance_sym (x w : list F) : sq_distance x w = sq_distance w x.
Proof.
  unfold sq_distance. f_equal.
  revert w; induction x as [|a x IH]; intros [|b w]; simpl; auto.
  now rewrite IH, Fsquare_sub_sym.
Qed.

Lemma Fsquare_ok (a : F) : kernel_value_ok (Fsquare a).
Proof.
  apply kernel_value_ok_cases. destruct a; simpl; auto.
  right; right. exists (r * r)%R. split; [reflexivity|nra].
Qed.

Lemma sq_distance_ok (x w : list F) : kernel_value_ok (sq_distance x w).
Proof.
  unfold sq_distance. apply Fsum_ok. apply Forall_map.
  rewrite Forall_forall. intros d _. apply Fsquare_ok.
Qed.

Lemma Fsqrt_ok (a : F) : kernel_value_ok a -> kernel_value_ok (Fsqrt a).
Proof.
  rewrite !kernel_value_ok_cases.
  intros [->|[->|(r & -> & Hr)]]; simpl; auto.
  right; right. destruct (Rlt_dec r 0); [lra|].
  exists (sqrt r). split; [reflexivity | apply sqrt_pos].
Qed.

Lemma sq_distance_self (w : list F) :
  finite_row w -> sq_distance w w = Fin 0.
Proof.
  unfold sq_distance. induction 1 as [|v w [r ->] _ IH]; simpl.
  - reflexivity.
  - rewrite IH. simpl. f_equal. ring.
Qed.

Lemma final_dmat_entry (W : matrix) (a b : nat) :
  (a < length W)%nat -> (b < length W)%nat ->
  mentry (final_dmat W) a b
  = Fsqrt (sq_distance (nth a W []) (nth b W [])).
Proof.
  intros Ha Hb. unfold mentry, final_dmat.
  rewrite (map_nth_in _ _ [] []) by exact Ha.
  now rewrite (map_nth_in _ _ [] NaN) by exact Hb.
Qed.

(** X9.  [fit] with a recognised neighbourhood, on a lattice and data
    for which the initialiser returns, completes, and the distance matrix
    that it stores is symmetric;
    each entry is not-a-number, [+inf] or a finite value [>= 0]; and the
    diagonal entry of a neuron whose weights are all finite is [0]. *)
Theorem fit_dmat_symmetric :
  forall (s : SOM) (X W0 : matrix) (h : R -> Z -> F) (k f : nat)
         (out : list string),
    initialises s X ->
    kernel_of (neighbourhood s) = Some h ->
    (0 <= n_epochs s)%Z ->
    length (d2mat s) = k -> rows_of_length k (d2mat s) -> (0 < k)%nat ->
    X <> [] -> rows_of_length f X ->
    length W0 = k -> rows_of_length f W0 ->
    exists s' W D,
      fit X W0 s out = (inr tt, s', out) /\
      wts s' = Some W /\ dmat s' = Some D /\
      forall a b, (a < k)%nat -> (b < k)%nat ->
        mentry D a b = mentry D b a /\
        kernel_value_ok (mentry D a b) /\
        (finite_row (nth a W []) -> mentry D a a = Fin 0).
Proof.
  intros s X W0 h k f out Hini Hfam Hn Hd Hdr Hpos HXne HX Hk HW.
  destruct (sigs_of_nonneg s Hn) as (sigs & Hs & Hls).
  pose proof (fit_spec s X W0 h sigs k f out Hini Hfam Hs Hd Hdr Hpos
                HXne HX Hk HW) as Hfit.
  cbv zeta in Hfit.
  set (K := kernel_tensor h sigs (d2mat s)) in *.
  assert (HK : kernel_shape k K) by now apply kernel_tensor_shape.
  assert (HlK : length K = Z.to_nat (n_epochs s))
    by (unfold K, kernel_tensor; now rewrite length_map).
  destruct (train_codebook_shape X K k f Hpos HXne HX HK
              (Z.to_nat (n_epochs s)) 0 W0) as [HlW _]; auto; try lia.
  eexists. eexists. eexists.
  split; [exact Hfit|]. split; [reflexivity|]. split; [reflexivity|].
  intros a c Ha Hc.
  rewrite !final_dmat_entry by (rewrite HlW; assumption).
  split; [now rewrite sq_distance_sym|].
  split; [apply Fsqrt_ok, sq_distance_ok|].
  intros Hfin. rewrite sq_distance_self by exact Hfin.
  rewrite Fsqrt_fin by lra. now rewrite sqrt_0.
Qed.

Lemma fit_dmat_symmetric_witness :
  exists s' W D,
    fit three_samples two_neurons
        (som_1x2_with "gaussian" "random" 3 None None) [] =
      (inr tt, s', []) /\
    wts s' = Some W /\ dmat s' = Some D /\
    mentry D 0 1 = mentry D 1 0.
Proof.
  destruct (fit_dmat_symmetric (som_1x2_with "gaussian" "random" 3 None None)
              three_samples two_neurons gaussian 2 2 [])
    as (s' & W & D & H1 & H2 & H3 & H4).
  - left; split; [reflexivity | simpl; lia].
  - reflexivity.
  - simpl; lia.
  - reflexivity.
  - repeat constructor.
  - lia.
  - discriminate.
  - repeat constructor.
  - reflexivity.
  - repeat constructor.
  - exists s', W, D. repeat (split; [assumption|]).
    destruct (H4 0%nat 1%nat) as [H _]; [lia | lia | exact H].
Defined.

(** X10.  [fit] with a recognised neighbourhood, on a lattice and data
    for which the initialiser returns, completes, and the inertia that it
    stores is never negative:
    it is not-a-number, [+inf] or a finite value [>= 0]. *)
Theorem fit_inertia_not_negative :
  forall (s : SOM) (X W0 : matrix) (h : R -> Z -> F) (k f : nat)
         (out : list string),
    initialises s X ->
    kernel_of (neighbourhood s) = Some h ->
    (0 <= n_epochs s)%Z ->
    length (d2mat s) = k -> rows_of_length k (d2mat s) -> (0 < k)%nat ->
    X <> [] -> rows_of_length f X ->
    length W0 = k -> rows_of_length f W0 ->
    exists s' I,
      fit X W0 s out = (inr tt, s', out) /\
      inertia_ s' = Some I /\
      (I = NaN \/ I = PInf \/ exists r, I = Fin r /\ (0 <= r)%R).
Proof.
  intros s X W0 h k f out Hini Hfam Hn Hd Hdr Hpos HXne HX Hk HW.
  destruct (sigs_of_nonneg s Hn) as (sigs & Hs & _).
  pose proof (fit_spec s X W0 h sigs k f out Hini Hfam Hs Hd Hdr Hpos
                HXne HX Hk HW) as Hfit.
  cbv zeta in Hfit.
  eexists. eexists. split; [exact Hfit|]. split; [reflexivity|].
  apply kernel_value_ok_cases. unfold final_inertia.
  apply Fsum_ok. apply Forall_map. rewrite Forall_forall.
  intros x _. apply sq_distance_ok.
Qed.

Lemma fit_inertia_not_negative_witness :
  exists s' I,
    fit three_samples two_neurons
        (som_1x2_with "gaussian" "random" 3 None None) [] =
      (inr tt, s', []) /\
    inertia_ s' = Some I /\
    (I = NaN \/ I = PInf \/ exists r, I = Fin r /\ (0 <= r)%R).
Proof.
  apply (fit_inertia_not_negative
           (som_1x2_with "gaussian" "random" 3 None None)
           three_samples two_neurons gaussian 2 2 []).
  - left; split; [reflexivity | simpl; lia].
  - reflexivity.
  - simpl; lia.
  - reflexivity.
  - repeat constructor.
  - lia.
  - discriminate.
  - repeat constructor.
  - reflexivity.
  - repeat constructor.
Defined.

(* ================================================================= *)
(** ** More on the kernels *)

Lemma kernel_unit_interval (name : string) (h : R -> Z -> F) (sg : R)
      (d : Z) :
  kernel_of name = Some h -> (0 < sg)%R -> (0 <= d)%Z ->
  exists r, h sg d = Fin r /\ (0 <= r <= 1)%R.
Proof.
  intros H Hsg Hd.
  assert (Hr : (0 <= IZR d)%R) by now apply IZR_le.
  assert (Hq : (0 <= sqrt (IZR d))%R) by apply sqrt_pos.
  assert (Hi : (0 < / (2 * sg))%R) by (apply Rinv_0_lt_compat; lra).
  unfold kernel_of in H.
  repeat match type of H with
         | (if ?c then _ else _) = _ => destruct c
         end; try discriminate; injection H as <-.
  - unfold bubble. destruct (Fleb _ _); eexists; (split; [reflexivity|lra]).
  - rewrite linear_fin by assumption. eexists; split; [reflexivity|].
    unfold Rmin, Rbasic_fun.Rmax.
    destruct (Rle_dec (1 - sqrt (IZR d) / sg) 0);
      match goal with |- context [Rle_dec ?a 1] => destruct (Rle_dec a 1) end;
      lra.
  - rewrite exponential_fin by assumption. apply np_exp_unit.
    unfold Rdiv; nra.
  - rewrite gaussian_fin by assumption. apply np_exp_unit.
    unfold Rdiv; nra.
Qed.

(** X11.  For each of the four families, on a lattice as the constructor
    builds it, the kernel tensor that [make_kernels] stores is symmetric,
    [K[e,i,j] = K[e,j,i]], at every epoch; and at an epoch of positive
    radius every weight is a finite number between [0] and [1]. *)
Theorem kernels_symmetric_in_unit_interval :
  forall (s : SOM) (k : nat) (h : R -> Z -> F) (sigs : list R)
         (out : list string),
    kernel_of (neighbourhood s) = Some h ->
    lattice_distances (n_cols s) k (d2mat s) ->
    sigs_of s = inr sigs ->
    make_kernels s out =
      (inr tt, set_kernels (Some (kernel_tensor h sigs (d2mat s))) s, out) /\
    forall e i j,
      (e < length sigs)%nat -> (i < k)%nat -> (j < k)%nat ->
      kernel_entry (kernel_tensor h sigs (d2mat s)) e i j
      = kernel_entry (kernel_tensor h sigs (d2mat s)) e j i /\
      ((0 < nth e sigs 0)%R ->
       exists r,
         kernel_entry (kernel_tensor h sigs (d2mat s)) e i j = Fin r /\
         (0 <= r <= 1)%R).
Proof.
  intros s k h sigs out Hfam [Hlen Hlat] Hs.
  split; [rewrite make_kernels_spec, Hs, Hfam; reflexivity|].
  intros e i j He Hi Hj.
  destruct (Hlat i j Hi Hj) as (Hrow & _ & _ & Hsym & Hnn).
  destruct (Hlat j i Hj Hi) as (Hrow' & _).
  rewrite !kernel_tensor_entry by (rewrite ?Hrow, ?Hrow'; lia).
  split; [now rewrite Hsym|].
  intros Hpos. now apply (kernel_unit_interval (neighbourhood s)).
Qed.

Lemma kernels_symmetric_in_unit_interval_witness :
  exists sigs,
    sigs_of (som_1x2 "linear" 2 two_neurons) = inr sigs /\
    kernel_entry (kernel_tensor linear sigs
                    (d2mat (som_1x2 "linear" 2 two_neurons))) 1 0 1
    = kernel_entry (kernel_tensor linear sigs
                      (d2mat (som_1x2 "linear" 2 two_neurons))) 1 1 0.
Proof.
  destruct (sigs_of_nonneg (som_1x2 "linear" 2 two_neurons))
    as (sigs & Hs & Hl); [simpl; lia|].
  exists sigs. split; [exact Hs|].
  destruct (kernels_symmetric_in_unit_interval
              (som_1x2 "linear" 2 two_neurons) 2 linear sigs [])
    as [_ H].
  - reflexivity.
  - exact (make_d2mat_lattice 1 2 ltac:(lia)).
  - exact Hs.
  - destruct (H 1%nat 0%nat 1%nat) as [E _]; try lia.
    + rewrite Hl. simpl. lia.
    + exact E.
Defined.

(* ================================================================= *)
(** ** The default radius *)

Lemma lattice_entry_bound (rows cols : Z) (i j : nat) :
  (1 <= rows)%Z -> (1 <= cols)%Z ->
  (i < Z.to_nat (rows * cols))%nat -> (j < Z.to_nat (rows * cols))%nat ->
  (0 <= entry (make_d2mat rows cols) i j
   <= (cols - 1) ^ 2 + (rows - 1) ^ 2)%Z.
Proof.
  intros Hr Hc Hi Hj.
  destruct (make_d2mat_lattice rows cols Hc) as [_ H].
  destruct (H i j Hi Hj) as (_ & -> & _).
  assert (Hi' : (0 <= Z.of_nat i < cols * rows)%Z) by lia.
  assert (Hj' : (0 <= Z.of_nat j < cols * rows)%Z) by lia.
  pose proof (Z.div_pos (Z.of_nat i) cols ltac:(lia) ltac:(lia)).
  pose proof (Z.div_pos (Z.of_nat j) cols ltac:(lia) ltac:(lia)).
  pose proof (Z.div_lt_upper_bound (Z.of_nat i) cols rows ltac:(lia)
                ltac:(lia)).
  pose proof (Z.div_lt_upper_bound (Z.of_nat j) cols rows ltac:(lia)
                ltac:(lia)).
  pose proof (Z.mod_pos_bound (Z.of_nat i) cols ltac:(lia)).
  pose proof (Z.mod_pos_bound (Z.of_nat j) cols ltac:(lia)).
  split; nia.
Qed.

Lemma lattice_entry_corner (rows cols : Z) :
  (1 <= rows)%Z -> (1 <= cols)%Z ->
  entry (make_d2mat rows cols) 0 (Z.to_nat (rows * cols) - 1)
  = ((cols - 1) ^ 2 + (rows - 1) ^ 2)%Z.
Proof.
  intros Hr Hc.
  destruct (make_d2mat_lattice rows cols Hc) as [_ H].
  destruct (H 0%nat (Z.to_nat (rows * cols) - 1)%nat) as (_ & -> & _);
    try nia.
  replace (Z.of_nat (Z.to_nat (rows * cols) - 1))
    with ((rows - 1) * cols + (cols - 1))%Z by nia.
  assert (Hq : (((rows - 1) * cols + (cols - 1)) / cols = rows - 1)%Z).
  { symmetry. apply (Z.div_unique _ cols (rows - 1) (cols - 1)); lia. }
  assert (Hm : (((rows - 1) * cols + (cols - 1)) mod cols = cols - 1)%Z).
  { symmetry. apply (Z.mod_unique _ cols (rows - 1) (cols - 1)); lia. }
  rewrite Hq, Hm.
  change (Z.of_nat 0) with 0%Z.
  rewrite Z.div_0_l, Z.mod_0_l by lia. nia.
Qed.

(** X12.  The default [Rmax] is the largest distance of the lattice, as
    the comment in [__init__] says: for [rows, cols >= 1] no pair of
    neurons is farther apart than [Rmax], and the first and the last
    neuron are exactly that far apart. *)
Theorem default_Rmax_is_largest_distance :
  forall (rows cols : Z) (nb : string) (ne : Z) (h0 hN : R) (ini : string),
    (1 <= rows)%Z -> (1 <= cols)%Z ->
    exists s,
      SOM_init rows cols nb ne h0 hN None ini = inr s /\
      (forall i j, (i < Z.to_nat (rows * cols))%nat ->
                   (j < Z.to_nat (rows * cols))%nat ->
                   (sqrt (IZR (entry (d2mat s) i j)) <= Rmax s)%R) /\
      sqrt (IZR (entry (d2mat s) 0 (Z.to_nat (rows * cols) - 1))) = Rmax s.
Proof.
  intros rows cols nb ne h0 hN ini Hr Hc.
  eexists. split; [reflexivity|]. simpl. split.
  - intros i j Hi Hj. apply sqrt_le_1_alt. apply IZR_le.
    apply (lattice_entry_bound rows cols i j); assumption.
  - now rewrite lattice_entry_corner.
Qed.

Lemma default_Rmax_is_largest_distance_witness :
  exists s,
    SOM_default 3 4 = inr s /\
    (sqrt (IZR (entry (d2mat s) 2 7)) <= Rmax s)%R /\
    sqrt (IZR (entry (d2mat s) 0 11)) = Rmax s.
Proof.
  destruct (default_Rmax_is_largest_distance 3 4 "gaussian" 10 (1 / 2)
              (1 / 100) "pca") as (s & Hs & Hle & Heq); [lia | lia |].
  exists s. split; [exact Hs|]. split.
  - apply Hle; simpl; lia.
  - exact Heq.
Defined.

(* ================================================================= *)
(** ** Weights within the range of the data *)

Lemma centroid_bounds (Ke : matrix) (g : list F -> nat) (j c : nat)
      (lo hi : R) (X : matrix) :
  (forall x, In x X ->
     exists r, nth c x NaN = Fin r /\ (lo <= r <= hi)%R) ->
  (forall x, In x X ->
     exists w, nth j (nth (g x) Ke []) NaN = Fin w /\ (0 < w)%R) ->
  exists n d,
    centroid_num Ke X (map g X) j c = Fin n /\
    centroid_den Ke (map g X) j = Fin d /\
    (0 <= d)%R /\ (X <> [] -> 0 < d)%R /\ (lo * d <= n <= hi * d)%R.
Proof.
  induction X as [|x X IH]; intros Hx Hw.
  - exists 0%R, 0%R. repeat split; try reflexivity; try lra. congruence.
  - destruct IH as (n & d & En & Ed & Hd & _ & Hb);
      [intros; apply Hx; now right | intros; apply Hw; now right |].
    destruct (Hx x (or_introl eq_refl)) as (r & Er & Hr).
    destruct (Hw x (or_introl eq_refl)) as (w & Ew & Hw0).
    exists (r * w + n)%R, (w + d)%R.
    unfold centroid_num, centroid_den, Fsum in *.
    cbn [map combine fold_right fst snd].
    rewrite Er, Ew, En, Ed.
    split; [reflexivity|]. split; [reflexivity|].
    split; [lra|]. split; [intros _; lra|]. nra.
Qed.

(** One epoch with a positive kernel puts every weight in the range of
    the data, whatever the codebook was. *)
Lemma next_codebook_within_range (Ke X W : matrix) (k f : nat)
      (lo hi : nat -> R) :
  length W = k -> (0 < k)%nat -> X <> [] -> rows_of_length f X ->
  length Ke = k -> rows_of_length k Ke ->
  positive_matrix k Ke -> within_range lo hi (length X) f X ->
  within_range lo hi k f (next_codebook Ke X W).
Proof.
  intros Hk Hpos HXne HX HlKe HKe HKpos HXr j c Hj Hc.
  assert (HWne : W <> []) by (destruct W; [simpl in Hk; lia | discriminate]).
  unfold next_codebook. rewrite Hk, (n_columns_rows f X HXne HX).
  assert (Hbk : Forall (fun bn => (bn < length Ke)%nat) (map (bmu_of W) X)).
  { apply Forall_map. rewrite Forall_forall. intros x _.
    rewrite HlKe, <- Hk. now apply bmu_of_bound. }
  rewrite (update_weights_entry Ke X (map (bmu_of W) X) k f HX Hbk HKe
             j c Hj Hc).
  destruct (centroid_bounds Ke (bmu_of W) j c (lo c) (hi c) X)
    as (n & d & En & Ed & _ & Hd & Hb).
  - intros x Hin. destruct (In_nth X x [] Hin) as (i & Hi & <-).
    now apply HXr.
  - intros x Hin. apply HKpos; [|exact Hj].
    rewrite <- Hk. now apply bmu_of_bound.
  - rewrite En, Ed. specialize (Hd HXne). unfold Fdiv.
    destruct (Req_dec_T d 0) as [E0|E0]; [lra|].
    exists (n / d)%R. split; [reflexivity|].
    assert (Hq : (n = (n / d) * d)%R) by (field; lra).
    set (q := (n / d)%R) in *. split; nra.
Qed.

Section RangeTraining.
Variables (X : matrix) (K : list matrix) (k f : nat) (lo hi : nat -> R).
Hypothesis Hpos : (0 < k)%nat.
Hypothesis HXne : X <> [].
Hypothesis HX : rows_of_length f X.
Hypothesis HK : kernel_shape k K.
Hypothesis HKpos : Forall (positive_matrix k) K.
Hypothesis HXr : within_range lo hi (length X) f X.

Lemma positive_kernel_nth (i : nat) :
  (i < length K)%nat ->
  length (nth i K []) = k /\ rows_of_length k (nth i K []) /\
  positive_matrix k (nth i K []).
Proof.
  intros Hi. unfold kernel_shape in HK. rewrite Forall_forall in HK, HKpos.
  assert (Hin : In (nth i K []) K) by now apply nth_In.
  destruct (HK _ Hin). auto.
Qed.

Lemma train_codebook_keeps_range (n i : nat) (W : matrix) :
  (i + n <= length K)%nat -> length W = k ->
  within_range lo hi k f W ->
  within_range lo hi k f (train_codebook K X n i W).
Proof.
  revert i W; induction n as [|n IH]; intros i W Hin Hk HW;
    cbn [train_codebook]; auto.
  destruct (positive_kernel_nth i) as (H1 & H2 & H3); [lia|].
  apply IH; [lia | |].
  - now apply (next_codebook_shape (nth i K []) X W k f).
  - now apply next_codebook_within_range.
Qed.

Lemma train_codebook_within_range (n i : nat) (W : matrix) :
  (1 <= n)%nat -> (i + n <= length K)%nat -> length W = k ->
  within_range lo hi k f (train_codebook K X n i W).
Proof.
  intros Hn Hin Hk. destruct n as [|n]; [lia|]. cbn [train_codebook].
  destruct (positive_kernel_nth i) as (H1 & H2 & H3); [lia|].
  apply train_codebook_keeps_range; [lia | |].
  - now apply (next_codebook_shape (nth i K []) X W k f).
  - now apply next_codebook_within_range.
Qed.
End RangeTraining.

Lemma nonneg_entry (d2 : list (list Z)) (i j : nat) :
  Forall (Forall (fun d => (0 <= d)%Z)) d2 ->
  (i < length d2)%nat -> (j < length (nth i d2 []))%nat ->
  (0 <= nth j (nth i d2 []) 0)%Z.
Proof.
  intros H Hi Hj. rewrite Forall_forall in H.
  specialize (H (nth i d2 []) (nth_In _ _ Hi)).
  rewrite Forall_forall in H. apply H. now apply nth_In.
Qed.

Lemma sqrt_le_self (d : Z) : (0 <= d)%Z -> (sqrt (IZR d) <= IZR d)%R.
Proof.
  intros Hd. destruct (Z.eq_dec d 0) as [->|Hne]; [rewrite sqrt_0; lra|].
  assert (H1 : (1 <= IZR d)%R) by (apply IZR_le; lia).
  assert (Hs : (1 <= sqrt (IZR d))%R)
    by (rewrite <- sqrt_1; apply sqrt_le_1_alt; lra).
  pose proof (sqrt_sqrt (IZR d) ltac:(lra)) as E.
  assert (H : (0 <= sqrt (IZR d) * (sqrt (IZR d) - 1))%R)
    by (apply Rmult_le_pos; lra).
  lra.
Qed.

(** The gaussian and exponential kernels of positive radii are positive
    wherever the exponent stays far from the underflow of [np.exp]: here
    for squared lattice distances up to [600] times the radius. *)
Lemma smooth_kernel_positive (nb : string) (h : R -> Z -> F)
      (sigs : list R) (d2 : list (list Z)) (k : nat) :
  (nb = "gaussian" \/ nb = "exponential")%string ->
  kernel_of nb = Some h ->
  (forall e, (e < length sigs)%nat -> (0 < nth e sigs 0)%R) ->
  length d2 = k -> rows_of_length k d2 ->
  Forall (Forall (fun d => (0 <= d)%Z)) d2 ->
  (forall e, (e < length sigs)%nat ->
     Forall (Forall (fun d => (IZR d <= 600 * nth e sigs 0)%R)) d2) ->
  Forall (positive_matrix k) (kernel_tensor h sigs d2).
Proof.
  intros Hnb Hh Hs Hl Hr Hd Hb. unfold kernel_tensor.
  apply Forall_map. rewrite Forall_forall. intros sg Hsg.
  destruct (In_nth sigs sg 0%R Hsg) as (e & He & <-).
  specialize (Hs e He). specialize (Hb e He). intros i j Hi Hj.
  assert (Hrow : length (nth i d2 []) = k).
  { unfold rows_of_length in Hr. rewrite Forall_forall in Hr.
    apply Hr. apply nth_In. lia. }
  rewrite (map_nth_in _ d2 [] []) by lia.
  rewrite (map_nth_in _ _ 0%Z NaN) by lia.
  set (d := nth j (nth i d2 []) 0%Z).
  assert (Hd0 : (0 <= d)%Z) by (apply nonneg_entry; auto; lia).
  assert (Hdb : (IZR d <= 600 * nth e sigs 0)%R).
  { rewrite Forall_forall in Hb.
    assert (Hin : In (nth i d2 []) d2) by (apply nth_In; lia).
    specialize (Hb _ Hin).
    rewrite Forall_forall in Hb. apply Hb. apply nth_In. lia. }
  assert (Hd0' : (0 <= IZR d)%R) by (apply IZR_le in Hd0; exact Hd0).
  assert (Hinv : (0 < / (2 * nth e sigs 0))%R)
    by (apply Rinv_0_lt_compat; lra).
  assert (Hq : (IZR d / (2 * nth e sigs 0) <= 300)%R).
  { apply (Rmult_le_reg_r (2 * nth e sigs 0)%R); [lra|].
    unfold Rdiv. rewrite Rmult_assoc, Rinv_l by lra. lra. }
  destruct Hnb as [-> | ->]; injection Hh as <-.
  - rewrite (gaussian_fin _ Hs).
    destruct (np_exp_positive (- (IZR d / (2 * nth e sigs 0)))%R) as [E P];
      [lra | unfold Rdiv; nra |].
    rewrite E. eauto.
  - rewrite (exponential_fin _ Hs) by exact Hd0.
    pose proof (sqrt_le_self d Hd0) as Hsq.
    pose proof (sqrt_pos (IZR d)) as Hsp.
    assert (Hq' : (sqrt (IZR d) / (2 * nth e sigs 0) <= 300)%R).
    { apply (Rmult_le_reg_r (2 * nth e sigs 0)%R); [lra|].
      unfold Rdiv. rewrite Rmult_assoc, Rinv_l by lra. lra. }
    destruct (np_exp_positive (- (sqrt (IZR d) / (2 * nth e sigs 0)))%R)
      as [E P]; [lra | unfold Rdiv; nra |].
    rewrite E. eauto.
Qed.

(** On a lattice whose squared distances do not exceed [300], with an
    initial radius of at least [0.5], no weight of the gaussian or the
    exponential kernel underflows: all are positive. *)
Lemma small_lattice_positive (s : SOM) (h : R -> Z -> F) (sigs : list R)
      (k : nat) :
  (neighbourhood s = "gaussian" \/
   neighbourhood s = "exponential")%string ->
  kernel_of (neighbourhood s) = Some h ->
  sigs_of s = inr sigs ->
  (1 <= n_epochs s)%Z -> (1 / 2 <= Rmax s)%R ->
  length (d2mat s) = k -> rows_of_length k (d2mat s) ->
  Forall (Forall (fun d => (0 <= d <= 300)%Z)) (d2mat s) ->
  Forall (positive_matrix k) (kernel_tensor h sigs (d2mat s)).
Proof.
  intros Hnb Hh Hs Hn HR Hd Hdr Hb.
  assert (Hlo : forall e, (e < length sigs)%nat -> (1 / 2 <= nth e sigs 0)%R).
  { intros e He. unfold sigs_of in Hs.
    pose proof (linspace_length _ _ _ sigs Hs) as Hl.
    destruct (linspace_between (Rmax s) (1 / 2) (n_epochs s) sigs e Hn Hs)
      as [H _]; [lia|].
    unfold Rmin in H. destruct (Rle_dec (Rmax s) (1 / 2)); lra. }
  apply (smooth_kernel_positive (neighbourhood s)); auto.
  - intros e He. specialize (Hlo e He). lra.
  - eapply Forall_impl; [|exact Hb]. intros row Hrow.
    eapply Forall_impl; [|exact Hrow]. intros d Hd0. simpl in Hd0. lia.
  - intros e He. specialize (Hlo e He).
    eapply Forall_impl; [|exact Hb]. intros row Hrow.
    eapply Forall_impl; [|exact Hrow]. intros d Hd0. simpl in Hd0.
    assert (IZR d <= 300)%R by (apply IZR_le; lia). lra.
Qed.

(** Training with kernels of positive weights keeps every weight of the
    codebook between the bounds of the data. *)
Lemma positive_kernel_fit (s : SOM) (X W0 : matrix) (h : R -> Z -> F)
      (sigs : list R) (k f : nat) (lo hi : nat -> R) (out : list string) :
  initialises s X ->
  kernel_of (neighbourhood s) = Some h ->
  sigs_of s = inr sigs ->
  (1 <= n_epochs s)%Z ->
  Forall (positive_matrix k) (kernel_tensor h sigs (d2mat s)) ->
  length (d2mat s) = k -> rows_of_length k (d2mat s) -> (0 < k)%nat ->
  X <> [] -> rows_of_length f X ->
  within_range lo hi (length X) f X ->
  length W0 = k -> rows_of_length f W0 ->
  let K := kernel_tensor h sigs (d2mat s) in
  let Wn := train_codebook K X (Z.to_nat (n_epochs s)) 0 W0 in
  fit X W0 s out = (inr tt, fitted (set_wts (Some W0) s) K X Wn, out) /\
  length Wn = k /\ rows_of_length f Wn /\ within_range lo hi k f Wn.
Proof.
  intros Hini Hh Hs Hn HKpos Hd Hdr Hpos HXne HX HXr Hk HW K Wn.
  pose proof (fit_spec s X W0 h sigs k f out Hini Hh Hs Hd Hdr Hpos
                HXne HX Hk HW) as Hfit.
  cbv zeta in Hfit. fold K in Hfit, HKpos. fold Wn in Hfit.
  assert (Hls : length sigs = Z.to_nat (n_epochs s))
    by exact (linspace_length _ _ _ sigs Hs).
  assert (HK : kernel_shape k K) by now apply kernel_tensor_shape.
  assert (HlK : length K = Z.to_nat (n_epochs s))
    by (unfold K, kernel_tensor; now rewrite length_map).
  destruct (train_codebook_shape X K k f Hpos HXne HX HK
              (Z.to_nat (n_epochs s)) 0 W0) as [H1 H2]; auto; try lia.
  split; [exact Hfit|]. split; [exact H1|]. split; [exact H2|].
  apply train_codebook_within_range; auto; lia.
Qed.

Lemma moderate_rows_finite (W : matrix) :
  Forall (Forall moderate) W -> Forall finite_row W.
Proof.
  intros H. eapply Forall_impl; [|exact H]. intros w Hw.
  unfold finite_row. eapply Forall_impl; [|exact Hw].
  intros v (r & -> & _). eauto.
Qed.

Lemma within_range_moderate (lo hi : nat -> R) (k f : nat) (W : matrix) :
  length W = k -> rows_of_length f W -> within_range lo hi k f W ->
  (forall c, (-1024 <= lo c)%R /\ (hi c <= 1024)%R) ->
  Forall (Forall moderate) W.
Proof.
  intros Hk HW Hr Hb. rewrite Forall_forall. intros w Hw.
  destruct (In_nth W w [] Hw) as (j & Hj & <-).
  rewrite Forall_forall. intros v Hv.
  destruct (In_nth _ v NaN Hv) as (c & Hc & <-).
  unfold rows_of_length in HW. rewrite Forall_forall in HW.
  rewrite (HW _ (nth_In _ _ Hj)) in Hc.
  destruct (Hr j c ltac:(lia) Hc) as (r & -> & Hlo & Hhi).
  destruct (Hb c) as [H1 H2]. apply moderate_small. lra.
Qed.


Lemma sigs_1x2_three_epochs (s : SOM) :
  Rmax s = sqrt 1 -> n_epochs s = 3%Z ->
  sigs_of s = inr [1%R; (3 / 4)%R; (1 / 2)%R].
Proof.
  intros Hr Hn. unfold sigs_of, linspace. rewrite Hr, Hn. simpl.
  rewrite sqrt_1. do 2 f_equal; [lra|]. f_equal. lra.
Qed.

(** The running example: three samples on the 1 x 2 lattice, gaussian
    kernel, three epochs. *)
Lemma example_positive_kernels (ini : string) (W : option matrix)
      (Ks : option (list matrix)) :
  Forall (positive_matrix 2)
         (kernel_tensor gaussian [1%R; (3 / 4)%R; (1 / 2)%R]
                        (d2mat (som_1x2_with "gaussian" ini 3 W Ks))).
Proof.
  apply (small_lattice_positive (som_1x2_with "gaussian" ini 3 W Ks)).
  - left; reflexivity.
  - reflexivity.
  - apply sigs_1x2_three_epochs; reflexivity.
  - simpl; lia.
  - unfold som_1x2_with; cbn [Rmax].
    replace ((2 - 1) ^ 2 + (1 - 1) ^ 2)%Z with 1%Z by reflexivity.
    rewrite sqrt_1. lra.
  - reflexivity.
  - repeat constructor.
  - change (d2mat (som_1x2_with "gaussian" ini 3 W Ks))
      with (make_d2mat 1 2).
    replace (make_d2mat 1 2) with [[0; 1]; [1; 0]]%Z by reflexivity.
    repeat constructor; lia.
Qed.

Lemma three_samples_within_range :
  within_range (fun _ => 1%R) (fun _ => 9%R) (length three_samples) 2
               three_samples.
Proof.
  intros j c Hj Hc.
  destruct j as [|[|[|j]]]; destruct c as [|[|c]];
    try (simpl in Hj, Hc; lia);
    eexists; (split; [reflexivity | simpl; lra]).
Qed.

Lemma example_codebook_moderate (W : option matrix)
      (Ks : option (list matrix)) :
  Forall (Forall moderate)
         (trained_codebook (som_1x2_with "gaussian" "random" 3 W Ks)
                           gaussian [1%R; (3 / 4)%R; (1 / 2)%R]
                           three_samples two_neurons).
Proof.
  destruct (positive_kernel_fit
              (som_1x2_with "gaussian" "random" 3 W Ks)
              three_samples two_neurons gaussian
              [1%R; (3 / 4)%R; (1 / 2)%R] 2 2
              (fun _ => 1%R) (fun _ => 9%R) [])
    as (_ & H1 & H2 & H3).
  - left; split; [reflexivity | simpl; lia].
  - reflexivity.
  - apply sigs_1x2_three_epochs; reflexivity.
  - simpl; lia.
  - apply example_positive_kernels.
  - reflexivity.
  - repeat constructor.
  - lia.
  - discriminate.
  - repeat constructor.
  - exact three_samples_within_range.
  - reflexivity.
  - repeat constructor.
  - apply (within_range_moderate (fun _ => 1%R) (fun _ => 9%R) 2 2);
      auto.
    intros _. lra.
Qed.

Lemma predict_returns_training_bmus_witness :
  exists s' b,
    fit three_samples two_neurons
        (som_1x2_with "gaussian" "pca" 3 None None) [] = (inr tt, s', []) /\
    bmus s' = Some b /\
    calc_BMUs three_samples s' [] = (inr b, s', []) /\
    predict [] s' [] = (inr (Some b), s', []) /\
    predict three_samples (som_1x2_with "gaussian" "pca" 3 None None) [] =
      (inr None, som_1x2_with "gaussian" "pca" 3 None None,
       ["Train SOM before classifying"%string]).
Proof.
  assert (E : exists s',
             fit three_samples two_neurons
                 (som_1x2_with "gaussian" "pca" 3 None None) []
             = (inr tt, s', [])).
  { eexists.
    apply (fit_spec (som_1x2_with "gaussian" "pca" 3 None None)
             three_samples two_neurons gaussian
             [1%R; (3 / 4)%R; (1 / 2)%R] 2 2 []).
    - right. split; [reflexivity|]. split; [simpl; lia|].
      split; [simpl; lia|]. split; [vm_compute; lia|].
      split; [vm_compute; discriminate|].
      repeat constructor; apply moderate_small; lra.
    - reflexivity.
    - apply sigs_1x2_three_epochs; reflexivity.
    - reflexivity.
    - repeat constructor.
    - lia.
    - discriminate.
    - repeat constructor.
    - reflexivity.
    - repeat constructor. }
  destruct E as [s' E].
  destruct predict_returns_training_bmus as (Hfit & Hnone & _).
  destruct (Hfit (som_1x2_with "gaussian" "pca" 3 None None) s'
              three_samples two_neurons [] [] (or_intror eq_refl) E)
    as (W & b & _ & Hb & Hc & Hp).
  exists s', b. split; [exact E|].
  split; [exact Hb|]. split; [exact Hc|]. split; [exact (Hp [] [])|].
  apply Hnone. reflexivity.
Defined.


(* ================================================================= *)
(** * Further properties of the clusterer *)

Lemma super_inr {A} (m : M SOM A) (c : SOM_cluster) (s' : SOM) (a : A)
      (out out' : list string) :
  m (base c) out = (inr a, s', out') ->
  super m c out = (inr a, set_base s' c, out').
Proof. unfold super, zoom. intros ->. reflexivity. Qed.

Lemma set_base_same (c : SOM_cluster) : set_base (base c) c = c.
Proof. destruct c; reflexivity. Qed.

Lemma forallb_repeat_nan (n : nat) : forallb Fis_nan (repeat NaN n) = true.
Proof. induction n; simpl; auto. Qed.

(** X13.  For dimensions of magnitude up to [2^31], the constructor of
    the clusterer raises [ValueError] exactly when [n_rows * n_cols] is
    negative (the base constructor returns on that range).  Otherwise it
    returns a clusterer with one unset label per neuron, on which
    [predict] prints the not-fitted message and returns [None] for every
    argument, leaving the object as it is.  With [Rmax=None] and
    [(n_cols-1)^2 + (n_rows-1)^2 >= 2^64] it raises the [TypeError] of the
    base constructor. *)
Theorem SOM_cluster_init_and_unfitted_predict :
  forall (nc rows cols : Z) (nb : string) (ne : Z) (h0 hN : R)
         (rm : option R) (ini : string),
    ((Z.abs rows <= 2 ^ 31)%Z -> (Z.abs cols <= 2 ^ 31)%Z ->
     (rows * cols < 0)%Z ->
     SOM_cluster_new nc rows cols nb ne h0 hN rm ini = inl ValueError) /\
    ((Z.abs rows <= 2 ^ 31)%Z -> (Z.abs cols <= 2 ^ 31)%Z ->
     (0 <= rows * cols)%Z ->
     exists c,
       SOM_cluster_new nc rows cols nb ne h0 hN rm ini = inr c /\
       SOM_new rows cols nb ne h0 hN rm ini = inr (base c) /\
       n_clusters c = nc /\
       neuron_to_label c = repeat NaN (Z.to_nat (rows * cols)) /\
       labels_ c = None /\
       forall X out,
         cluster_predict X c out =
         (inr None, c,
          (out ++ ["Fit SOM clusterer/classifier before predicting"%string])
            %list)) /\
    ((2 ^ 64 <= (cols - 1) ^ 2 + (rows - 1) ^ 2)%Z ->
     SOM_cluster_new nc rows cols nb ne h0 hN None ini = inl TypeError).
Proof.
  intros nc rows cols nb ne h0 hN rm ini.
  split; [|split].
  - intros Hr Hc H. unfold SOM_cluster_new.
    rewrite SOM_new_in_range by now apply machine_range_diagonal.
    unfold SOM_init, res_bind.
    assert (E : (cols * rows <? 0)%Z = true) by (apply Z.ltb_lt; lia).
    now rewrite E.
  - intros Hr Hc H. unfold SOM_cluster_new.
    rewrite SOM_new_in_range by now apply machine_range_diagonal.
    unfold SOM_init, res_bind.
    assert (E : (cols * rows <? 0)%Z = false) by (apply Z.ltb_ge; lia).
    rewrite E. eexists. split; [reflexivity|]. simpl.
    split; [reflexivity|]. split; [reflexivity|].
    split; [now rewrite Z.mul_comm|]. split; [reflexivity|].
    intros X out. unfold cluster_predict, bind, get.
    cbn [neuron_to_label]. rewrite forallb_repeat_nan. reflexivity.
  - intros H. unfold SOM_cluster_new, SOM_new, np_sqrt_int.
    assert (E : ((cols - 1) ^ 2 + (rows - 1) ^ 2 <? 2 ^ 64)%Z = false)
      by (apply Z.ltb_ge; exact H).
    now rewrite E.
Qed.

Lemma SOM_cluster_init_and_unfitted_predict_witness :
  SOM_cluster_new 3 (-1) 2 "gaussian" 10 (1 / 2) (1 / 100) None "pca"
    = inl ValueError /\
  (exists c,
    SOM_cluster_new 3 (-1) (-2) "gaussian" 10 (1 / 2) (1 / 100) None "pca"
      = inr c /\
    neuron_to_label c = [NaN; NaN] /\
    cluster_predict three_samples c [] =
      (inr None, c,
       ["Fit SOM clusterer/classifier before predicting"%string])) /\
  SOM_cluster_new 3 0 (2 ^ 32 + 1) "gaussian" 10 (1 / 2) (1 / 100) None "pca"
    = inl TypeError.
Proof.
  split; [|split].
  - destruct (SOM_cluster_init_and_unfitted_predict 3 (-1) 2 "gaussian"
                10 (1 / 2) (1 / 100) None "pca") as (H & _).
    apply H; simpl; lia.
  - destruct (SOM_cluster_init_and_unfitted_predict 3 (-1) (-2) "gaussian"
                10 (1 / 2) (1 / 100) None "pca") as (_ & H & _).
    destruct H as (c & Hc & _ & _ & Hl & _ & Hp);
      [simpl; lia | simpl; lia | simpl; lia |].
    exists c. split; [exact Hc|]. split; [exact Hl|].
    exact (Hp three_samples []).
  - destruct (SOM_cluster_init_and_unfitted_predict 3 0 (2 ^ 32 + 1)
                "gaussian" 10 (1 / 2) (1 / 100) None "pca") as (_ & _ & H).
    apply H. vm_compute. discriminate.
Defined.

(** X14.  Once some neuron has a label, [predict] of the clusterer
    assigns fresh BMUs: for samples with as many features as the codebook
    it returns, per sample, the label of the sample's nearest neuron in the
    current weights, and changes nothing.  (The base [predict] returns the
    stored training BMUs instead.) *)
Theorem cluster_predict_looks_up_labels :
  forall (c : SOM_cluster) (X W : matrix) (f : nat) (out : list string),
    forallb Fis_nan (neuron_to_label c) = false ->
    wts (base c) = Some W -> W <> [] ->
    rows_of_length f X -> rows_of_length f W ->
    length (neuron_to_label c) = length W ->
    cluster_predict X c out =
    (inr (Some (map (fun x => nth (bmu_of W x) (neuron_to_label c) NaN) X)),
     c, out).
Proof.
  intros c X W f out Hlab Hw HWne HX HW Hlen.
  unfold cluster_predict.
  erewrite bind_inr by reflexivity. rewrite Hlab.
  erewrite bind_inr
    by (apply super_inr; apply (calc_BMUs_spec (base c) X W f out);
        assumption).
  rewrite set_base_same.
  unfold bind, lift.
  rewrite (take_spec (neuron_to_label c) (map (bmu_of W) X) NaN).
  - now rewrite map_map.
  - apply Forall_map. rewrite Forall_forall. intros x _.
    rewrite Hlen. now apply bmu_of_bound.
Qed.

Lemma cluster_predict_looks_up_labels_witness :
  cluster_predict three_samples
    (mkSOM_cluster (som_1x2 "gaussian" 10 two_neurons) 2 [Fin 4; Fin 9]
                   None) [] =
  (inr (Some (map (fun x => nth (bmu_of two_neurons x) [Fin 4; Fin 9] NaN)
                  three_samples)),
   mkSOM_cluster (som_1x2 "gaussian" 10 two_neurons) 2 [Fin 4; Fin 9] None,
   []).
Proof.
  apply (cluster_predict_looks_up_labels
           (mkSOM_cluster (som_1x2 "gaussian" 10 two_neurons) 2
                          [Fin 4; Fin 9] None)
           three_samples two_neurons 2 []).
  - reflexivity.
  - reflexivity.
  - discriminate.
  - repeat constructor.
  - repeat constructor.
  - reflexivity.
Defined.

Lemma on_object_inr {St T A} (obj obj' : T) (m : M T A) (a : A) (s : St)
      (out out' : list string) :
  m obj out = (inr a, obj', out') ->
  on_object obj m s out = (inr (a, obj'), s, out').
Proof. unfold on_object. intros ->. reflexivity. Qed.

Lemma assign_all_same_length {A} (a src : list A) :
  length src = length a -> assign_all a src = inr src.
Proof. intros H. unfold assign_all. now rewrite H, Nat.eqb_refl. Qed.

(** Within its range, [SOM(1, n_clusters)] is the trainer with every
    default. *)
Lemma second_stage_in_range (c : SOM_cluster) :
  ((n_clusters c - 1) ^ 2 < 2 ^ 64)%Z ->
  second_stage c = inr (second_stage_som (n_clusters c)).
Proof.
  intros H. unfold second_stage.
  rewrite SOM_new_in_range; [reflexivity|].
  replace ((1 - 1) ^ 2)%Z with 0%Z by reflexivity. lia.
Qed.

(** The unsupervised branch runs [fit] of the second-stage trainer on the
    weights of the first stage: a failure of that [fit] is the failure of
    the branch, and its BMUs become the labels. *)
Lemma cluster_neurons_runs_second_stage (c : SOM_cluster) (W W1 : matrix)
      (out : list string) :
  wts (base c) = Some W ->
  ((n_clusters c - 1) ^ 2 < 2 ^ 64)%Z ->
  (forall e s2 out2,
      fit W W1 (second_stage_som (n_clusters c)) out = (inl e, s2, out2) ->
      cluster_neurons W1 c out = (inl e, c, out2)) /\
  (forall s2 out2 sb b,
      fit W W1 (second_stage_som (n_clusters c)) out = (inr tt, s2, out2) ->
      bmus s2 = Some sb ->
      length sb = length (neuron_to_label c) ->
      bmus (base c) = Some b ->
      Forall (fun bn => (bn < length sb)%nat) b ->
      cluster_neurons W1 c out =
      (inr tt,
       set_labels_ (Some (Arr1 (map (fun bn => nth bn sb 0%nat) b)))
         (set_neuron_to_label (map (fun j => FZ (Z.of_nat j)) sb) c),
       out2)).
Proof.
  intros Hw Hnc. pose proof (second_stage_in_range c Hnc) as Esom.
  split.
  - intros e s2 out2 Hfit. unfold cluster_neurons.
    erewrite bind_inr by reflexivity.
    erewrite bind_inr by (unfold lift; rewrite Esom; reflexivity).
    erewrite bind_inr by (unfold attr; rewrite Hw; reflexivity).
    apply bind_inl. unfold on_object. now rewrite Hfit.
  - intros s2 out2 sb b Hfit Hsb Hl Hb Hbb. unfold cluster_neurons.
    erewrite bind_inr by reflexivity.
    erewrite bind_inr by (unfold lift; rewrite Esom; reflexivity).
    erewrite bind_inr by (unfold attr; rewrite Hw; reflexivity).
    erewrite bind_inr by (apply on_object_inr; exact Hfit).
    erewrite bind_inr by (unfold lift; cbn [snd]; rewrite Hsb; reflexivity).
    erewrite bind_inr
      by (unfold lift; rewrite assign_all_same_length;
          [reflexivity | rewrite length_map; exact Hl]).
    erewrite bind_inr by reflexivity.
    rewrite Hb.
    erewrite bind_inr
      by (unfold lift; erewrite (take_spec _ _ 0%nat) by exact Hbb;
          reflexivity).
    reflexivity.
Qed.

(** C10.  In unsupervised mode, what [SOM_cluster.fit] does after the
    first stage is to run [fit] of the trainer [SOM(1, n_clusters)] on the
    first-stage weights: a trainer with one row, [n_clusters] columns,
    gaussian neighbourhood, ten epochs, the default [Rmax] of that lattice
    and PCA initialisation, whatever neighbourhood, [n_epochs], [Rmax] and
    [initial] the clusterer has.  If that [fit] raises, so does the call,
    with the first stage stored; if it returns, its BMUs (one per
    first-stage neuron) become the labels of the neurons, and each sample
    gets the label of its first-stage BMU. *)
Theorem second_stage_uses_defaults :
  forall (c : SOM_cluster) (X W0 W1 W : matrix) (s1 : SOM) (b : list nat)
         (out out1 : list string),
    fit X W0 (base c) out = (inr tt, s1, out1) ->
    wts s1 = Some W -> bmus s1 = Some b ->
    ((n_clusters c - 1) ^ 2 < 2 ^ 64)%Z ->
    exists som,
      SOM_new 1 (n_clusters c) "gaussian" 10 (1 / 2) (1 / 100) None "pca"
      = inr som /\
      n_rows som = 1%Z /\ n_cols som = n_clusters c /\
      neighbourhood som = "gaussian"%string /\ n_epochs som = 10%Z /\
      Rmax som = sqrt (IZR ((n_clusters c - 1) ^ 2 + (1 - 1) ^ 2)) /\
      initial som = "pca"%string /\
      wts som = None /\ kernels som = None /\
      (forall e s2 out2,
          fit W W1 som out1 = (inl e, s2, out2) ->
          cluster_fit X None W0 W1 c out = (inl e, set_base s1 c, out2)) /\
      (forall s2 out2 sb,
          fit W W1 som out1 = (inr tt, s2, out2) ->
          bmus s2 = Some sb ->
          length sb = length (neuron_to_label c) ->
          Forall (fun bn => (bn < length sb)%nat) b ->
          cluster_fit X None W0 W1 c out =
          (inr tt,
           set_labels_ (Some (Arr1 (map (fun bn => nth bn sb 0%nat) b)))
             (set_neuron_to_label (map (fun j => FZ (Z.of_nat j)) sb)
                (set_base s1 c)),
           out2)).
Proof.
  intros c X W0 W1 W s1 b out out1 Hfit Hw Hb Hnc.
  exists (second_stage_som (n_clusters c)).
  split.
  { rewrite SOM_new_in_range; [reflexivity|].
    replace ((1 - 1) ^ 2)%Z with 0%Z by reflexivity. lia. }
  do 8 (split; [reflexivity|]).
  destruct (cluster_neurons_runs_second_stage (set_base s1 c) W W1 out1 Hw Hnc)
    as [Hfail Hok].
  split.
  - intros e s2 out2 H2. unfold cluster_fit.
    rewrite (bind_inr (super_inr _ c _ _ _ _ Hfit)).
    exact (Hfail e s2 out2 H2).
  - intros s2 out2 sb H2 Hsb Hl Hbb. unfold cluster_fit.
    rewrite (bind_inr (super_inr _ c _ _ _ _ Hfit)).
    exact (Hok s2 out2 sb b H2 Hsb Hl Hb Hbb).
Qed.

(** Unsupervised [fit] of the clusterer, in one equation.  The second
    stage is initialised with PCA: its data, the first-stage codebook,
    needs two features or more and moderate finite values. *)
Lemma cluster_fit_unsupervised_spec (c : SOM_cluster) (X W0 W1 : matrix)
      (h : R -> Z -> F) (sigs : list R) (k f : nat) (out : list string) :
  initialises (base c) X ->
  kernel_of (neighbourhood (base c)) = Some h ->
  sigs_of (base c) = inr sigs ->
  length (d2mat (base c)) = k -> rows_of_length k (d2mat (base c)) ->
  (0 < k)%nat ->
  X <> [] -> rows_of_length f X ->
  length W0 = k -> rows_of_length f W0 ->
  (1 <= n_clusters c <= 2 ^ 31)%Z ->
  length W1 = Z.to_nat (n_clusters c) -> rows_of_length f W1 ->
  length (neuron_to_label c) = k ->
  (2 <= f)%nat -> (Z.of_nat k <= 2 ^ 20)%Z ->
  Forall (Forall moderate) (trained_codebook (base c) h sigs X W0) ->
  exists (s' : SOM) (sigs2 : list R) (sb : list nat),
    sigs_of (second_stage_som (n_clusters c)) = inr sigs2 /\
    sb = map (bmu_of (trained_codebook (second_stage_som (n_clusters c))
                        gaussian sigs2
                        (trained_codebook (base c) h sigs X W0) W1))
             (trained_codebook (base c) h sigs X W0) /\
    cluster_fit X None W0 W1 c out =
    (inr tt,
     set_labels_
       (Some (Arr1 (map (fun bn => nth bn sb 0%nat)
                        (map (bmu_of (trained_codebook (base c) h sigs X W0))
                             X))))
       (set_neuron_to_label (map (fun j => FZ (Z.of_nat j)) sb)
          (set_base s' c)),
     out) /\
    wts s' = Some (trained_codebook (base c) h sigs X W0) /\
    bmus s' = Some (map (bmu_of (trained_codebook (base c) h sigs X W0)) X) /\
    length (trained_codebook (base c) h sigs X W0) = k /\
    rows_of_length f (trained_codebook (base c) h sigs X W0) /\
    length sb = k /\
    Forall (fun j => (j < Z.to_nat (n_clusters c))%nat) sb.
Proof.
  intros Hini Hfam Hs Hd Hdr Hpos HXne HX Hk HW Hnc HlW1 HW1 Hl2n Hf Hk20
         Hmod.
  assert (Hls : length sigs = Z.to_nat (n_epochs (base c)))
    by exact (linspace_length _ _ _ sigs Hs).
  pose proof (fit_spec (base c) X W0 h sigs k f out Hini Hfam Hs Hd Hdr Hpos
                HXne HX Hk HW) as Hfit.
  cbv zeta in Hfit.
  change (train_codebook (kernel_tensor h sigs (d2mat (base c))) X
            (Z.to_nat (n_epochs (base c))) 0 W0)
    with (trained_codebook (base c) h sigs X W0) in Hfit.
  set (K := kernel_tensor h sigs (d2mat (base c))) in *.
  set (Wn := trained_codebook (base c) h sigs X W0) in *.
  assert (HK : kernel_shape k K) by now apply kernel_tensor_shape.
  assert (HlK : length K = Z.to_nat (n_epochs (base c)))
    by (unfold K, kernel_tensor; now rewrite length_map).
  destruct (train_codebook_shape X K k f Hpos HXne HX HK
              (Z.to_nat (n_epochs (base c))) 0 W0) as [HWn1 HWn2];
    auto; try lia.
  fold K in HWn1, HWn2.
  change (train_codebook K X (Z.to_nat (n_epochs (base c))) 0 W0)
    with Wn in HWn1, HWn2.
  assert (HWne : Wn <> [])
    by (destruct Wn; [simpl in HWn1; lia | discriminate]).
  set (s' := fitted (set_wts (Some W0) (base c)) K X Wn) in *.
  set (b := map (bmu_of Wn) X).
  set (c1 := set_base s' c).
  (* second stage *)
  set (nc := Z.to_nat (n_clusters c)) in *.
  set (som := second_stage_som (n_clusters c)).
  assert (Hbound : ((n_clusters c - 1) ^ 2 < 2 ^ 64)%Z).
  { change (2 ^ 31)%Z with 2147483648%Z in Hnc.
    change (2 ^ 64)%Z with 18446744073709551616%Z. nia. }
  destruct (sigs_of_nonneg som) as (sigs2 & Hs2 & Hls2); [simpl; lia|].
  assert (Hd2 : length (d2mat som) = nc).
  { unfold som. cbn [d2mat second_stage_som].
    rewrite make_d2mat_length. unfold nc. f_equal. lia. }
  assert (Hd2r : rows_of_length nc (d2mat som)).
  { unfold som. cbn [d2mat second_stage_som].
    replace nc with (Z.to_nat (1 * n_clusters c))
      by (unfold nc; f_equal; lia).
    apply make_d2mat_rows. }
  assert (Hini2 : initialises som Wn).
  { right. split; [reflexivity|]. split; [simpl; lia|].
    split; [simpl; lia|].
    split; [now rewrite (n_columns_rows f Wn HWne HWn2)|].
    split; [rewrite HWn1; exact Hk20 | exact Hmod]. }
  assert (Hnc' : (0 < nc)%nat) by (unfold nc; lia).
  pose proof (fit_spec som Wn W1 gaussian sigs2 nc f out Hini2 eq_refl Hs2
                Hd2 Hd2r Hnc' HWne HWn2 HlW1 HW1) as Hfit2.
  cbv zeta in Hfit2.
  change (train_codebook (kernel_tensor gaussian sigs2 (d2mat som)) Wn
            (Z.to_nat (n_epochs som)) 0 W1)
    with (trained_codebook som gaussian sigs2 Wn W1) in Hfit2.
  set (K2 := kernel_tensor gaussian sigs2 (d2mat som)) in *.
  set (W2 := trained_codebook som gaussian sigs2 Wn W1) in *.
  assert (HK2 : kernel_shape nc K2) by now apply kernel_tensor_shape.
  destruct (train_codebook_shape Wn K2 nc f Hnc' HWne HWn2 HK2
              (Z.to_nat (n_epochs som)) 0 W1) as [HW21 HW22]; auto.
  { unfold K2, kernel_tensor. rewrite length_map. lia. }
  fold K2 in HW21.
  change (train_codebook K2 Wn (Z.to_nat (n_epochs som)) 0 W1)
    with W2 in HW21.
  assert (HW2ne : W2 <> [])
    by (destruct W2; [simpl in HW21; lia | discriminate]).
  set (sb := map (bmu_of W2) Wn).
  assert (Hlsb : length sb = k) by (unfold sb; now rewrite length_map).
  assert (Hsb : Forall (fun j => (j < nc)%nat) sb).
  { apply Forall_map. rewrite Forall_forall. intros w _.
    rewrite <- HW21. now apply bmu_of_bound. }
  assert (Hb : Forall (fun bn => (bn < length sb)%nat) b).
  { apply Forall_map. rewrite Forall_forall. intros x _.
    rewrite Hlsb, <- HWn1. now apply bmu_of_bound. }
  exists s', sigs2, sb.
  split; [exact Hs2|]. split; [reflexivity|].
  split; [|repeat split; auto].
  destruct (cluster_neurons_runs_second_stage c1 Wn W1 out eq_refl Hbound)
    as [_ Hok].
  unfold cluster_fit.
  rewrite (bind_inr (super_inr _ c _ _ _ _ Hfit)). fold c1.
  apply (Hok _ out sb b Hfit2); auto.
  cbn [neuron_to_label c1 set_base]. congruence.
Qed.

(** X15.  Unsupervised [fit] of the clusterer completes on well-shaped
    input -- a lattice and data for which the first initialiser returns,
    a recognised neighbourhood, [1 <= n_clusters <= 2^31], and a
    first-stage codebook with at least two features, at most [2^20]
    neurons and moderate finite values, as the PCA initialiser of the
    second stage needs.  Every neuron gets as label the index of the unit
    nearest to its weight vector in the codebook that the second stage
    (gaussian, ten epochs, on the 1 x [n_clusters] lattice) trains on the
    first-stage weights; every sample gets the label of its first-stage
    BMU; and all these labels are below [n_clusters]. *)
Theorem cluster_fit_unsupervised :
  forall (c : SOM_cluster) (X W0 W1 : matrix) (h : R -> Z -> F)
         (sigs : list R) (k f : nat) (out : list string),
    initialises (base c) X ->
    kernel_of (neighbourhood (base c)) = Some h ->
    sigs_of (base c) = inr sigs ->
    length (d2mat (base c)) = k -> rows_of_length k (d2mat (base c)) ->
    (0 < k)%nat ->
    X <> [] -> rows_of_length f X ->
    length W0 = k -> rows_of_length f W0 ->
    (1 <= n_clusters c <= 2 ^ 31)%Z ->
    length W1 = Z.to_nat (n_clusters c) -> rows_of_length f W1 ->
    length (neuron_to_label c) = k ->
    (2 <= f)%nat -> (Z.of_nat k <= 2 ^ 20)%Z ->
    Forall (Forall moderate) (trained_codebook (base c) h sigs X W0) ->
    exists c' b sb sigs2,
      cluster_fit X None W0 W1 c out = (inr tt, c', out) /\
      wts (base c') = Some (trained_codebook (base c) h sigs X W0) /\
      bmus (base c') = Some b /\ length b = length X /\
      sigs_of (second_stage_som (n_clusters c)) = inr sigs2 /\
      sb = map (bmu_of (trained_codebook (second_stage_som (n_clusters c))
                          gaussian sigs2
                          (trained_codebook (base c) h sigs X W0) W1))
               (trained_codebook (base c) h sigs X W0) /\
      length sb = k /\
      Forall (fun j => (j < Z.to_nat (n_clusters c))%nat) sb /\
      neuron_to_label c' = map (fun j => FZ (Z.of_nat j)) sb /\
      labels_ c' = Some (Arr1 (map (fun bn => nth bn sb 0%nat) b)) /\
      Forall (fun l => (l < Z.to_nat (n_clusters c))%nat)
             (map (fun bn => nth bn sb 0%nat) b).
Proof.
  intros c X W0 W1 h sigs k f out Hini Hfam Hs Hd Hdr Hpos HXne HX Hk HW
         Hnc HlW1 HW1 Hl2n Hf Hk20 Hmod.
  destruct (cluster_fit_unsupervised_spec c X W0 W1 h sigs k f out Hini Hfam
              Hs Hd Hdr Hpos HXne HX Hk HW Hnc HlW1 HW1 Hl2n Hf Hk20 Hmod)
    as (s' & sigs2 & sb & Hs2 & Esb & Hrun & Hw & Hb & HWn1 & HWn2 & Hlsb
        & Hsb).
  set (Wn := trained_codebook (base c) h sigs X W0) in *.
  assert (HWne : Wn <> [])
    by (destruct Wn; [simpl in HWn1; lia | discriminate]).
  eexists. exists (map (bmu_of Wn) X), sb, sigs2.
  split; [exact Hrun|].
  split; [exact Hw|]. split; [exact Hb|]. split; [apply length_map|].
  split; [exact Hs2|]. split; [exact Esb|]. split; [exact Hlsb|].
  split; [exact Hsb|]. split; [reflexivity|]. split; [reflexivity|].
  apply Forall_map. apply Forall_map. rewrite Forall_forall. intros x _.
  rewrite Forall_forall in Hsb. apply Hsb. apply nth_In.
  rewrite Hlsb, <- HWn1. now apply bmu_of_bound.
Qed.

Lemma cluster_fit_unsupervised_witness :
  exists c' b sb,
    cluster_fit three_samples None two_neurons two_neurons
      (mkSOM_cluster (som_1x2_with "gaussian" "random" 3 None None) 2
                     [NaN; NaN] None) [] = (inr tt, c', []) /\
    bmus (base c') = Some b /\ length b = 3%nat /\
    neuron_to_label c' = map (fun j => FZ (Z.of_nat j)) sb /\
    labels_ c' = Some (Arr1 (map (fun bn => nth bn sb 0%nat) b)) /\
    Forall (fun l => (l < 2)%nat) (map (fun bn => nth bn sb 0%nat) b).
Proof.
  destruct (cluster_fit_unsupervised
              (mkSOM_cluster (som_1x2_with "gaussian" "random" 3 None None) 2
                             [NaN; NaN] None)
              three_samples two_neurons two_neurons gaussian
              [1%R; (3 / 4)%R; (1 / 2)%R] 2 2 [])
    as (c' & b & sb & sigs2 & H1 & _ & H2 & H3 & _ & _ & _ & _ & H6 & H7
        & H8).
  - left; split; [reflexivity | simpl; lia].
  - reflexivity.
  - apply sigs_1x2_three_epochs; reflexivity.
  - reflexivity.
  - repeat constructor.
  - lia.
  - discriminate.
  - repeat constructor.
  - reflexivity.
  - repeat constructor.
  - simpl; lia.
  - reflexivity.
  - repeat constructor.
  - reflexivity.
  - lia.
  - simpl; lia.
  - apply example_codebook_moderate.
  - exists c', b, sb. repeat (split; [assumption|]). exact H8.
Defined.

(** With PCA initialisation, data with fewer than two features stop
    [fit] at [eigvals[-1]] or [eigvals[-2]], before any weight is set. *)
Lemma fit_pca_needs_two_features (s : SOM) (X W0 : matrix)
      (out : list string) :
  initial s = "pca"%string -> (0 <= n_rows s)%Z -> (0 <= n_cols s)%Z ->
  (n_columns X < 2)%nat ->
  fit X W0 s out = (inl IndexError, s, out).
Proof.
  intros Hi Hr Hc Hf. unfold fit.
  erewrite bind_inr by reflexivity. rewrite Hi.
  cbn [String.eqb Ascii.eqb Bool.eqb].
  apply bind_inl. unfold pca_weights, bind, get, raise. cbv zeta.
  assert (E0 : (2 <=? n_columns X)%nat = false) by (apply Nat.leb_gt; lia).
  assert (E1 : (n_rows s <? 0)%Z = false) by (apply Z.ltb_ge; lia).
  assert (E2 : (n_cols s <? 0)%Z = false) by (apply Z.ltb_ge; lia).
  assert (E3 : (n_columns X <? 2)%nat = true) by (apply Nat.ltb_lt; lia).
  rewrite E0, E1, E2, E3. reflexivity.
Qed.

(** A first stage on one feature: the exponential kernel, three epochs,
    on the 1 x 2 lattice. *)
Lemma example_one_feature_fit :
  exists s1 W b,
    fit one_sample W0_1x2
        (som_1x2_with "exponential" "random" 3 None None) []
    = (inr tt, s1, []) /\
    wts s1 = Some W /\ bmus s1 = Some b /\ n_columns W = 1%nat.
Proof.
  pose proof (fit_spec (som_1x2_with "exponential" "random" 3 None None)
                one_sample W0_1x2 exponential
                [1%R; (3 / 4)%R; (1 / 2)%R] 2 1 []) as E.
  cbv zeta in E.
  eexists. eexists. eexists. split; [apply E|].
  - left; split; [reflexivity | simpl; lia].
  - reflexivity.
  - apply sigs_1x2_three_epochs; reflexivity.
  - reflexivity.
  - repeat constructor.
  - lia.
  - discriminate.
  - repeat constructor.
  - reflexivity.
  - repeat constructor.
  - split; [reflexivity|]. split; [reflexivity|].
    set (K := kernel_tensor exponential [1%R; (3 / 4)%R; (1 / 2)%R]
                (d2mat (som_1x2_with "exponential" "random" 3 None None))).
    assert (HK : kernel_shape 2 K).
    { apply kernel_tensor_shape; [reflexivity | repeat constructor]. }
    destruct (train_codebook_shape one_sample K 2 1 ltac:(lia)
                ltac:(discriminate) ltac:(repeat constructor) HK
                3 0 W0_1x2) as [H1 H2];
      [reflexivity | reflexivity | repeat constructor |].
    apply n_columns_rows; [|exact H2].
    intros E0. change (Z.to_nat (n_epochs
      (som_1x2_with "exponential" "random" 3 None None))) with 3%nat in E0.
    rewrite E0 in H1. discriminate H1.
Qed.

Lemma second_stage_uses_defaults_witness :
  exists som s1,
    SOM_new 1 2 "gaussian" 10 (1 / 2) (1 / 100) None "pca" = inr som /\
    neighbourhood som = "gaussian"%string /\ n_epochs som = 10%Z /\
    initial som = "pca"%string /\
    cluster_fit one_sample None W0_1x2 two_neurons
      (mkSOM_cluster (som_1x2_with "exponential" "random" 3 None None) 2
                     [NaN; NaN] None) []
    = (inl IndexError,
       set_base s1
         (mkSOM_cluster (som_1x2_with "exponential" "random" 3 None None) 2
                        [NaN; NaN] None),
       []).
Proof.
  destruct example_one_feature_fit as (s1 & W & b & Hfit & Hw & Hb & Hf).
  destruct (second_stage_uses_defaults
              (mkSOM_cluster
                 (som_1x2_with "exponential" "random" 3 None None) 2
                 [NaN; NaN] None)
              one_sample W0_1x2 two_neurons W s1 b [] [] Hfit Hw Hb)
    as (som & Hsom & Hr & Hc & Hnb & Hne & _ & Hini & _ & _ & Hfail & _).
  - simpl; lia.
  - exists som, s1.
    split; [exact Hsom|]. split; [exact Hnb|]. split; [exact Hne|].
    split; [exact Hini|].
    apply (Hfail IndexError som []).
    apply fit_pca_needs_two_features;
      [exact Hini | rewrite Hr; lia | rewrite Hc; simpl; lia
       | rewrite Hf; lia].
Defined.

(* ================================================================= *)
(** ** The majority vote: [np.unique] and [np.argmax] *)

Lemma lookup_absent (acc : list (Z * Z)) (v : Z) :
  ~ In v (map fst acc) -> lookup_count acc v = 0%Z.
Proof.
  induction acc as [|[u c] acc IH]; simpl; intros H; [reflexivity|].
  destruct (Z.eqb_spec v u) as [->|Hne]; [exfalso; apply H; now left|].
  apply IH. intros Hin. apply H. now right.
Qed.

Lemma count_in_keys (v : Z) (acc : list (Z * Z)) (u : Z) :
  In u (map fst (count_in v acc)) <-> u = v \/ In u (map fst acc).
Proof.
  induction acc as [|[w c] acc IH]; simpl.
  - intuition.
  - destruct (Z.eqb_spec v w) as [->|Hne]; simpl; [intuition|].
    destruct (v <? w)%Z; simpl; [intuition|].
    rewrite IH. intuition.
Qed.

Lemma count_in_sorted (v : Z) (acc : list (Z * Z)) :
  StronglySorted Z.lt (map fst acc) ->
  StronglySorted Z.lt (map fst (count_in v acc)).
Proof.
  induction acc as [|[w c] acc IH]; simpl; intros H.
  - constructor; constructor.
  - inversion H as [|? ? Hs Hf]; subst.
    destruct (Z.eqb_spec v w) as [->|Hne]; simpl; [now constructor|].
    destruct (Z.ltb_spec v w) as [Hlt|Hge]; simpl.
    + constructor; [exact H|].
      constructor; [exact Hlt|].
      eapply Forall_impl; [|exact Hf]. intros a Ha. simpl in Ha. lia.
    + constructor; [now apply IH|].
      rewrite Forall_forall. intros u Hu.
      apply count_in_keys in Hu. destruct Hu as [->|Hu]; [lia|].
      rewrite Forall_forall in Hf. now apply Hf.
Qed.

Lemma count_in_lookup (v : Z) (acc : list (Z * Z)) (w : Z) :
  StronglySorted Z.lt (map fst acc) ->
  lookup_count (count_in v acc) w
  = (lookup_count acc w + if (w =? v)%Z then 1 else 0)%Z.
Proof.
  induction acc as [|[u c] acc IH]; simpl; intros H.
  - destruct (w =? v)%Z; reflexivity.
  - inversion H as [|? ? Hs Hf]; subst.
    destruct (Z.eqb_spec v u) as [->|Hne]; simpl.
    + destruct (Z.eqb_spec w u); lia.
    + destruct (Z.ltb_spec v u) as [Hlt|Hge]; simpl.
      * destruct (Z.eqb_spec w v) as [Ewv|Hwv].
        -- destruct (Z.eqb_spec w u); [lia|].
           rewrite lookup_absent; [lia|].
           intros Hin. rewrite Forall_forall in Hf.
           specialize (Hf w Hin). simpl in Hf. lia.
        -- destruct (Z.eqb_spec w u); lia.
      * destruct (Z.eqb_spec w u) as [Ewu|Hwu].
        -- destruct (Z.eqb_spec w v); lia.
        -- now apply IH.
Qed.

Lemma count_in_positive (v : Z) (acc : list (Z * Z)) :
  Forall (fun p => (0 < snd p)%Z) acc ->
  Forall (fun p => (0 < snd p)%Z) (count_in v acc).
Proof.
  induction 1 as [|[u c] acc Hp Hacc IH]; simpl.
  - constructor; [simpl; lia | constructor].
  - simpl in Hp. destruct (v =? u)%Z.
    + constructor; [simpl; lia | exact Hacc].
    + destruct (v <? u)%Z.
      * constructor; [simpl; lia|]. constructor; [exact Hp | exact Hacc].
      * constructor; [exact Hp | exact IH].
Qed.

Lemma occ_cons (v w : Z) (a : list Z) :
  occ (v :: a) w = (occ a w + if (w =? v)%Z then 1 else 0)%Z.
Proof.
  unfold occ. simpl.
  destruct (Z.eq_dec v w) as [->|Hne].
  - rewrite Z.eqb_refl. lia.
  - destruct (Z.eqb_spec w v); [congruence | lia].
Qed.

Lemma counting_fold (a : list Z) (acc : list (Z * Z)) :
  StronglySorted Z.lt (map fst acc) ->
  Forall (fun p => (0 < snd p)%Z) acc ->
  let r := fold_left (fun acc v => count_in v acc) a acc in
  StronglySorted Z.lt (map fst r) /\
  Forall (fun p => (0 < snd p)%Z) r /\
  forall w, lookup_count r w = (lookup_count acc w + occ a w)%Z.
Proof.
  revert acc; induction a as [|v a IH]; intros acc Hs Hp; simpl.
  - repeat split; auto. intros w. unfold occ. simpl. lia.
  - destruct (IH (count_in v acc)) as (H1 & H2 & H3);
      [now apply count_in_sorted | now apply count_in_positive |].
    repeat split; auto.
    intros w. rewrite H3, count_in_lookup by exact Hs.
    rewrite occ_cons. lia.
Qed.

(** The table of [np.unique]: strictly increasing values, each with its
    positive number of occurrences. *)
Lemma unique_counts_spec (a : list Z) :
  StronglySorted Z.lt (map fst (unique_counts a)) /\
  Forall (fun p => (0 < snd p)%Z) (unique_counts a) /\
  forall w, lookup_count (unique_counts a) w = occ a w.
Proof.
  destruct (counting_fold a []) as (H1 & H2 & H3);
    [constructor | constructor |].
  repeat split; auto.
Qed.

Lemma lookup_nth (acc : list (Z * Z)) (j : nat) :
  StronglySorted Z.lt (map fst acc) -> (j < length acc)%nat ->
  lookup_count acc (nth j (map fst acc) 0%Z) = nth j (map snd acc) 0%Z.
Proof.
  revert j; induction acc as [|[u c] acc IH]; simpl; intros j Hs Hj; [lia|].
  inversion Hs as [|? ? Hs' Hf]; subst.
  destruct j as [|j].
  - now rewrite Z.eqb_refl.
  - destruct (Z.eqb_spec (nth j (map fst acc) 0%Z) u) as [E|_].
    + exfalso. rewrite Forall_forall in Hf.
      assert (Hin : In (nth j (map fst acc) 0%Z) (map fst acc))
        by (apply nth_In; rewrite length_map; lia).
      specialize (Hf _ Hin). lia.
    + apply IH; [exact Hs' | lia].
Qed.

Lemma sorted_nth_lt (l : list Z) (i j : nat) :
  StronglySorted Z.lt l -> (i < j)%nat -> (j < length l)%nat ->
  (nth i l 0 < nth j l 0)%Z.
Proof.
  intros Hs. revert i j. induction Hs as [|a l Hs IH Hf]; intros i j Hij Hj.
  - simpl in Hj; lia.
  - destruct j as [|j]; [lia|]. simpl in Hj. destruct i as [|i]; simpl.
    + rewrite Forall_forall in Hf. apply Hf. apply nth_In. lia.
    + apply IH; lia.
Qed.

(** [np.argmax] returns the first maximum. *)
Lemma argmax_from_spec (l pre : list Z) (best : Z) (bi : nat) :
  let L := (pre ++ l)%list in
  (bi < length pre)%nat ->
  best = nth bi L 0%Z ->
  (forall j, (j < length pre)%nat -> (nth j L 0 <= best)%Z) ->
  (forall j, (j < bi)%nat -> (nth j L 0 < best)%Z) ->
  let r := argmax_from best bi (length pre) l in
  (r < length L)%nat /\
  (forall j, (j < length L)%nat -> (nth j L 0 <= nth r L 0)%Z) /\
  (forall j, (j < r)%nat -> (nth j L 0 < nth r L 0)%Z).
Proof.
  revert pre best bi. induction l as [|v l IH]; intros pre best bi L.
  - subst L. rewrite app_nil_r. simpl. intros Hbi -> Hmax Hfirst.
    repeat split; auto.
  - intros Hbi Hbest Hmax Hfirst. simpl.
    assert (EL : L = ((pre ++ [v]) ++ l)%list)
      by (subst L; now rewrite <- app_assoc).
    assert (Hlen : length (pre ++ [v]) = S (length pre))
      by (rewrite length_app; simpl; lia).
    assert (Hv : nth (length pre) L 0%Z = v) by (subst L; apply nth_middle).
    destruct (Z.ltb_spec best v) as [Hlt|Hge].
    + specialize (IH (pre ++ [v])%list v (length pre)).
      rewrite Hlen in IH. cbv zeta in IH. rewrite <- EL in IH.
      apply IH; auto; try lia.
      * intros j Hj. destruct (Nat.eq_dec j (length pre)) as [->|Hne].
        -- rewrite Hv. lia.
        -- specialize (Hmax j ltac:(lia)). lia.
      * intros j Hj. specialize (Hmax j Hj). lia.
    + specialize (IH (pre ++ [v])%list best bi).
      rewrite Hlen in IH. cbv zeta in IH. rewrite <- EL in IH.
      apply IH; auto; try lia.
      intros j Hj. destruct (Nat.eq_dec j (length pre)) as [->|Hne].
      * rewrite Hv. lia.
      * apply Hmax. lia.
Qed.

Lemma argmax_spec (L : list Z) :
  L <> [] ->
  (argmax L < length L)%nat /\
  (forall j, (j < length L)%nat -> (nth j L 0 <= nth (argmax L) L 0)%Z) /\
  (forall j, (j < argmax L)%nat -> (nth j L 0 < nth (argmax L) L 0)%Z).
Proof.
  destruct L as [|v l]; [congruence|]. intros _. unfold argmax.
  apply (argmax_from_spec l [v] v 0); simpl; auto; try lia.
  intros [|j] Hj; [lia | lia].
Qed.

Lemma lookup_positive_key (acc : list (Z * Z)) (w : Z) :
  (0 < lookup_count acc w)%Z ->
  exists j, (j < length acc)%nat /\ nth j (map fst acc) 0%Z = w.
Proof.
  induction acc as [|[u c] acc IH]; simpl; intros H; [lia|].
  destruct (Z.eqb_spec w u) as [->|Hne].
  - exists 0%nat. split; [lia | reflexivity].
  - destruct (IH H) as (j & Hj & E). exists (S j). split; [lia | exact E].
Qed.

Lemma occ_positive_iff (l : list Z) (v : Z) : (0 < occ l v)%Z <-> In v l.
Proof.
  unfold occ. rewrite (count_occ_In Z.eq_dec). lia.
Qed.

Lemma unique_counts_nonempty (l : list Z) :
  l <> [] -> unique_counts l <> [].
Proof.
  destruct l as [|v l]; [congruence|]. intros _ E.
  destruct (unique_counts_spec (v :: l)) as (_ & _ & H).
  specialize (H v). rewrite E in H. simpl in H.
  assert (0 < occ (v :: l) v)%Z by (apply occ_positive_iff; now left).
  lia.
Qed.

(** X16.  The label that the supervised [fit] votes for neuron [i].  With
    no sample assigned to [i] there is no vote.  Otherwise the vote is a
    label of a sample assigned to [i] that occurs at least as often among
    them as any other label, and among the labels that occur as often it
    is the smallest.  Label and BMU arrays of different lengths raise
    [IndexError]. *)
Theorem vote_is_majority :
  forall (y : list Z) (b : list nat) (i : nat),
    (length b <> length y -> vote y (Some b) i = inl IndexError) /\
    (length b = length y ->
     (labels_of y b i = [] -> vote y (Some b) i = inr None) /\
     (labels_of y b i <> [] ->
      exists z,
        vote y (Some b) i = inr (Some z) /\
        In z (labels_of y b i) /\
        forall z',
          (occ (labels_of y b i) z' <= occ (labels_of y b i) z)%Z /\
          (occ (labels_of y b i) z' = occ (labels_of y b i) z ->
           (z <= z')%Z))).
Proof.
  intros y b i. unfold vote. fold (labels_of y b i).
  set (L := labels_of y b i).
  split.
  { intros H. destruct (Nat.eqb_spec (length b) (length y));
      [contradiction | reflexivity]. }
  intros Hlen. rewrite Hlen, Nat.eqb_refl.
  split; [intros ->; reflexivity|].
  intros HL.
  pose proof (unique_counts_nonempty L HL) as Hne.
  destruct (unique_counts_spec L) as (Hs & Hp & Hlk).
  set (uc := unique_counts L) in *.
  assert (Hcne : map snd uc <> [])
    by (destruct uc; [congruence | discriminate]).
  destruct (argmax_spec (map snd uc) Hcne) as (Hr & Hmax & Hfirst).
  set (r := argmax (map snd uc)) in *.
  rewrite length_map in Hr, Hmax.
  set (z := nth r (map fst uc) 0%Z).
  assert (Hz : occ L z = nth r (map snd uc) 0%Z)
    by (rewrite <- Hlk; now apply lookup_nth).
  assert (Hzpos : (0 < occ L z)%Z).
  { rewrite Hz. rewrite Forall_forall in Hp.
    rewrite (map_nth_in snd uc (0%Z, 0%Z) 0%Z) by exact Hr.
    apply Hp. now apply nth_In. }
  exists z. split; [destruct uc; [congruence | reflexivity]|].
  split; [now apply occ_positive_iff|].
  intros z'.
  assert (Hnn : (0 <= occ L z')%Z) by (unfold occ; lia).
  destruct (Z.eq_dec (occ L z') 0) as [E0|E0]; [split; lia|].
  assert (Hpos' : (0 < lookup_count uc z')%Z) by (rewrite Hlk; lia).
  destruct (lookup_positive_key uc z' Hpos') as (j & Hj & Ej).
  assert (Hcj : occ L z' = nth j (map snd uc) 0%Z).
  { rewrite <- Hlk, <- Ej. now apply lookup_nth. }
  split.
  - rewrite Hcj, Hz. now apply Hmax.
  - intros Etie.
    destruct (Nat.lt_ge_cases j r) as [Hlt|Hge].
    + specialize (Hfirst j Hlt). lia.
    + destruct (Nat.eq_dec j r) as [->|Hne'].
      * subst z. lia.
      * rewrite <- Ej. unfold z.
        assert (nth r (map fst uc) 0 < nth j (map fst uc) 0)%Z; [|lia].
        apply sorted_nth_lt; [exact Hs | lia | now rewrite length_map].
Qed.

Lemma vote_is_majority_witness :
  exists z,
    vote [5; 2; 5; 2; 9]%Z (Some [1; 1; 0; 1; 1]%nat) 1 = inr (Some z) /\
    In z (labels_of [5; 2; 5; 2; 9]%Z [1; 1; 0; 1; 1]%nat 1) /\
    (occ (labels_of [5; 2; 5; 2; 9]%Z [1; 1; 0; 1; 1]%nat 1) 9
     <= occ (labels_of [5; 2; 5; 2; 9]%Z [1; 1; 0; 1; 1]%nat 1) z)%Z.
Proof.
  destruct (vote_is_majority [5; 2; 5; 2; 9]%Z [1; 1; 0; 1; 1]%nat 1)
    as [_ H].
  destruct (H eq_refl) as [_ H'].
  destruct H' as (z & Hv & Hin & Hmax); [discriminate|].
  exists z. split; [exact Hv|]. split; [exact Hin|].
  exact (proj1 (Hmax 9%Z)).
Defined.

(* ================================================================= *)
(** ** The supervised branch: voting loop and backfill *)

Lemma update_nth_length {A} (i : nat) (v : A) (l : list A) :
  length (update_nth i v l) = length l.
Proof.
  revert i; induction l as [|a l IH]; intros [|i]; simpl; auto.
Qed.

Lemma update_nth_same {A} (i : nat) (v d : A) (l : list A) :
  (i < length l)%nat -> nth i (update_nth i v l) d = v.
Proof.
  revert i; induction l as [|a l IH]; intros [|i]; simpl; intros H;
    try lia; auto.
  apply IH. lia.
Qed.

Lemma update_nth_other {A} (i j : nat) (v d : A) (l : list A) :
  i <> j -> nth j (update_nth i v l) d = nth j l d.
Proof.
  revert i j; induction l as [|a l IH]; intros [|i] [|j] H; simpl; auto;
    try congruence.
Qed.

Lemma apply_votes_length (y : list Z) (b : list nat) (n i : nat)
      (n2l : list F) :
  length (apply_votes y b n i n2l) = length n2l.
Proof.
  revert i n2l; induction n as [|n IH]; intros i n2l; cbn [apply_votes]; auto.
  rewrite IH. destruct (vote y (Some b) i) as [e|[z|]]; auto.
  apply update_nth_length.
Qed.

(** A visited neuron with a vote carries it afterwards. *)
Lemma apply_votes_voted (y : list Z) (b : list nat) (n i j : nat)
      (n2l : list F) (z : Z) :
  (i <= j < i + n)%nat -> (j < length n2l)%nat ->
  vote y (Some b) j = inr (Some z) ->
  nth j (apply_votes y b n i n2l) NaN = FZ z.
Proof.
  revert i n2l; induction n as [|n IH]; intros i n2l Hj Hl Hv; [lia|].
  cbn [apply_votes]. destruct (Nat.eq_dec i j) as [->|Hne].
  - rewrite Hv.
    assert (Hkeep : forall m i' l, (j < i')%nat ->
              nth j (apply_votes y b m i' l) NaN = nth j l NaN).
    { clear. induction m as [|m IHm]; intros i' l Hlt; cbn [apply_votes]; auto.
      rewrite IHm by lia.
      destruct (vote y (Some b) i') as [e|[z'|]]; auto.
      apply update_nth_other. lia. }
    rewrite Hkeep by lia. now apply update_nth_same.
  - apply IH; [lia | | exact Hv].
    destruct (vote y (Some b) i) as [e|[z'|]]; auto.
    now rewrite update_nth_length.
Qed.

(** An entry is afterwards a vote or what it was. *)
Lemma apply_votes_entry (y : list Z) (b : list nat) (n i j : nat)
      (n2l : list F) :
  nth j (apply_votes y b n i n2l) NaN = nth j n2l NaN \/
  exists z, vote y (Some b) j = inr (Some z) /\
            nth j (apply_votes y b n i n2l) NaN = FZ z.
Proof.
  revert i n2l; induction n as [|n IH]; intros i n2l; cbn [apply_votes];
    [now left|].
  destruct (vote y (Some b) i) as [e|[z|]] eqn:Ev; try apply IH.
  destruct (IH (S i) (update_nth i (FZ z) n2l)) as [H|H]; [|now right].
  rewrite H. destruct (Nat.eq_dec i j) as [->|Hne].
  - destruct (Nat.lt_ge_cases j (length n2l)) as [Hlt|Hge].
    + right. exists z. split; [exact Ev|].
      now apply update_nth_same.
    + left. rewrite !nth_overflow; auto.
      now rewrite update_nth_length.
  - left. now apply update_nth_other.
Qed.

Lemma vote_is_majority_aux (y : list Z) (b : list nat) (i : nat) :
  length b = length y ->
  (exists z, vote y (Some b) i = inr (Some z)) \/
  vote y (Some b) i = inr None.
Proof.
  intros H. unfold vote. rewrite H, Nat.eqb_refl.
  destruct (unique_counts _); [now right | left; eexists; reflexivity].
Qed.

Lemma label_neuron_spec (y : list Z) (b : list nat) (i : nat)
      (c : SOM_cluster) (out : list string) :
  bmus (base c) = Some b -> length b = length y ->
  (i < length (neuron_to_label c))%nat ->
  label_neuron y i c out =
  (inr tt,
   set_neuron_to_label
     (match vote y (Some b) i with
      | inr (Some z) => update_nth i (FZ z) (neuron_to_label c)
      | _ => neuron_to_label c
      end) c,
   out).
Proof.
  intros Hb Hlen Hi. unfold label_neuron.
  erewrite bind_inr by reflexivity. rewrite Hb.
  destruct (vote_is_majority_aux y b i Hlen) as [[z Hz]|Hz]; rewrite Hz.
  - erewrite bind_inr by reflexivity.
    apply Nat.ltb_lt in Hi. rewrite Hi. reflexivity.
  - erewrite bind_inr by reflexivity.
    destruct c; reflexivity.
Qed.

Lemma set_neuron_to_label_same (c : SOM_cluster) :
  set_neuron_to_label (neuron_to_label c) c = c.
Proof. destruct c; reflexivity. Qed.

(** The voting loop over [n] neurons from [i] on. *)
Lemma label_loop_spec (y : list Z) (b : list nat) (n i : nat)
      (c : SOM_cluster) (out : list string) :
  bmus (base c) = Some b -> length b = length y ->
  (i + n <= length (neuron_to_label c))%nat ->
  for_range n i (label_neuron y) c out =
  (inr tt,
   set_neuron_to_label (apply_votes y b n i (neuron_to_label c)) c, out).
Proof.
  revert i c; induction n as [|n IH]; intros i c Hb Hlen Hn.
  - cbn [for_range apply_votes]. now rewrite set_neuron_to_label_same.
  - cbn [for_range apply_votes].
    assert (Hi : (i < length (neuron_to_label c))%nat) by lia.
    rewrite (bind_inr (label_neuron_spec y b i c out Hb Hlen Hi)).
    set (l' := match vote y (Some b) i with
               | inr (Some z) => update_nth i (FZ z) (neuron_to_label c)
               | _ => neuron_to_label c
               end).
    assert (Hl' : length l' = length (neuron_to_label c))
      by (unfold l'; destruct (vote y (Some b) i) as [e|[z|]];
          rewrite ?update_nth_length; reflexivity).
    assert (Hb' : bmus (base (set_neuron_to_label l' c)) = Some b)
      by (destruct c; exact Hb).
    rewrite (IH (S i) _ Hb' Hlen).
    + destruct c; reflexivity.
    + destruct c; cbn in *; lia.
Qed.

Lemma sort_ltb_irrefl (a : F) : sort_ltb a a = false.
Proof.
  destruct a; unfold sort_ltb, Fgeb, Fleb; cbn; auto.
  destruct (Rle_dec r r); [reflexivity | lra].
Qed.

Lemma sort_ltb_trans (a b c : F) :
  sort_ltb a b = true -> sort_ltb b c = true -> sort_ltb a c = true.
Proof.
  destruct a, b, c; unfold sort_ltb, Fgeb, Fleb; cbn;
    repeat match goal with
           | |- context [Rle_dec ?x ?y] => destruct (Rle_dec x y)
           end; cbn; intros; try reflexivity; try discriminate; lra.
Qed.

(** The scan of [argsort()[0]]: the index returned sorts before or with
    every entry. *)
Lemma argfirst_from_spec (l pre : list F) (best : F) (bi i : nat) :
  length pre = i -> (bi < i)%nat -> nth bi pre NaN = best ->
  (forall j, (j < i)%nat -> sort_ltb (nth j pre NaN) best = false) ->
  (argfirst_from best bi i l < length (pre ++ l))%nat /\
  forall j, (j < length (pre ++ l))%nat ->
    sort_ltb (nth j (pre ++ l) NaN)
             (nth (argfirst_from best bi i l) (pre ++ l) NaN) = false.
Proof.
  revert pre best bi i; induction l as [|v l IH];
    intros pre best bi i Hlen Hbi Hbest Hmin.
  - cbn [argfirst_from]. rewrite app_nil_r, Hlen, Hbest. split; auto.
  - cbn [argfirst_from].
    replace (pre ++ v :: l) with ((pre ++ [v]) ++ l)
      by now rewrite <- app_assoc.
    assert (Hl' : length (pre ++ [v]) = S i)
      by (rewrite length_app; cbn; lia).
    assert (Hv : nth i (pre ++ [v]) NaN = v).
    { rewrite app_nth2 by lia. rewrite Hlen, Nat.sub_diag. reflexivity. }
    destruct (sort_ltb v best) eqn:E.
    + apply IH; auto.
      intros j Hj. destruct (Nat.eq_dec j i) as [->|Hne].
      * rewrite Hv. apply sort_ltb_irrefl.
      * rewrite app_nth1 by lia.
        destruct (sort_ltb (nth j pre NaN) v) eqn:E'; auto.
        rewrite <- (Hmin j) by lia. symmetry.
        now apply sort_ltb_trans with v.
    + apply IH; auto.
      * now rewrite app_nth1 by lia.
      * intros j Hj. destruct (Nat.eq_dec j i) as [->|Hne].
        -- now rewrite Hv.
        -- rewrite app_nth1 by lia. apply Hmin. lia.
Qed.

Lemma argfirst_row_spec (l : list F) :
  l <> [] ->
  (argfirst_row l < length l)%nat /\
  forall j, (j < length l)%nat ->
    sort_ltb (nth j l NaN) (nth (argfirst_row l) l NaN) = false.
Proof.
  destruct l as [|v l]; [congruence|]. intros _.
  apply (argfirst_from_spec l [v] v 0 1); auto.
  intros [|j] Hj; [apply sort_ltb_irrefl | lia].
Qed.

Lemma argsort_first_row (l : list F) :
  l <> [] -> argsort_first l = inr (argfirst_row l).
Proof. destruct l; [congruence | reflexivity]. Qed.

Lemma nearest_labelled_bound (n2l row : list F) (k : nat) :
  length n2l = k -> length row = k -> (0 < k)%nat ->
  (nearest_labelled n2l row < k)%nat.
Proof.
  intros H1 H2 Hk. unfold nearest_labelled.
  set (m := map2 _ n2l row).
  assert (Hm : length m = k) by (unfold m; rewrite map2_length; lia).
  destruct (argfirst_row_spec m) as [H _]; [|lia].
  destruct m; [simpl in Hm; lia | discriminate].
Qed.

(** The backfill on arrays of matching shapes. *)
Lemma backfill_spec (c : SOM_cluster) (D : matrix) (k : nat)
      (out : list string) :
  dmat (base c) = Some D -> length D = k -> rows_of_length k D ->
  length (neuron_to_label c) = k -> (0 < k)%nat ->
  backfill c out =
  (inr tt,
   set_neuron_to_label (backfill_labels (neuron_to_label c) D) c, out).
Proof.
  intros HD HlD HrD Hl Hk. unfold backfill.
  unfold rows_of_length in HrD. rewrite Forall_forall in HrD.
  erewrite bind_inr by reflexivity.
  erewrite bind_inr by (unfold attr; rewrite HD; reflexivity).
  erewrite bind_inr
    by (unfold lift, mask_unlabelled;
        erewrite res_mapM_inr
          by (intros row Hrow; apply bcast2_same_length;
              rewrite (HrD row Hrow); exact Hl);
        reflexivity).
  erewrite bind_inr
    by (unfold lift;
        erewrite (res_mapM_inr argsort_first argfirst_row);
        [reflexivity|];
        intros m Hm; apply in_map_iff in Hm; destruct Hm as (row & <- & Hrow);
        apply argsort_first_row;
        intros E; apply (f_equal (@length F)) in E;
        rewrite map2_length, (HrD row Hrow), Hl in E; simpl in E; lia).
  rewrite map_map.
  erewrite bind_inr
    by (unfold lift; erewrite (take_spec _ _ NaN);
        [reflexivity|];
        apply Forall_map; rewrite Forall_forall; intros row Hrow;
        rewrite Hl;
        apply (nearest_labelled_bound _ _ k Hl (HrD row Hrow) Hk)).
  rewrite map_map.
  erewrite bind_inr
    by (unfold lift; rewrite bcast2_same_length;
        [reflexivity | rewrite length_map; congruence]).
  reflexivity.
Qed.

Lemma backfill_labels_length (n2l : list F) (D : matrix) (k : nat) :
  length n2l = k -> length D = k -> length (backfill_labels n2l D) = k.
Proof.
  intros H1 H2. unfold backfill_labels.
  rewrite map2_length, length_map. lia.
Qed.

Lemma backfill_labels_entry (n2l : list F) (D : matrix) (k i : nat) :
  length n2l = k -> length D = k -> (i < k)%nat ->
  nth i (backfill_labels n2l D) NaN =
  if Fis_nan (nth i n2l NaN)
  then nth (nearest_labelled n2l (nth i D [])) n2l NaN
  else nth i n2l NaN.
Proof.
  intros H1 H2 Hi. unfold backfill_labels.
  rewrite (map2_nth _ _ _ NaN NaN NaN) by (rewrite ?length_map; lia).
  now rewrite (map_nth_in _ D [] NaN) by lia.
Qed.

(** With finite distances and some labelled neuron, the neuron picked
    for a row is labelled and no labelled neuron is closer. *)
Lemma nearest_labelled_spec (n2l row : list F) (k j0 : nat) :
  length n2l = k -> length row = k -> finite_row row ->
  (j0 < k)%nat -> Fis_nan (nth j0 n2l NaN) = false ->
  (nearest_labelled n2l row < k)%nat /\
  Fis_nan (nth (nearest_labelled n2l row) n2l NaN) = false /\
  forall j, (j < k)%nat -> Fis_nan (nth j n2l NaN) = false ->
    Fle (nth (nearest_labelled n2l row) row NaN) (nth j row NaN).
Proof.
  intros Hl Hr Hfin Hj0 Hlab0.
  assert (Hk : (0 < k)%nat) by lia.
  pose proof (nearest_labelled_bound n2l row k Hl Hr Hk) as Hb.
  unfold nearest_labelled in *.
  set (mask := fun l d : F => if Fis_nan l then PInf else d) in *.
  set (m := map2 mask n2l row) in *.
  assert (Hm : forall j, (j < k)%nat ->
             nth j m NaN = mask (nth j n2l NaN) (nth j row NaN))
    by (intros j Hj; unfold m; apply map2_nth; lia).
  assert (Hrow : forall j, (j < k)%nat -> exists d, nth j row NaN = Fin d).
  { intros j Hj. unfold finite_row in Hfin. rewrite Forall_forall in Hfin.
    apply Hfin. apply nth_In. lia. }
  assert (Hlm : length m = k) by (unfold m; rewrite map2_length; lia).
  destruct (argfirst_row_spec m) as [_ Hmin].
  { intros E. rewrite E in Hlm. simpl in Hlm. lia. }
  set (r := argfirst_row m) in *. rewrite Hlm in Hmin.
  assert (Hlabr : Fis_nan (nth r n2l NaN) = false).
  { destruct (Fis_nan (nth r n2l NaN)) eqn:E; auto.
    specialize (Hmin j0 Hj0).
    rewrite (Hm j0 Hj0), (Hm r Hb) in Hmin. unfold mask in Hmin.
    rewrite Hlab0, E in Hmin.
    destruct (Hrow j0 Hj0) as [d Hd]. rewrite Hd in Hmin.
    discriminate Hmin. }
  split; [exact Hb|]. split; [exact Hlabr|].
  intros j Hj Hlabj. specialize (Hmin j Hj).
  rewrite (Hm j Hj), (Hm r Hb) in Hmin. unfold mask in Hmin.
  rewrite Hlabj, Hlabr in Hmin.
  destruct (Hrow j Hj) as [d Hd]. destruct (Hrow r Hb) as [d' Hd'].
  rewrite Hd, Hd' in *.
  unfold Fle. unfold sort_ltb, Fgeb in Hmin. cbn in Hmin |- *.
  destruct (Rle_dec d' d); [reflexivity | discriminate Hmin].
Qed.

(** X17.  The backfill of the supervised [fit], on a distance matrix
    with finite entries and with at least one labelled neuron: it
    completes, labelled neurons keep their labels, and every unlabelled
    neuron takes the label of a labelled neuron than which no labelled
    neuron is closer in feature space.  Nothing else of the object
    changes. *)
Theorem backfill_takes_nearest_labelled :
  forall (c : SOM_cluster) (D : matrix) (k j0 : nat) (out : list string),
    dmat (base c) = Some D -> length D = k -> rows_of_length k D ->
    Forall finite_row D ->
    length (neuron_to_label c) = k ->
    (j0 < k)%nat -> Fis_nan (nth j0 (neuron_to_label c) NaN) = false ->
    exists c',
      backfill c out = (inr tt, c', out) /\
      base c' = base c /\ n_clusters c' = n_clusters c /\
      labels_ c' = labels_ c /\
      length (neuron_to_label c') = k /\
      forall i, (i < k)%nat ->
        (Fis_nan (nth i (neuron_to_label c) NaN) = false ->
         nth i (neuron_to_label c') NaN = nth i (neuron_to_label c) NaN) /\
        (Fis_nan (nth i (neuron_to_label c) NaN) = true ->
         exists j, (j < k)%nat /\
           Fis_nan (nth j (neuron_to_label c) NaN) = false /\
           nth i (neuron_to_label c') NaN = nth j (neuron_to_label c) NaN /\
           forall j', (j' < k)%nat ->
             Fis_nan (nth j' (neuron_to_label c) NaN) = false ->
             Fle (mentry D i j) (mentry D i j')).
Proof.
  intros c D k j0 out HD HlD HrD Hfin Hl Hj0 Hlab0.
  assert (Hk : (0 < k)%nat) by lia.
  exists (set_neuron_to_label (backfill_labels (neuron_to_label c) D) c).
  split; [now apply backfill_spec with k|].
  split; [destruct c; reflexivity|]. split; [destruct c; reflexivity|].
  split; [destruct c; reflexivity|].
  assert (E : neuron_to_label
                (set_neuron_to_label (backfill_labels (neuron_to_label c) D) c)
              = backfill_labels (neuron_to_label c) D)
    by (destruct c; reflexivity).
  rewrite E. split; [now apply backfill_labels_length|].
  intros i Hi.
  rewrite (backfill_labels_entry _ D k i Hl HlD Hi).
  split; [intros ->; reflexivity|]. intros ->.
  assert (Hrow : In (nth i D []) D) by (apply nth_In; lia).
  unfold rows_of_length in HrD. rewrite Forall_forall in HrD, Hfin.
  destruct (nearest_labelled_spec (neuron_to_label c) (nth i D []) k j0 Hl
              (HrD _ Hrow) (Hfin _ Hrow) Hj0 Hlab0) as (H1 & H2 & H3).
  exists (nearest_labelled (neuron_to_label c) (nth i D [])).
  repeat split; auto.
Qed.

Lemma backfill_takes_nearest_labelled_witness :
  exists c',
    backfill voted_1x3 [] = (inr tt, c', []) /\
    neuron_to_label c' = [Fin 4; Fin 7; Fin 4].
Proof.
  destruct (backfill_takes_nearest_labelled voted_1x3 three_distances 3 1 [])
    as (c' & Hrun & _ & _ & _ & Hlen & Hent).
  - reflexivity.
  - reflexivity.
  - repeat constructor.
  - repeat (constructor; try (eexists; reflexivity)).
  - reflexivity.
  - lia.
  - reflexivity.
  - exists c'. split; [exact Hrun|].
    destruct (neuron_to_label c') as [|l0 [|l1 [|l2 [|l3 t]]]];
      try discriminate Hlen.
    destruct (Hent 1%nat ltac:(lia)) as [H1 _].
    destruct (Hent 2%nat ltac:(lia)) as [H2 _].
    destruct (Hent 0%nat ltac:(lia)) as [_ H0].
    cbn in H1, H2, H0.
    rewrite (H1 eq_refl), (H2 eq_refl).
    destruct (H0 eq_refl) as (j & Hj & Hlabj & Ej & Hmin).
    destruct j as [|[|[|j]]]; try lia; cbn in Hlabj, Ej; try discriminate.
    + specialize (Hmin 2%nat ltac:(lia) eq_refl).
      unfold Fle, mentry in Hmin. cbn in Hmin.
      destruct (Rle_dec 2 1); [lra | discriminate].
    + now rewrite Ej.
Defined.

(* ================================================================= *)
(** ** Supervised [fit] on a finite codebook *)

Lemma sq_distance_finite (x w : list F) :
  finite_row x -> finite_row w ->
  exists r, sq_distance x w = Fin r /\ (0 <= r)%R.
Proof.
  unfold sq_distance, finite_row, Fsum. intros Hx. revert w.
  induction Hx as [|a x [ra ->] Hx IH]; intros w Hw.
  - exists 0%R. split; [destruct w; reflexivity | lra].
  - destruct Hw as [|b w [rb ->] Hw].
    + exists 0%R. split; [reflexivity | lra].
    + destruct (IH w Hw) as (r & E & Hr).
      cbn [map2 map fold_right]. rewrite E.
      exists ((ra + - rb) * (ra + - rb) + r)%R.
      split; [reflexivity|].
      pose proof (Rle_0_sqr (ra + - rb)) as Hsq. unfold Rsqr in Hsq. lra.
Qed.

Lemma final_dmat_finite (W : matrix) :
  Forall finite_row W -> Forall finite_row (final_dmat W).
Proof.
  intros H. unfold final_dmat. apply Forall_map.
  rewrite Forall_forall. intros wa Ha.
  unfold finite_row. apply Forall_map. rewrite Forall_forall. intros wb Hb.
  rewrite Forall_forall in H.
  destruct (sq_distance_finite wa wb (H wa Ha) (H wb Hb)) as (r & -> & Hr).
  unfold Fsqrt. destruct (Rlt_dec r 0); [lra|]. eauto.
Qed.

Lemma labels_of_nonempty (y : list Z) (b : list nat) (i : nat) :
  length b = length y -> In i b -> labels_of y b i <> [].
Proof.
  revert y; induction b as [|b0 b IH]; intros [|y0 y] Hl Hin;
    simpl in Hl, Hin; try lia; try contradiction.
  unfold labels_of. cbn [combine filter snd].
  destruct (Nat.eqb_spec b0 i) as [E|E]; [discriminate|].
  destruct Hin as [Hin|Hin]; [congruence|].
  apply IH; [lia | exact Hin].
Qed.

(** A neuron that some sample is assigned to gets a vote. *)
Lemma vote_of_assigned (y : list Z) (b : list nat) (i : nat) :
  length b = length y -> In i b ->
  exists z, vote y (Some b) i = inr (Some z).
Proof.
  intros Hl Hin. pose proof (labels_of_nonempty y b i Hl Hin) as Hne.
  apply unique_counts_nonempty in Hne.
  unfold vote. rewrite Hl, Nat.eqb_refl. fold (labels_of y b i).
  destruct (unique_counts (labels_of y b i)); [congruence|].
  eexists; reflexivity.
Qed.

(** X19.  Supervised [fit] of the clusterer with one label per sample
    (integers of magnitude up to [2^53], which a float holds exactly),
    when the first-stage training ends with a codebook of moderate finite
    values and at most [2^20] features (so that the distance matrix is
    finite): it completes, every neuron that a sample is assigned to
    carries its vote, and the backfill leaves no neuron without a label.
    [labels_] is not touched. *)
Theorem supervised_fit_labels_every_neuron :
  forall (c : SOM_cluster) (X W0 W1 : matrix) (y : list Z)
         (h : R -> Z -> F) (sigs : list R) (k f : nat) (out : list string),
    initialises (base c) X ->
    kernel_of (neighbourhood (base c)) = Some h ->
    sigs_of (base c) = inr sigs ->
    length (d2mat (base c)) = k -> rows_of_length k (d2mat (base c)) ->
    Z.to_nat (n_cols (base c) * n_rows (base c)) = k ->
    (0 < k)%nat ->
    length (neuron_to_label c) = k ->
    X <> [] -> rows_of_length f X ->
    length W0 = k -> rows_of_length f W0 ->
    length y = length X ->
    Forall (fun z => (Z.abs z <= 2 ^ 53)%Z) y ->
    (Z.of_nat f <= 2 ^ 20)%Z ->
    Forall (Forall moderate) (trained_codebook (base c) h sigs X W0) ->
    exists c' b,
      cluster_fit X (Some y) W0 W1 c out = (inr tt, c', out) /\
      wts (base c') = Some (trained_codebook (base c) h sigs X W0) /\
      bmus (base c') = Some b /\
      labels_ c' = labels_ c /\
      length (neuron_to_label c') = k /\
      fully_labelled (neuron_to_label c') /\
      forall i z, (i < k)%nat -> vote y (Some b) i = inr (Some z) ->
        nth i (neuron_to_label c') NaN = FZ z.
Proof.
  intros c X W0 W1 y h sigs k f out Hini Hfam Hs Hd Hdr Hkk Hpos Hl2n HXne
         HX Hk HW Hy Hy53 Hf20 Hmod.
  assert (Hls : length sigs = Z.to_nat (n_epochs (base c)))
    by exact (linspace_length _ _ _ sigs Hs).
  pose proof (fit_spec (base c) X W0 h sigs k f out Hini Hfam Hs Hd Hdr Hpos
                HXne HX Hk HW) as Hfit.
  cbv zeta in Hfit. unfold trained_codebook in *.
  set (K := kernel_tensor h sigs (d2mat (base c))) in *.
  set (Wn := train_codebook K X (Z.to_nat (n_epochs (base c))) 0 W0) in *.
  assert (HK : kernel_shape k K) by now apply kernel_tensor_shape.
  assert (HlK : length K = Z.to_nat (n_epochs (base c)))
    by (unfold K, kernel_tensor; now rewrite length_map).
  destruct (train_codebook_shape X K k f Hpos HXne HX HK
              (Z.to_nat (n_epochs (base c))) 0 W0) as [HWn1 HWn2];
    auto; try lia.
  fold Wn in HWn1, HWn2.
  assert (HWne : Wn <> [])
    by (destruct Wn; [simpl in HWn1; lia | discriminate]).
  pose proof (moderate_rows_finite Wn Hmod) as HWfin.
  set (s' := fitted (set_wts (Some W0) (base c)) K X Wn) in *.
  set (b := map (bmu_of Wn) X).
  set (c1 := set_base s' c).
  set (voted := apply_votes y b k 0 (neuron_to_label c)).
  set (D := final_dmat Wn).
  assert (Hlb : length b = length y)
    by (unfold b; rewrite length_map; congruence).
  assert (Hbk : Forall (fun bn => (bn < k)%nat) b).
  { apply Forall_map. rewrite Forall_forall. intros x _.
    rewrite <- HWn1. now apply bmu_of_bound. }
  assert (Hlv : length voted = k)
    by (unfold voted; now rewrite apply_votes_length).
  assert (HlD : length D = k) by (unfold D, final_dmat; now rewrite length_map).
  assert (HrD : rows_of_length k D).
  { unfold D, final_dmat, rows_of_length. apply Forall_map.
    rewrite Forall_forall. intros wa _. now rewrite length_map. }
  assert (HDfin : Forall finite_row D) by now apply final_dmat_finite.
  assert (Hvote : forall i z, (i < k)%nat ->
             vote y (Some b) i = inr (Some z) -> nth i voted NaN = FZ z).
  { intros i z Hi Hv. unfold voted.
    apply apply_votes_voted; auto; lia. }
  assert (Hj0 : exists j0, (j0 < k)%nat /\ Fis_nan (nth j0 voted NaN) = false).
  { assert (Hin : In (nth 0 b 0%nat) b).
    { apply nth_In. rewrite Hlb, Hy.
      destruct X; [congruence | simpl; lia]. }
    exists (nth 0 b 0%nat). rewrite Forall_forall in Hbk.
    split; [now apply Hbk|].
    destruct (vote_of_assigned y b _ Hlb Hin) as [z Hz].
    rewrite (Hvote _ z) by (auto; now apply Hbk). reflexivity. }
  destruct Hj0 as (j0 & Hj0 & Hlab0).
  exists (set_neuron_to_label (backfill_labels voted D)
            (set_neuron_to_label voted c1)), b.
  split.
  { unfold cluster_fit.
    rewrite (bind_inr (super_inr _ c _ _ _ _ Hfit)). fold c1.
    erewrite bind_inr by reflexivity.
    change (n_cols (base c1)) with (n_cols (base c)).
    change (n_rows (base c1)) with (n_rows (base c)).
    rewrite Hkk.
    assert (Hb1 : bmus (base c1) = Some b) by reflexivity.
    assert (Hn1 : (0 + k <= length (neuron_to_label c1))%nat)
      by (change (neuron_to_label c1) with (neuron_to_label c); lia).
    rewrite (bind_inr (label_loop_spec y b k 0 c1 out Hb1 Hlb Hn1)).
    change (neuron_to_label c1) with (neuron_to_label c). fold voted.
    rewrite (backfill_spec (set_neuron_to_label voted c1) D k out);
      auto. }
  split; [reflexivity|]. split; [reflexivity|]. split; [reflexivity|].
  cbn [neuron_to_label set_neuron_to_label].
  split; [now apply backfill_labels_length|].
  assert (Hent : forall i, (i < k)%nat ->
             Fis_nan (nth i (backfill_labels voted D) NaN) = false /\
             (Fis_nan (nth i voted NaN) = false ->
              nth i (backfill_labels voted D) NaN = nth i voted NaN)).
  { intros i Hi. rewrite (backfill_labels_entry voted D k i Hlv HlD Hi).
    destruct (Fis_nan (nth i voted NaN)) eqn:E; [|auto].
    split; [|discriminate].
    assert (Hrow : In (nth i D []) D) by (apply nth_In; lia).
    unfold rows_of_length in HrD. rewrite Forall_forall in HrD, HDfin.
    now destruct (nearest_labelled_spec voted (nth i D []) k j0 Hlv
                    (HrD _ Hrow) (HDfin _ Hrow) Hj0 Hlab0) as (_ & H2 & _). }
  split.
  - unfold fully_labelled. apply Forall_nth. intros i d Hi.
    rewrite (backfill_labels_length voted D k Hlv HlD) in Hi.
    rewrite (nth_indep _ d NaN)
      by now rewrite (backfill_labels_length voted D k Hlv HlD).
    now apply Hent.
  - intros i z Hi Hv. destruct (Hent i Hi) as [_ H].
    rewrite H; rewrite (Hvote i z Hi Hv); reflexivity.
Qed.

Lemma supervised_fit_labels_every_neuron_witness :
  exists c' b,
    cluster_fit three_samples (Some [5; 2; 5]%Z) two_neurons two_neurons
      (mkSOM_cluster (som_1x2_with "gaussian" "random" 3 None None) 2
                     [NaN; NaN] None) [] = (inr tt, c', []) /\
    bmus (base c') = Some b /\
    fully_labelled (neuron_to_label c').
Proof.
  destruct (supervised_fit_labels_every_neuron
              (mkSOM_cluster (som_1x2_with "gaussian" "random" 3 None None) 2
                             [NaN; NaN] None)
              three_samples two_neurons two_neurons [5; 2; 5]%Z gaussian
              [1%R; (3 / 4)%R; (1 / 2)%R] 2 2 [])
    as (c' & b & H1 & _ & H2 & _ & _ & H3 & _).
  - left; split; [reflexivity | simpl; lia].
  - reflexivity.
  - apply sigs_1x2_three_epochs; reflexivity.
  - reflexivity.
  - repeat constructor.
  - reflexivity.
  - lia.
  - reflexivity.
  - discriminate.
  - repeat constructor.
  - reflexivity.
  - repeat constructor.
  - reflexivity.
  - repeat constructor; simpl; lia.
  - simpl; lia.
  - apply example_codebook_moderate.
  - exists c', b. auto.
Defined.

(* ================================================================= *)
(** ** The clusterer after [fit], and [predict] on the training data *)

(** Supervised [fit] on arrays of matching shapes, in one equation. *)
Lemma cluster_fit_supervised_spec (c : SOM_cluster) (X W0 W1 : matrix)
      (y : list Z) (h : R -> Z -> F) (sigs : list R) (k f : nat)
      (out : list string) :
  initialises (base c) X ->
  kernel_of (neighbourhood (base c)) = Some h ->
  sigs_of (base c) = inr sigs ->
  length sigs = Z.to_nat (n_epochs (base c)) ->
  length (d2mat (base c)) = k -> rows_of_length k (d2mat (base c)) ->
  Z.to_nat (n_cols (base c) * n_rows (base c)) = k ->
  (0 < k)%nat ->
  length (neuron_to_label c) = k ->
  X <> [] -> rows_of_length f X ->
  length W0 = k -> rows_of_length f W0 ->
  length y = length X ->
  let K := kernel_tensor h sigs (d2mat (base c)) in
  let Wn := train_codebook K X (Z.to_nat (n_epochs (base c))) 0 W0 in
  let voted := apply_votes y (map (bmu_of Wn) X) k 0 (neuron_to_label c) in
  cluster_fit X (Some y) W0 W1 c out =
  (inr tt,
   set_neuron_to_label (backfill_labels voted (final_dmat Wn))
     (set_base (fitted (set_wts (Some W0) (base c)) K X Wn) c),
   out) /\
  length Wn = k /\ rows_of_length f Wn /\ length voted = k.
Proof.
  intros Hini Hfam Hs Hls Hd Hdr Hkk Hpos Hl2n HXne HX Hk HW Hy K Wn voted.
  pose proof (fit_spec (base c) X W0 h sigs k f out Hini Hfam Hs Hd Hdr Hpos
                HXne HX Hk HW) as Hfit.
  cbv zeta in Hfit. fold K in Hfit. fold Wn in Hfit.
  assert (HK : kernel_shape k K) by now apply kernel_tensor_shape.
  assert (HlK : length K = Z.to_nat (n_epochs (base c)))
    by (unfold K, kernel_tensor; now rewrite length_map).
  destruct (train_codebook_shape X K k f Hpos HXne HX HK
              (Z.to_nat (n_epochs (base c))) 0 W0) as [HWn1 HWn2];
    auto; try lia.
  fold Wn in HWn1, HWn2.
  set (s' := fitted (set_wts (Some W0) (base c)) K X Wn) in *.
  set (b := map (bmu_of Wn) X) in *.
  set (c1 := set_base s' c).
  set (D := final_dmat Wn).
  assert (Hlb : length b = length y)
    by (unfold b; rewrite length_map; congruence).
  assert (Hlv : length voted = k)
    by (unfold voted; now rewrite apply_votes_length).
  assert (HlD : length D = k) by (unfold D, final_dmat; now rewrite length_map).
  assert (HrD : rows_of_length k D).
  { unfold D, final_dmat, rows_of_length. apply Forall_map.
    rewrite Forall_forall. intros wa _. now rewrite length_map. }
  split; [|auto].
  unfold cluster_fit.
  rewrite (bind_inr (super_inr _ c _ _ _ _ Hfit)). fold c1.
  erewrite bind_inr by reflexivity.
  change (n_cols (base c1)) with (n_cols (base c)).
  change (n_rows (base c1)) with (n_rows (base c)).
  rewrite Hkk.
  assert (Hb1 : bmus (base c1) = Some b) by reflexivity.
  assert (Hn1 : (0 + k <= length (neuron_to_label c1))%nat)
    by (change (neuron_to_label c1) with (neuron_to_label c); lia).
  rewrite (bind_inr (label_loop_spec y b k 0 c1 out Hb1 Hlb Hn1)).
  change (neuron_to_label c1) with (neuron_to_label c). fold voted.
  rewrite (backfill_spec (set_neuron_to_label voted c1) D k out); auto.
Qed.

Lemma labels_of_unassigned (y : list Z) (b : list nat) (i : nat) :
  ~ In i b -> labels_of y b i = [].
Proof.
  revert y; induction b as [|b0 b IH]; intros [|y0 y] Hin; try reflexivity.
  unfold labels_of. cbn [combine filter snd].
  destruct (Nat.eqb_spec b0 i) as [E|E].
  - exfalso. apply Hin. now left.
  - apply IH. intros H. apply Hin. now right.
Qed.

Lemma vote_of_unassigned (y : list Z) (b : list nat) (i : nat) :
  length b = length y -> ~ In i b -> vote y (Some b) i = inr None.
Proof.
  intros Hl Hin. unfold vote. rewrite Hl, Nat.eqb_refl.
  fold (labels_of y b i). now rewrite labels_of_unassigned.
Qed.

(** X20.  The supervised [fit] (on a lattice and data for which the
    initialiser returns) does not start from unset labels: a
    neuron that no sample of the new data is assigned to, and that
    carried a label before the call, keeps that label -- it is neither
    voted on nor backfilled from its neighbours.  [labels_] is kept as
    well. *)
Theorem supervised_refit_keeps_stale_labels :
  forall (c : SOM_cluster) (X W0 W1 : matrix) (y : list Z)
         (h : R -> Z -> F) (k f : nat) (out : list string),
    initialises (base c) X ->
    kernel_of (neighbourhood (base c)) = Some h ->
    (0 <= n_epochs (base c))%Z ->
    length (d2mat (base c)) = k -> rows_of_length k (d2mat (base c)) ->
    Z.to_nat (n_cols (base c) * n_rows (base c)) = k ->
    (0 < k)%nat ->
    length (neuron_to_label c) = k ->
    X <> [] -> rows_of_length f X ->
    length W0 = k -> rows_of_length f W0 ->
    length y = length X ->
    exists c' b,
      cluster_fit X (Some y) W0 W1 c out = (inr tt, c', out) /\
      bmus (base c') = Some b /\
      labels_ c' = labels_ c /\
      forall i, (i < k)%nat -> ~ In i b ->
        Fis_nan (nth i (neuron_to_label c) NaN) = false ->
        nth i (neuron_to_label c') NaN = nth i (neuron_to_label c) NaN.
Proof.
  intros c X W0 W1 y h k f out Hini Hfam Hn Hd Hdr Hkk Hpos Hl2n HXne HX
         Hk HW Hy.
  destruct (sigs_of_nonneg (base c) Hn) as (sigs & Hs & Hls).
  destruct (cluster_fit_supervised_spec c X W0 W1 y h sigs k f out Hini Hfam
              Hs Hls Hd Hdr Hkk Hpos Hl2n HXne HX Hk HW Hy)
    as (Hrun & HWn1 & HWn2 & Hlv).
  set (K := kernel_tensor h sigs (d2mat (base c))) in *.
  set (Wn := train_codebook K X (Z.to_nat (n_epochs (base c))) 0 W0) in *.
  set (b := map (bmu_of Wn) X) in *.
  set (voted := apply_votes y b k 0 (neuron_to_label c)) in *.
  eexists. exists b. split; [exact Hrun|].
  split; [reflexivity|]. split; [reflexivity|].
  intros i Hi Hnot Hlab. cbn [neuron_to_label set_neuron_to_label].
  assert (Hlb : length b = length y)
    by (unfold b; rewrite length_map; congruence).
  assert (Ev : nth i voted NaN = nth i (neuron_to_label c) NaN).
  { destruct (apply_votes_entry y b k 0 i (neuron_to_label c))
      as [H|(z & Hz & _)]; [exact H|].
    rewrite (vote_of_unassigned y b i Hlb Hnot) in Hz. discriminate. }
  rewrite (backfill_labels_entry voted (final_dmat Wn) k i Hlv)
    by (auto; unfold final_dmat; now rewrite length_map).
  now rewrite Ev, Hlab.
Qed.

Lemma supervised_refit_keeps_stale_labels_witness :
  exists c' b,
    cluster_fit three_samples (Some [5; 2; 5]%Z) two_neurons two_neurons
      (mkSOM_cluster
         (som_1x2_with "gaussian" "random" 3 (Some two_neurons) None) 2
         [Fin 7; Fin 8] None) [] = (inr tt, c', []) /\
    bmus (base c') = Some b /\
    labels_ c' = None /\
    forall i, (i < 2)%nat -> ~ In i b ->
      Fis_nan (nth i [Fin 7; Fin 8] NaN) = false ->
      nth i (neuron_to_label c') NaN = nth i [Fin 7; Fin 8] NaN.
Proof.
  apply (supervised_refit_keeps_stale_labels
           (mkSOM_cluster
              (som_1x2_with "gaussian" "random" 3 (Some two_neurons) None) 2
              [Fin 7; Fin 8] None)
           three_samples two_neurons two_neurons [5; 2; 5]%Z gaussian
           2 2 []).
  - left; split; [reflexivity | simpl; lia].
  - reflexivity.
  - simpl; lia.
  - reflexivity.
  - repeat constructor.
  - reflexivity.
  - lia.
  - reflexivity.
  - discriminate.
  - repeat constructor.
  - reflexivity.
  - repeat constructor.
  - reflexivity.
Defined.

(** Unsupervised [fit] on arrays of matching shapes, in one equation. *)
Lemma forallb_nan_false (l : list F) (i : nat) :
  (i < length l)%nat -> Fis_nan (nth i l NaN) = false ->
  forallb Fis_nan l = false.
Proof.
  intros Hi H. destruct (forallb Fis_nan l) eqn:E; [|reflexivity].
  rewrite forallb_forall in E. rewrite E in H; [discriminate|].
  now apply nth_In.
Qed.

(** [predict] of the clusterer on a labelled object, in one equation. *)
Lemma cluster_predict_spec (c : SOM_cluster) (X W : matrix) (f i : nat)
      (out : list string) :
  (i < length (neuron_to_label c))%nat ->
  Fis_nan (nth i (neuron_to_label c) NaN) = false ->
  wts (base c) = Some W -> W <> [] ->
  rows_of_length f X -> rows_of_length f W ->
  length (neuron_to_label c) = length W ->
  cluster_predict X c out =
  (inr (Some (map (fun x => nth (bmu_of W x) (neuron_to_label c) NaN) X)),
   c, out).
Proof.
  intros Hi Hlab Hw HWne HX HW Hlen.
  unfold cluster_predict.
  erewrite bind_inr by reflexivity.
  rewrite (forallb_nan_false _ i Hi Hlab).
  erewrite bind_inr
    by (apply super_inr; apply (calc_BMUs_spec (base c) X W f out);
        assumption).
  rewrite set_base_same.
  unfold bind, lift.
  rewrite (take_spec (neuron_to_label c) (map (bmu_of W) X) NaN).
  - now rewrite map_map.
  - apply Forall_map. rewrite Forall_forall. intros x _.
    rewrite Hlen. now apply bmu_of_bound.
Qed.

(** X21.  After an unsupervised [fit] that completes (on input as in
    X15: the first-stage codebook has at least two features and moderate
    finite values, and [1 <= n_clusters <= 2^31]), [predict] on the
    training data returns the cluster labels that [fit] stored in
    [labels_], as floats. *)
Theorem unsupervised_predict_reproduces_labels :
  forall (c : SOM_cluster) (X W0 W1 : matrix) (h : R -> Z -> F)
         (sigs : list R) (k f : nat) (out : list string),
    initialises (base c) X ->
    kernel_of (neighbourhood (base c)) = Some h ->
    sigs_of (base c) = inr sigs ->
    length (d2mat (base c)) = k -> rows_of_length k (d2mat (base c)) ->
    (0 < k)%nat ->
    X <> [] -> rows_of_length f X ->
    length W0 = k -> rows_of_length f W0 ->
    (1 <= n_clusters c <= 2 ^ 31)%Z ->
    length W1 = Z.to_nat (n_clusters c) -> rows_of_length f W1 ->
    length (neuron_to_label c) = k ->
    (2 <= f)%nat -> (Z.of_nat k <= 2 ^ 20)%Z ->
    Forall (Forall moderate) (trained_codebook (base c) h sigs X W0) ->
    exists c' l,
      cluster_fit X None W0 W1 c out = (inr tt, c', out) /\
      labels_ c' = Some (Arr1 l) /\
      length l = length X /\
      forall out',
        cluster_predict X c' out' =
        (inr (Some (map (fun n => FZ (Z.of_nat n)) l)), c', out').
Proof.
  intros c X W0 W1 h sigs k f out Hini Hfam Hs Hd Hdr Hpos HXne HX Hk HW
         Hnc HlW1 HW1 Hl2n Hf Hk20 Hmod.
  destruct (cluster_fit_unsupervised_spec c X W0 W1 h sigs k f out Hini Hfam
              Hs Hd Hdr Hpos HXne HX Hk HW Hnc HlW1 HW1 Hl2n Hf Hk20 Hmod)
    as (s' & sigs2 & sb & _ & _ & Hrun & Hw & Hb & HWn1 & HWn2 & Hlsb & _).
  set (Wn := trained_codebook (base c) h sigs X W0) in *.
  eexists. eexists. split; [exact Hrun|].
  split; [reflexivity|]. split; [now rewrite !length_map|].
  intros out'.
  assert (HWne : Wn <> [])
    by (destruct Wn; [simpl in HWn1; lia | discriminate]).
  rewrite (cluster_predict_spec _ X Wn f 0 out').
  - cbn [neuron_to_label set_labels_ set_neuron_to_label].
    rewrite !map_map.
    assert (E : map (fun x => nth (bmu_of Wn x)
                                  (map (fun j => FZ (Z.of_nat j)) sb) NaN) X
                = map (fun x => FZ (Z.of_nat (nth (bmu_of Wn x) sb 0%nat))) X).
    { apply map_ext. intros x.
      apply (map_nth_in (fun j => FZ (Z.of_nat j)) sb 0%nat NaN).
      rewrite Hlsb, <- HWn1. now apply bmu_of_bound. }
    now rewrite E.
  - cbn [neuron_to_label set_labels_ set_neuron_to_label].
    rewrite length_map. lia.
  - cbn [neuron_to_label set_labels_ set_neuron_to_label].
    destruct sb; [simpl in Hlsb; lia | reflexivity].
  - exact Hw.
  - exact HWne.
  - exact HX.
  - exact HWn2.
  - cbn [neuron_to_label set_labels_ set_neuron_to_label].
    rewrite length_map. congruence.
Qed.

Lemma unsupervised_predict_reproduces_labels_witness :
  exists c' l,
    cluster_fit three_samples None two_neurons two_neurons
      (mkSOM_cluster (som_1x2_with "gaussian" "random" 3 None None) 2
                     [NaN; NaN] None) [] = (inr tt, c', []) /\
    labels_ c' = Some (Arr1 l) /\
    length l = 3%nat /\
    forall out',
      cluster_predict three_samples c' out' =
      (inr (Some (map (fun n => FZ (Z.of_nat n)) l)), c', out').
Proof.
  apply (unsupervised_predict_reproduces_labels
           (mkSOM_cluster (som_1x2_with "gaussian" "random" 3 None None) 2
                          [NaN; NaN] None)
           three_samples two_neurons two_neurons gaussian
           [1%R; (3 / 4)%R; (1 / 2)%R] 2 2 []).
  - left; split; [reflexivity | simpl; lia].
  - reflexivity.
  - apply sigs_1x2_three_epochs; reflexivity.
  - reflexivity.
  - repeat constructor.
  - lia.
  - discriminate.
  - repeat constructor.
  - reflexivity.
  - repeat constructor.
  - simpl; lia.
  - reflexivity.
  - repeat constructor.
  - reflexivity.
  - lia.
  - simpl; lia.
  - apply example_codebook_moderate.
Defined.

(** X22.  After a supervised [fit] on a lattice and data for which the
    initialiser returns, with one label per sample (integers of magnitude
    up to [2^53], which the float array of labels holds exactly),
    [predict] on the training data returns for every sample the label
    voted by the samples that share its best-matching unit. *)
Theorem supervised_predict_returns_votes :
  forall (c : SOM_cluster) (X W0 W1 : matrix) (y : list Z)
         (h : R -> Z -> F) (k f : nat) (out : list string),
    initialises (base c) X ->
    kernel_of (neighbourhood (base c)) = Some h ->
    (0 <= n_epochs (base c))%Z ->
    length (d2mat (base c)) = k -> rows_of_length k (d2mat (base c)) ->
    Z.to_nat (n_cols (base c) * n_rows (base c)) = k ->
    (0 < k)%nat ->
    length (neuron_to_label c) = k ->
    X <> [] -> rows_of_length f X ->
    length W0 = k -> rows_of_length f W0 ->
    length y = length X ->
    Forall (fun z => (Z.abs z <= 2 ^ 53)%Z) y ->
    exists c' b l,
      cluster_fit X (Some y) W0 W1 c out = (inr tt, c', out) /\
      bmus (base c') = Some b /\ length b = length X /\
      (forall out', cluster_predict X c' out' = (inr (Some l), c', out')) /\
      length l = length X /\
      forall n, (n < length X)%nat ->
        exists z, vote y (Some b) (nth n b 0%nat) = inr (Some z) /\
                  nth n l NaN = FZ z.
Proof.
  intros c X W0 W1 y h k f out Hini Hfam Hn Hd Hdr Hkk Hpos Hl2n HXne HX
         Hk HW Hy Hy53.
  destruct (sigs_of_nonneg (base c) Hn) as (sigs & Hs & Hls).
  destruct (cluster_fit_supervised_spec c X W0 W1 y h sigs k f out Hini Hfam
              Hs Hls Hd Hdr Hkk Hpos Hl2n HXne HX Hk HW Hy)
    as (Hrun & HWn1 & HWn2 & Hlv).
  set (K := kernel_tensor h sigs (d2mat (base c))) in *.
  set (Wn := train_codebook K X (Z.to_nat (n_epochs (base c))) 0 W0) in *.
  set (b := map (bmu_of Wn) X) in *.
  set (voted := apply_votes y b k 0 (neuron_to_label c)) in *.
  set (D := final_dmat Wn) in *.
  assert (HWne : Wn <> [])
    by (destruct Wn; [simpl in HWn1; lia | discriminate]).
  assert (HlD : length D = k) by (unfold D, final_dmat; now rewrite length_map).
  assert (Hlb : length b = length y)
    by (unfold b; rewrite length_map; congruence).
  assert (Hbk : forall n, (n < length X)%nat -> (nth n b 0%nat < k)%nat).
  { intros n Hn'. unfold b.
    rewrite (map_nth_in _ X [] 0%nat) by exact Hn'.
    rewrite <- HWn1. now apply bmu_of_bound. }
  assert (Hlab : forall n, (n < length X)%nat ->
            exists z, vote y (Some b) (nth n b 0%nat) = inr (Some z) /\
                      nth (nth n b 0%nat) (backfill_labels voted D) NaN
                      = FZ z).
  { intros n Hn'.
    assert (Hin : In (nth n b 0%nat) b)
      by (apply nth_In; rewrite Hlb, Hy; exact Hn').
    destruct (vote_of_assigned y b _ Hlb Hin) as [z Hz].
    exists z. split; [exact Hz|].
    rewrite (backfill_labels_entry voted D k _ Hlv HlD (Hbk n Hn')).
    unfold voted.
    rewrite (apply_votes_voted y b k 0 _ (neuron_to_label c) z);
      auto; try reflexivity.
    - specialize (Hbk n Hn'). lia.
    - rewrite Hl2n. now apply Hbk. }
  set (c' := set_neuron_to_label (backfill_labels voted D)
               (set_base (fitted (set_wts (Some W0) (base c)) K X Wn) c))
    in *.
  assert (Hl' : neuron_to_label c' = backfill_labels voted D)
    by reflexivity.
  exists c', b.
  exists (map (fun x => nth (bmu_of Wn x) (backfill_labels voted D) NaN) X).
  split; [exact Hrun|]. split; [reflexivity|].
  split; [now apply length_map|].
  assert (H0 : (0 < length X)%nat)
    by (destruct X; [congruence | simpl; lia]).
  split.
  - intros out'.
    destruct (Hlab 0%nat H0) as (z & _ & Ez).
    rewrite (cluster_predict_spec c' X Wn f (nth 0 b 0%nat) out').
    + now rewrite Hl'.
    + rewrite Hl', (backfill_labels_length voted D k Hlv HlD).
      now apply Hbk.
    + now rewrite Hl', Ez.
    + reflexivity.
    + exact HWne.
    + exact HX.
    + exact HWn2.
    + rewrite Hl', (backfill_labels_length voted D k Hlv HlD). congruence.
  - split; [now apply length_map|].
    intros n Hn'. destruct (Hlab n Hn') as (z & Hz & Ez).
    exists z. split; [exact Hz|].
    rewrite (map_nth_in _ X [] NaN) by exact Hn'.
    rewrite <- Ez. unfold b.
    now rewrite (map_nth_in _ X [] 0%nat) by exact Hn'.
Qed.

Lemma supervised_predict_returns_votes_witness :
  exists c' b l,
    cluster_fit three_samples (Some [5; 2; 5]%Z) two_neurons two_neurons
      (mkSOM_cluster (som_1x2_with "gaussian" "random" 3 None None) 2
                     [NaN; NaN] None) [] = (inr tt, c', []) /\
    bmus (base c') = Some b /\ length b = 3%nat /\
    (forall out',
        cluster_predict three_samples c' out' = (inr (Some l), c', out')) /\
    length l = 3%nat /\
    forall n, (n < 3)%nat ->
      exists z, vote [5; 2; 5]%Z (Some b) (nth n b 0%nat) = inr (Some z) /\
                nth n l NaN = FZ z.
Proof.
  apply (supervised_predict_returns_votes
           (mkSOM_cluster (som_1x2_with "gaussian" "random" 3 None None) 2
                          [NaN; NaN] None)
           three_samples two_neurons two_neurons [5; 2; 5]%Z gaussian
           2 2 []).
  - left; split; [reflexivity | simpl; lia].
  - reflexivity.
  - simpl; lia.
  - reflexivity.
  - repeat constructor.
  - reflexivity.
  - lia.
  - reflexivity.
  - discriminate.
  - repeat constructor.
  - reflexivity.
  - repeat constructor.
  - reflexivity.
  - repeat constructor; simpl; lia.
Defined.

(* ================================================================= *)
(** * Further properties: the U-matrix *)

(** ** Cells of a two-dimensional array *)

Lemma set_cell_length (u : matrix) (a b : nat) (v : F) :
  length (set_cell u a b v) = length u.
Proof. unfold set_cell. apply update_nth_length. Qed.

Lemma set_cell_rows (u : matrix) (a b w : nat) (v : F) :
  rows_of_length w u -> rows_of_length w (set_cell u a b v).
Proof.
  unfold rows_of_length, set_cell. intros H.
  apply Forall_nth. intros n d Hn. rewrite update_nth_length in Hn.
  rewrite (nth_indep _ d []) by now rewrite update_nth_length.
  rewrite Forall_forall in H.
  destruct (Nat.eq_dec a n) as [->|Hne].
  - rewrite update_nth_same by exact Hn. rewrite update_nth_length.
    apply H. now apply nth_In.
  - rewrite update_nth_other by exact Hne. apply H. now apply nth_In.
Qed.

Lemma set_cell_get (u : matrix) (a' b' a b : nat) (v : F) :
  (a' < length u)%nat -> (b' < length (nth a' u []))%nat ->
  mentry (set_cell u a' b' v) a b =
  if ((a' =? a)%nat && (b' =? b)%nat)%bool then v else mentry u a b.
Proof.
  intros Ha Hb. unfold mentry, set_cell.
  destruct (Nat.eqb_spec a' a) as [->|Hne]; cbn [andb].
  - rewrite update_nth_same by exact Ha.
    destruct (Nat.eqb_spec b' b) as [->|Hne'].
    + now apply update_nth_same.
    + now apply update_nth_other.
  - now rewrite update_nth_other by exact Hne.
Qed.

Lemma apply_writes_app (u : matrix) (w1 w2 : list (nat * nat * F)) :
  apply_writes u (w1 ++ w2) = apply_writes (apply_writes u w1) w2.
Proof. unfold apply_writes. apply fold_left_app. Qed.

Lemma apply_writes_shape (h w : nat) (ws : list (nat * nat * F))
      (u : matrix) :
  length u = h -> rows_of_length w u ->
  length (apply_writes u ws) = h /\ rows_of_length w (apply_writes u ws).
Proof.
  revert u; induction ws as [|[[a b] v] ws IH]; intros u Hl Hr; [auto|].
  cbn [apply_writes fold_left fst snd]. apply IH.
  - now rewrite set_cell_length.
  - now apply set_cell_rows.
Qed.

Lemma last_write_in (a b : nat) (ws : list (nat * nat * F)) (v : F) :
  last_write a b ws = Some v -> In (a, b, v) ws.
Proof.
  induction ws as [|[[a' b'] v'] ws IH]; cbn [last_write]; [discriminate|].
  destruct (last_write a b ws) as [v0|].
  - intros H; injection H as <-. right. now apply IH.
  - destruct (Nat.eqb_spec a' a) as [->|]; [|discriminate].
    destruct (Nat.eqb_spec b' b) as [->|]; [|discriminate].
    cbn [andb]. intros H; injection H as <-. now left.
Qed.

Lemma last_write_none (a b : nat) (ws : list (nat * nat * F)) :
  (forall v, ~ In (a, b, v) ws) -> last_write a b ws = None.
Proof.
  induction ws as [|[[a' b'] v'] ws IH]; intros H; cbn [last_write]; auto.
  rewrite IH by (intros v Hv; apply (H v); now right).
  destruct (Nat.eqb_spec a' a) as [->|]; [|reflexivity].
  destruct (Nat.eqb_spec b' b) as [->|]; [|reflexivity].
  exfalso. apply (H v'). now left.
Qed.

Lemma last_write_unique (a b : nat) (ws : list (nat * nat * F)) (v : F) :
  In (a, b, v) ws -> (forall v', In (a, b, v') ws -> v' = v) ->
  last_write a b ws = Some v.
Proof.
  intros Hin Hu.
  destruct (last_write a b ws) as [v'|] eqn:E.
  - f_equal. apply Hu. now apply last_write_in.
  - exfalso. revert Hin E. clear Hu.
    induction ws as [|[[a' b'] v'] ws IH]; cbn [last_write In]; [tauto|].
    intros [H|H].
    + injection H as -> -> ->. rewrite !Nat.eqb_refl.
      destruct (last_write a b ws); discriminate.
    + destruct (last_write a b ws); [discriminate|]. intros _.
      now apply IH.
Qed.

Lemma last_write_app (a b : nat) (w1 w2 : list (nat * nat * F)) :
  last_write a b (w1 ++ w2) =
  match last_write a b w2 with
  | Some v => Some v
  | None => last_write a b w1
  end.
Proof.
  induction w1 as [|[[a' b'] v'] w1 IH]; cbn [app last_write].
  - now destruct (last_write a b w2).
  - rewrite IH. now destruct (last_write a b w2).
Qed.

(** A cell holds what the last write to it carried. *)
Lemma apply_writes_get (h w : nat) (ws : list (nat * nat * F))
      (u : matrix) (a b : nat) :
  length u = h -> rows_of_length w u -> writes_within h w ws ->
  mentry (apply_writes u ws) a b =
  match last_write a b ws with
  | Some v => v
  | None => mentry u a b
  end.
Proof.
  revert u; induction ws as [|[[a' b'] v'] ws IH]; intros u Hl Hr Hw;
    [reflexivity|].
  inversion Hw as [|x l [Ha Hb] Hw']; subst. cbn [fst snd] in Ha, Hb.
  cbn [apply_writes fold_left fst snd last_write].
  change (fold_left _ ws (set_cell u a' b' v'))
    with (apply_writes (set_cell u a' b' v') ws).
  rewrite IH; [| now rewrite set_cell_length | now apply set_cell_rows
               | exact Hw'].
  destruct (last_write a b ws); [reflexivity|].
  rewrite set_cell_get; [| lia |].
  - now destruct ((a' =? a)%nat && (b' =? b)%nat)%bool.
  - unfold rows_of_length in Hr. rewrite Forall_forall in Hr.
    rewrite (Hr (nth a' u [])); [exact Hb | apply nth_In; lia].
Qed.

(** The last of the neurons [0 .. k-1] that writes a cell decides it. *)
Lemma last_write_flat_map (a b : nat) (f : nat -> list (nat * nat * F))
      (k j : nat) (v : F) :
  (j < k)%nat -> last_write a b (f j) = Some v ->
  (forall j', (j < j' < k)%nat -> last_write a b (f j') = None) ->
  last_write a b (flat_map f (seq 0 k)) = Some v.
Proof.
  induction k as [|k IH]; intros Hj Hv Hlater; [lia|].
  rewrite seq_S, flat_map_app. cbn [flat_map Nat.add]. rewrite app_nil_r.
  rewrite last_write_app.
  destruct (Nat.eq_dec j k) as [->|Hne].
  - now rewrite Hv.
  - rewrite Hlater by lia. apply IH; [lia | exact Hv|].
    intros j' Hj'. apply Hlater. lia.
Qed.

(** ** The array operations of [umatrix] *)

Lemma chunks_length {A} (n w : nat) (l : list A) : length (chunks n w l) = n.
Proof.
  revert l; induction n as [|n IH]; intros l; cbn [chunks length]; auto.
Qed.

Lemma chunks_nth {A} (n w r' : nat) (l : list A) :
  (r' < n)%nat -> nth r' (chunks n w l) [] = firstn w (skipn (r' * w) l).
Proof.
  revert r' l; induction n as [|n IH]; intros r' l Hr; [lia|].
  destruct r' as [|r']; cbn [chunks nth]; [reflexivity|].
  rewrite IH by lia. rewrite skipn_skipn. do 2 f_equal. lia.
Qed.

Lemma chunks_entry {A} (n w r' c' : nat) (l : list A) (d : A) :
  (r' < n)%nat -> (c' < w)%nat ->
  nth c' (nth r' (chunks n w l) []) d = nth (r' * w + c') l d.
Proof.
  intros Hr Hc. rewrite chunks_nth by exact Hr.
  rewrite nth_firstn. apply Nat.ltb_lt in Hc. rewrite Hc.
  now rewrite nth_skipn.
Qed.

Lemma chunks_row_length {A} (n w r' : nat) (l : list A) :
  length l = (n * w)%nat -> (r' < n)%nat ->
  length (nth r' (chunks n w l) []) = w.
Proof.
  intros Hl Hr. rewrite chunks_nth by exact Hr.
  rewrite length_firstn, length_skipn. nia.
Qed.

Lemma chunks_concat {A} (n w : nat) (l : list A) :
  length l = (n * w)%nat -> concat (chunks n w l) = l.
Proof.
  revert l; induction n as [|n IH]; intros l Hl; cbn [chunks concat].
  - destruct l; [reflexivity | simpl in Hl; lia].
  - rewrite IH by (rewrite length_skipn; lia). apply firstn_skipn.
Qed.

Lemma where_else_nan_spec (m : list (list bool)) (a : matrix) (k : nat) :
  length m = length a -> rows_of_length k m -> rows_of_length k a ->
  where_else_nan m a =
  inr (map2 (map2 (fun (t : bool) (v : F) => if t then v else NaN)) m a).
Proof.
  intros Hl Hm Ha. unfold where_else_nan.
  rewrite bcast2_same_length by exact Hl. cbn [res_bind].
  clear Hl. revert a Ha; induction Hm as [|row m Hrow Hm IH];
    intros a Ha; [reflexivity|].
  destruct Ha as [|row' a Hrow' Ha]; [reflexivity|].
  cbn [map2 res_mapM].
  rewrite bcast2_same_length by congruence. cbn [res_bind].
  now rewrite IH.
Qed.

Lemma axis_index_in_range (n a : nat) :
  (a < n)%nat -> axis_index n (Z.of_nat a) = inr a.
Proof.
  intros H. unfold axis_index.
  assert (E1 : (Z.of_nat a <? - Z.of_nat n)%Z = false)
    by (apply Z.ltb_ge; lia).
  assert (E2 : (Z.of_nat n <=? Z.of_nat a)%Z = false)
    by (apply Z.leb_gt; lia).
  assert (E3 : (Z.of_nat a <? 0)%Z = false) by (apply Z.ltb_ge; lia).
  rewrite E1, E2, E3. cbn [orb]. now rewrite Nat2Z.id.
Qed.

Lemma setitem2_in_range (u : matrix) (a b : nat) (v : F) :
  (a < length u)%nat -> (b < n_columns u)%nat ->
  setitem2 u (Z.of_nat a) (Z.of_nat b) v = inr (set_cell u a b v).
Proof.
  intros Ha Hb. unfold setitem2.
  rewrite !axis_index_in_range by assumption. reflexivity.
Qed.

(** On the lattice, the mask [0 < d2 <= 2] selects the neighbours. *)
Lemma neighbour_mask_adjacent (c k : nat) (d2 : list (list Z)) (i j : nat) :
  (0 < c)%nat -> lattice_distances (Z.of_nat c) k d2 ->
  (i < k)%nat -> (j < k)%nat ->
  neighbour_mask (entry d2 i j) = adjacent c i j.
Proof.
  intros Hc [_ H] Hi Hj. destruct (H i j Hi Hj) as (_ & E & _).
  rewrite E. rewrite <- !Nat2Z.inj_div, <- !Nat2Z.inj_mod.
  pose proof (Nat.div_mod_eq i c) as Ei.
  pose proof (Nat.div_mod_eq j c) as Ej.
  assert (Hlt1 : (i mod c < c)%nat) by (apply Nat.mod_upper_bound; lia).
  assert (Hlt2 : (j mod c < c)%nat) by (apply Nat.mod_upper_bound; lia).
  unfold neighbour_mask, adjacent.
  set (qi := (i / c)%nat) in *. set (ri := (i mod c)%nat) in *.
  set (qj := (j / c)%nat) in *. set (rj := (j mod c)%nat) in *.
  clearbody qi ri qj rj.
  apply eq_true_iff_eq.
  rewrite !andb_true_iff, negb_true_iff, Z.ltb_lt, Z.leb_le, !Nat.leb_le,
    Nat.eqb_neq.
  split.
  - intros [H1 H2].
    assert (Hq : (qi <= qj + 1 /\ qj <= qi + 1)%nat) by nia.
    assert (Hr : (ri <= rj + 1 /\ rj <= ri + 1)%nat) by nia.
    repeat split; try lia.
    intros Eij.
    assert (Eq : qi = qj) by nia.
    assert (Er : ri = rj) by nia.
    subst qi ri. lia.
  - intros ((((Hne & H1) & H2) & H3) & H4).
    assert (Hq : (qj = qi \/ qj = qi + 1 \/ qi = qj + 1)%nat) by lia.
    assert (Hr : (rj = ri \/ rj = ri + 1 \/ ri = rj + 1)%nat) by lia.
    destruct Hq as [Hq | [Hq | Hq]]; destruct Hr as [Hr | [Hr | Hr]];
      subst; split; lia.
Qed.

(** ** Positions on the lattice *)

Lemma quotient_bound (r c i : nat) :
  (0 < c)%nat -> (i < r * c)%nat -> (i / c < r)%nat.
Proof. intros Hc H. apply Nat.Div0.div_lt_upper_bound; lia. Qed.

Lemma remainder_bound (c i : nat) : (0 < c)%nat -> (i mod c < c)%nat.
Proof. intros Hc. apply Nat.mod_upper_bound. lia. Qed.

Lemma position_of (c q p : nat) :
  (0 < c)%nat -> (p < c)%nat -> ((q * c + p) / c = q /\ (q * c + p) mod c = p)%nat.
Proof.
  intros Hc Hp. split.
  - rewrite Nat.div_add_l by lia. rewrite Nat.div_small by exact Hp. lia.
  - rewrite Nat.add_comm, Nat.Div0.mod_add. now apply Nat.mod_small.
Qed.

(** Adjacency of neuron [i] and the neuron at row [r'], column [c']. *)
Lemma adjacent_positions (c i r' c' : nat) :
  (0 < c)%nat -> (c' < c)%nat ->
  adjacent c i (r' * c + c') = true <->
  ((i / c <> r' \/ i mod c <> c') /\
   i / c <= r' + 1 /\ r' <= i / c + 1 /\
   i mod c <= c' + 1 /\ c' <= i mod c + 1)%nat.
Proof.
  intros Hc Hc'. unfold adjacent.
  destruct (position_of c r' c' Hc Hc') as [-> ->].
  pose proof (Nat.div_mod_eq i c) as Ei.
  rewrite !andb_true_iff, negb_true_iff, !Nat.leb_le, Nat.eqb_neq.
  split.
  - intros ((((Hne & H1) & H2) & H3) & H4). repeat split; lia.
  - intros (Hne & H1 & H2 & H3 & H4). repeat split; try lia.
    intros E. rewrite E in Hne.
    destruct (position_of c r' c' Hc Hc') as [E1 E2].
    rewrite E1, E2 in Hne. destruct Hne; congruence.
Qed.

Lemma in_writes_of (r c : nat) (D : matrix) (i a b : nat) (v : F) :
  In (a, b, v) (writes_of r c D i) ->
  (a = 2 * (i / c) /\ b = 2 * (i mod c) /\
   v = mean_of_present (neighbour_distances c (r * c) D i))%nat \/
  exists r' c',
    (r' < r)%nat /\ (c' < c)%nat /\
    adjacent c i (r' * c + c') = true /\
    (a = i / c + r')%nat /\ (b = i mod c + c')%nat /\
    v = mentry D i (r' * c + c').
Proof.
  unfold writes_of. intros [H|H].
  - injection H as <- <- <-. now left.
  - right. apply in_flat_map in H. destruct H as (r' & Hr' & H).
    apply in_map_iff in H. destruct H as (c' & E & Hc').
    injection E as <- <- <-. apply in_seq in Hr'.
    apply filter_In in Hc'. destruct Hc' as [Hc' Hpass].
    apply in_seq in Hc'. apply andb_true_iff in Hpass.
    exists r', c'. repeat split; try lia; tauto.
Qed.

Lemma neighbour_write_in (r c : nat) (D : matrix) (i r' c' : nat) :
  (r' < r)%nat -> (c' < c)%nat ->
  adjacent c i (r' * c + c') = true ->
  Fis_nan (mentry D i (r' * c + c')) = false ->
  In ((i / c + r')%nat, (i mod c + c')%nat, mentry D i (r' * c + c'))
     (writes_of r c D i).
Proof.
  intros Hr' Hc' Hadj Hv. unfold writes_of. right.
  apply in_flat_map. exists r'. split; [apply in_seq; lia|].
  apply in_map_iff. exists c'. split; [reflexivity|].
  apply filter_In. split; [apply in_seq; lia|].
  now rewrite Hadj, Hv.
Qed.

Lemma writes_of_within (r c : nat) (D : matrix) (i : nat) :
  (0 < c)%nat -> (i < r * c)%nat -> writes_within (2 * r - 1) (2 * c - 1) (writes_of r c D i).
Proof.
  intros Hc Hi. pose proof (quotient_bound r c i Hc Hi) as Hq.
  pose proof (remainder_bound c i Hc) as Hp.
  unfold writes_within. rewrite Forall_forall. intros [[a b] v] Hin.
  cbn [fst snd].
  destruct (in_writes_of r c D i a b v Hin)
    as [(-> & -> & _) | (r' & c' & Hr' & Hc' & _ & -> & -> & _)]; lia.
Qed.

Lemma all_writes_within (r c : nat) (D : matrix) (l : list nat) :
  (0 < c)%nat ->
  (forall i, In i l -> (i < r * c)%nat) ->
  writes_within (2 * r - 1) (2 * c - 1) (flat_map (writes_of r c D) l).
Proof.
  intros Hc H. unfold writes_within. rewrite Forall_forall. intros x Hx.
  apply in_flat_map in Hx. destruct Hx as (i & Hi & Hx).
  pose proof (writes_of_within r c D i Hc (H i Hi)) as Hw.
  unfold writes_within in Hw. rewrite Forall_forall in Hw. now apply Hw.
Qed.

(** The cell of a neuron is written once, with its mean. *)
Lemma neuron_cell_last_write (r c : nat) (D : matrix) (i : nat) :
  (0 < c)%nat -> (i < r * c)%nat ->
  last_write (2 * (i / c)) (2 * (i mod c))
             (flat_map (writes_of r c D) (seq 0 (r * c)))
  = Some (mean_of_present (neighbour_distances c (r * c) D i)).
Proof.
  intros Hc Hi. apply (last_write_flat_map _ _ _ _ i); [exact Hi | |].
  - apply last_write_unique; [now left|].
    intros v' Hin.
    destruct (in_writes_of r c D i _ _ v' Hin)
      as [(_ & _ & ->) | (r' & c' & Hr' & Hc' & Hadj & Ha & Hb & _)];
      [reflexivity|].
    apply adjacent_positions in Hadj; [|exact Hc|exact Hc']. lia.
  - intros j' Hj'. apply last_write_none. intros v Hin.
    pose proof (Nat.div_mod_eq i c) as Ei.
    pose proof (Nat.div_mod_eq j' c) as Ej.
    destruct (in_writes_of r c D j' _ _ v Hin)
      as [(Ha & Hb & _) | (r' & c' & Hr' & Hc' & Hadj & Ha & Hb & _)].
    + assert (E1 : (j' / c = i / c)%nat) by lia.
      assert (E2 : (j' mod c = i mod c)%nat) by lia.
      rewrite E1, E2 in Ej. lia.
    + apply adjacent_positions in Hadj; [|exact Hc|exact Hc']. lia.
Qed.

(** The cell half-way between the neuron at [(q, p)] and its neighbour
    [dq] rows down and [dp] columns to the right is last written by that
    neighbour. *)
Lemma between_cell_last_write (r c : nat) (D : matrix) (q p dq dp : nat) :
  (0 < c)%nat -> (q + dq < r)%nat -> (p + dp < c)%nat ->
  (dq <= 1)%nat -> (dp <= 1)%nat -> (1 <= dq + dp)%nat ->
  Fis_nan (mentry D ((q + dq) * c + (p + dp)) (q * c + p)) = false ->
  last_write (2 * q + dq) (2 * p + dp)
             (flat_map (writes_of r c D) (seq 0 (r * c)))
  = Some (mentry D ((q + dq) * c + (p + dp)) (q * c + p)).
Proof.
  intros Hc Hq Hp Hdq Hdp Hd Hv.
  set (j := ((q + dq) * c + (p + dp))%nat) in *.
  destruct (position_of c (q + dq) (p + dp)) as [Ejq Ejp]; [lia|lia|].
  fold j in Ejq, Ejp.
  assert (Hj : (j < r * c)%nat) by (unfold j; nia).
  apply (last_write_flat_map _ _ _ _ j); [exact Hj | |].
  - assert (Hadj : adjacent c j (q * c + p) = true)
      by (apply adjacent_positions; [lia|lia|]; rewrite Ejq, Ejp; lia).
    apply last_write_unique.
    + pose proof (neighbour_write_in r c D j q p ltac:(lia) ltac:(lia) Hadj Hv)
        as Hin.
      rewrite Ejq, Ejp in Hin.
      replace (2 * q + dq)%nat with (q + dq + q)%nat by lia.
      replace (2 * p + dp)%nat with (p + dp + p)%nat by lia.
      exact Hin.
    + intros v' Hin.
      destruct (in_writes_of r c D j _ _ v' Hin)
        as [(Ha & Hb & _) | (r' & c' & Hr' & Hc' & _ & Ha & Hb & ->)].
      * rewrite Ejq in Ha. rewrite Ejp in Hb. lia.
      * rewrite Ejq in Ha. rewrite Ejp in Hb.
        assert (r' = q) by lia. assert (c' = p) by lia. now subst.
  - intros j' Hj'. apply last_write_none. intros v Hin.
    pose proof (Nat.div_mod_eq j' c) as Ej.
    pose proof (remainder_bound c j' Hc) as Hp'.
    destruct (in_writes_of r c D j' _ _ v Hin)
      as [(Ha & Hb & _) | (r' & c' & Hr' & Hc' & Hadj & Ha & Hb & _)].
    + lia.
    + apply adjacent_positions in Hadj; [|exact Hc|exact Hc'].
      assert (H1 : (j' / c <= q + dq)%nat) by lia.
      assert (H2 : (j' mod c <= p + dp)%nat) by lia.
      assert (H3 : (c * (j' / c) <= c * (q + dq))%nat)
        by (apply Nat.mul_le_mono_l; exact H1).
      unfold j in Hj'. lia.
Qed.

Lemma map_flat_map {A B C} (f : B -> C) (g : A -> list B) (l : list A) :
  map f (flat_map g l) = flat_map (fun x => map f (g x)) l.
Proof.
  induction l as [|a l IH]; cbn [flat_map map]; [reflexivity|].
  now rewrite map_app, IH.
Qed.

Lemma flat_map_ext_in {A B} (f g : A -> list B) (l : list A) :
  (forall a, In a l -> f a = g a) -> flat_map f l = flat_map g l.
Proof.
  induction l as [|a l IH]; intros H; cbn [flat_map]; [reflexivity|].
  rewrite (H a) by now left. rewrite IH; [reflexivity|].
  intros x Hx. apply H. now right.
Qed.

Lemma filter_masked {A} (p : A -> bool) (g : A -> F) (l : list A) :
  filter (fun v => negb (Fis_nan v))
         (map (fun j => if p j then g j else NaN) l)
  = filter (fun v => negb (Fis_nan v)) (map g (filter p l)).
Proof.
  induction l as [|a l IH]; cbn [map filter]; [reflexivity|].
  destruct (p a); cbn [map filter Fis_nan negb]; now rewrite IH.
Qed.

(** Writing a list of cells through [setitem2], all of them in range. *)
Lemma fold_setitem2 (h w q p : nat) (dn : matrix) (items : list (nat * nat))
      (u : matrix) :
  length u = h -> rows_of_length w u ->
  (forall rc, In rc items ->
     (q + fst rc < h)%nat /\ (p + snd rc < w)%nat) ->
  fold_left
    (fun acc rc =>
       res_bind acc (fun u =>
         setitem2 u (Z.of_nat q * 2 + (Z.of_nat (fst rc) - Z.of_nat q))
                    (Z.of_nat p * 2 + (Z.of_nat (snd rc) - Z.of_nat p))
                    (nth (snd rc) (nth (fst rc) dn []) NaN)))
    items (inr u)
  = inr (apply_writes u
           (map (fun rc => ((q + fst rc)%nat, (p + snd rc)%nat,
                            nth (snd rc) (nth (fst rc) dn []) NaN))
                items)).
Proof.
  revert u; induction items as [|[r' c'] items IH]; intros u Hl Hr Hin;
    [reflexivity|].
  destruct (Hin (r', c') (or_introl eq_refl)) as [Ha Hb].
  cbn [fst snd] in Ha, Hb.
  cbn [fold_left map apply_writes fst snd res_bind].
  replace (Z.of_nat q * 2 + (Z.of_nat r' - Z.of_nat q))%Z
    with (Z.of_nat (q + r')) by lia.
  replace (Z.of_nat p * 2 + (Z.of_nat c' - Z.of_nat p))%Z
    with (Z.of_nat (p + c')) by lia.
  assert (Hne : u <> []) by (destruct u; [simpl in Hl; lia | discriminate]).
  rewrite setitem2_in_range
    by (rewrite ?(n_columns_rows w u Hne Hr); lia).
  apply IH.
  - now rewrite set_cell_length.
  - now apply set_cell_rows.
  - intros rc Hrc. apply Hin. now right.
Qed.


Lemma mzeros_shape (h w : nat) :
  length (mzeros h w) = h /\ rows_of_length w (mzeros h w).
Proof.
  unfold mzeros, vzeros, rows_of_length. split; [apply repeat_length|].
  rewrite Forall_forall. intros x Hx. apply repeat_spec in Hx. subst.
  apply repeat_length.
Qed.

Section Umatrix.
Variables (s : SOM) (D : matrix) (r c : nat).
Hypothesis Hr : (0 < r)%nat.
Hypothesis Hc : (0 < c)%nat.
Hypothesis Hrows : n_rows s = Z.of_nat r.
Hypothesis Hcols : n_cols s = Z.of_nat c.
Hypothesis Hlat : lattice_distances (Z.of_nat c) (r * c) (d2mat s).
Hypothesis HD : dmat s = Some D.
Hypothesis HlD : length D = (r * c)%nat.
Hypothesis HrD : rows_of_length (r * c) D.

(** Row [i] of the masked distance matrix. *)
Lemma masked_row (i : nat) :
  (i < r * c)%nat ->
  exists masked flat,
    where_else_nan (map (map neighbour_mask) (d2mat s)) D = inr masked /\
    getrow masked i = inr flat /\
    flat = map (fun j => if adjacent c i j then mentry D i j else NaN)
               (seq 0 (r * c)).
Proof.
  intros Hi. assert (Hk : (0 < r * c)%nat) by nia.
  destruct Hlat as [Hl2 Hent].
  assert (Hrow2 : forall a, (a < r * c)%nat ->
             length (nth a (d2mat s) []) = (r * c)%nat)
    by (intros a Ha; now destruct (Hent a 0%nat Ha Hk)).
  assert (Hm : rows_of_length (r * c) (map (map neighbour_mask) (d2mat s))).
  { unfold rows_of_length. apply Forall_map. apply Forall_nth.
    intros a d Ha. rewrite length_map, (nth_indep _ d []) by exact Ha.
    apply Hrow2. congruence. }
  eexists. eexists.
  split; [apply (where_else_nan_spec _ D (r * c));
          [rewrite length_map; congruence | exact Hm | exact HrD]|].
  set (g := fun (t : bool) (v : F) => if t then v else NaN).
  assert (Hlm : length (map2 (map2 g) (map (map neighbour_mask) (d2mat s)) D)
                = (r * c)%nat)
    by (rewrite map2_length, length_map, Hl2, HlD; lia).
  split.
  { unfold getrow. rewrite (nth_error_nth' _ []) by (rewrite Hlm; exact Hi).
    reflexivity. }
  rewrite (map2_nth _ _ _ [] [] [])
    by (rewrite ?length_map; lia).
  rewrite (map_nth_in _ (d2mat s) [] []) by lia.
  assert (HDi : length (nth i D []) = (r * c)%nat).
  { unfold rows_of_length in HrD. rewrite Forall_forall in HrD.
    apply HrD. apply nth_In. lia. }
  apply (nth_ext _ _ NaN NaN).
  - rewrite map2_length, !length_map, length_seq, Hrow2, HDi by exact Hi.
    lia.
  - intros j Hj.
    rewrite map2_length, length_map, Hrow2, HDi in Hj by exact Hi.
    assert (Hj' : (j < r * c)%nat) by lia.
    rewrite (map2_nth _ _ _ false NaN NaN)
      by (rewrite ?length_map, ?Hrow2, ?HDi; auto).
    rewrite (map_nth_in _ _ 0%Z false) by (rewrite Hrow2; auto).
    rewrite (map_nth_in _ _ 0%nat NaN) by (rewrite length_seq; exact Hj').
    rewrite seq_nth by exact Hj'. cbn [Nat.add].
    change (nth j (nth i (d2mat s) []) 0%Z) with (entry (d2mat s) i j).
    rewrite (neighbour_mask_adjacent c (r * c)) by (auto; split; auto).
    reflexivity.
Qed.

(** One turn of the loop, as a list of writes. *)
Lemma umatrix_neuron_spec (u : matrix) (i : nat) :
  (i < r * c)%nat ->
  length u = (2 * r - 1)%nat -> rows_of_length (2 * c - 1) u ->
  umatrix_neuron s u i = inr (apply_writes u (writes_of r c D i)).
Proof.
  intros Hi Hlu Hru. unfold umatrix_neuron.
  rewrite HD. cbn [res_bind].
  destruct (masked_row i Hi) as (masked & flat & E1 & E2 & Hflat).
  rewrite E1. cbn [res_bind]. rewrite E2. cbn [res_bind].
  assert (Hlf : length flat = (r * c)%nat)
    by (rewrite Hflat, length_map, length_seq; reflexivity).
  unfold reshape2. rewrite Hrows, Hcols, Hlf, Nat2Z.inj_mul, Z.eqb_refl.
  rewrite !Nat2Z.id. cbn [res_bind].
  set (dn := chunks r c flat).
  rewrite <- Nat2Z.inj_div, <- Nat2Z.inj_mod.
  pose proof (quotient_bound r c i Hc Hi) as Hq.
  pose proof (remainder_bound c i Hc) as Hp.
  assert (Hne : u <> []) by (destruct u; [simpl in Hlu; lia | discriminate]).
  replace (Z.of_nat (i / c) * 2)%Z with (Z.of_nat (2 * (i / c))) by lia.
  replace (Z.of_nat (i mod c) * 2)%Z with (Z.of_nat (2 * (i mod c))) by lia.
  rewrite setitem2_in_range
    by (rewrite ?(n_columns_rows (2 * c - 1) u Hne Hru); lia).
  cbn [res_bind].
  replace (Z.of_nat (2 * (i / c))) with (Z.of_nat (i / c) * 2)%Z by lia.
  replace (Z.of_nat (2 * (i mod c))) with (Z.of_nat (i mod c) * 2)%Z by lia.
  assert (Emean : nanmean dn
                  = mean_of_present (neighbour_distances c (r * c) D i)).
  { unfold nanmean, mean_of_present, neighbour_distances, dn.
    rewrite chunks_concat by exact Hlf.
    rewrite Hflat, filter_masked. reflexivity. }
  assert (Hval : forall r' c', (r' < r)%nat -> (c' < c)%nat ->
            nth c' (nth r' dn []) NaN
            = if adjacent c i (r' * c + c')
              then mentry D i (r' * c + c') else NaN).
  { intros r' c' Hr' Hc'. unfold dn. rewrite chunks_entry by lia.
    rewrite Hflat.
    rewrite (map_nth_in _ _ 0%nat NaN) by (rewrite length_seq; nia).
    rewrite seq_nth by nia. reflexivity. }
  assert (Hrowp : forall r', (r' < r)%nat ->
            nth r' (map (map (fun v => negb (Fis_nan v))) dn) []
            = map (fun v => negb (Fis_nan v)) (nth r' dn [])).
  { intros r' Hr'. apply (map_nth_in _ dn [] []).
    unfold dn. now rewrite chunks_length. }
  assert (Hrowl : forall r', (r' < r)%nat -> length (nth r' dn []) = c)
    by (intros r' Hr'; unfold dn; now apply chunks_row_length).
  assert (Ewrites :
            map (fun rc => ((i / c + fst rc)%nat, (i mod c + snd rc)%nat,
                            nth (snd rc) (nth (fst rc) dn []) NaN))
                (nonzero2 (map (map (fun v => negb (Fis_nan v))) dn))
            = flat_map
                (fun r' =>
                   map (fun c' => ((i / c + r')%nat, (i mod c + c')%nat,
                                   mentry D i (r' * c + c')))
                       (filter (fun c' =>
                                  (adjacent c i (r' * c + c')
                                   && negb (Fis_nan
                                              (mentry D i (r' * c + c'))))%bool)
                               (seq 0 c)))
                (seq 0 r)).
  { unfold nonzero2. rewrite map_flat_map, length_map.
    replace (length dn) with r by (unfold dn; now rewrite chunks_length).
    apply flat_map_ext_in. intros r' Hr'. apply in_seq in Hr'.
    rewrite map_map. cbn [fst snd].
    rewrite Hrowp, length_map, Hrowl by lia.
    assert (Hfil : forall c', In c' (seq 0 c) ->
              nth c' (map (fun v => negb (Fis_nan v)) (nth r' dn [])) false
              = (adjacent c i (r' * c + c')
                 && negb (Fis_nan (mentry D i (r' * c + c'))))%bool).
    { intros c' Hc'. apply in_seq in Hc'.
      rewrite (map_nth_in _ _ NaN false) by (rewrite Hrowl; lia).
      rewrite Hval by lia.
      now destruct (adjacent c i (r' * c + c')). }
    rewrite (filter_ext_in _ _ _ Hfil).
    apply map_ext_in. intros c' Hc'. apply filter_In in Hc'.
    destruct Hc' as [Hc' Hpass]. apply in_seq in Hc'.
    apply andb_true_iff in Hpass. destruct Hpass as [Hadj _].
    rewrite Hval by lia. now rewrite Hadj. }
  rewrite (fold_setitem2 (2 * r - 1) (2 * c - 1) (i / c) (i mod c) dn).
  - rewrite Ewrites, Emean. reflexivity.
  - now rewrite set_cell_length.
  - now apply set_cell_rows.
  - intros [r' c'] Hin. cbn [fst snd]. unfold nonzero2 in Hin.
    apply in_flat_map in Hin. destruct Hin as (r'' & Hr'' & Hin).
    apply in_map_iff in Hin. destruct Hin as (c'' & E & Hc'').
    injection E as <- <-. apply in_seq in Hr''.
    apply filter_In in Hc''. destruct Hc'' as [Hc'' _].
    apply in_seq in Hc''.
    rewrite length_map in Hr''. unfold dn in Hr''.
    rewrite chunks_length in Hr''.
    rewrite Hrowp, length_map, Hrowl in Hc'' by lia.
    lia.
Qed.

Lemma umatrix_loop (l : list nat) (u : matrix) :
  (forall i, In i l -> (i < r * c)%nat) ->
  length u = (2 * r - 1)%nat -> rows_of_length (2 * c - 1) u ->
  fold_left (fun acc i => res_bind acc (fun u => umatrix_neuron s u i))
            l (inr u)
  = inr (apply_writes u (flat_map (writes_of r c D) l)).
Proof.
  revert u; induction l as [|i l IH]; intros u Hin Hl Hru; [reflexivity|].
  cbn [fold_left res_bind flat_map].
  rewrite umatrix_neuron_spec by (auto; apply Hin; now left).
  rewrite apply_writes_app.
  destruct (apply_writes_shape (2 * r - 1) (2 * c - 1) (writes_of r c D i)
              u Hl Hru) as [H1 H2].
  apply IH; auto. intros j Hj. apply Hin. now right.
Qed.

(** [umatrix] on a fitted trainer, as one list of writes on zeros. *)
Lemma umatrix_spec :
  umatrix s =
  inr (apply_writes (mzeros (2 * r - 1) (2 * c - 1))
                    (flat_map (writes_of r c D) (seq 0 (r * c)))).
Proof.
  unfold umatrix, zeros2. rewrite Hrows, Hcols.
  assert (E1 : (Z.of_nat r * 2 - 1 <? 0)%Z = false) by (apply Z.ltb_ge; lia).
  assert (E2 : (Z.of_nat c * 2 - 1 <? 0)%Z = false) by (apply Z.ltb_ge; lia).
  rewrite E1, E2. cbn [orb res_bind].
  replace (Z.to_nat (Z.of_nat r * 2 - 1)) with (2 * r - 1)%nat by lia.
  replace (Z.to_nat (Z.of_nat c * 2 - 1)) with (2 * c - 1)%nat by lia.
  rewrite <- Nat2Z.inj_mul, Nat2Z.id.
  destruct (mzeros_shape (2 * r - 1) (2 * c - 1)) as [H1 H2].
  apply umatrix_loop; auto.
  intros i Hi. apply in_seq in Hi. lia.
Qed.


End Umatrix.

Lemma mzeros_entry (h w a b : nat) :
  (a < h)%nat -> (b < w)%nat -> mentry (mzeros h w) a b = Fin 0.
Proof.
  intros Ha Hb. unfold mentry, mzeros, vzeros.
  rewrite (nth_indep _ [] (repeat (Fin 0) w)) by now rewrite repeat_length.
  rewrite nth_repeat. apply nth_repeat_lt. exact Hb.
Qed.

Lemma fold_res_bind_inl {A B} (f : A -> B -> res A) (l : list B) (e : exn) :
  fold_left (fun acc x => res_bind acc (fun a => f a x)) l (inl e) = inl e.
Proof. induction l as [|x l IH]; [reflexivity | exact IH]. Qed.

(** X23.  The U-matrix of a fitted trainer on an [r] x [c] lattice:
    [umatrix] builds a [(2r-1)] x [(2c-1)] array in which the cell
    [(2q, 2p)] of the neuron in row [q] and column [p] holds the mean of
    the feature-space distances from that neuron to its lattice
    neighbours (up to eight), [nan] distances left out; without any such
    distance the cell is [nan].  Later turns of the loop do not
    overwrite it. *)
Theorem umatrix_neuron_cells :
  forall (s : SOM) (D : matrix) (r c : nat),
    (0 < r)%nat -> (0 < c)%nat ->
    n_rows s = Z.of_nat r -> n_cols s = Z.of_nat c ->
    lattice_distances (Z.of_nat c) (r * c) (d2mat s) ->
    dmat s = Some D -> length D = (r * c)%nat -> rows_of_length (r * c) D ->
    exists U,
      umatrix s = inr U /\
      length U = (2 * r - 1)%nat /\ rows_of_length (2 * c - 1) U /\
      forall q p, (q < r)%nat -> (p < c)%nat ->
        mentry U (2 * q) (2 * p)
        = mean_of_present (neighbour_distances c (r * c) D (q * c + p)).
Proof.
  intros s D r c Hr Hc Hrows Hcols Hlat HD HlD HrD.
  eexists. split; [now apply (umatrix_spec s D r c)|].
  destruct (mzeros_shape (2 * r - 1) (2 * c - 1)) as [H1 H2].
  destruct (apply_writes_shape (2 * r - 1) (2 * c - 1)
              (flat_map (writes_of r c D) (seq 0 (r * c)))
              (mzeros (2 * r - 1) (2 * c - 1)) H1 H2) as [H3 H4].
  split; [exact H3|]. split; [exact H4|].
  intros q p Hq Hp.
  rewrite (apply_writes_get (2 * r - 1) (2 * c - 1)); auto.
  - destruct (position_of c q p Hc Hp) as [Eq Ep].
    assert (Hi : (q * c + p < r * c)%nat) by nia.
    pose proof (neuron_cell_last_write r c D (q * c + p) Hc Hi) as E.
    rewrite Eq, Ep in E. now rewrite E.
  - apply (all_writes_within r c D _ Hc).
    intros i Hi. apply in_seq in Hi. lia.
Qed.

Lemma umatrix_neuron_cells_witness :
  exists U,
    umatrix som_2x2_fitted = inr U /\
    length U = 3%nat /\ rows_of_length 3 U /\
    mentry U 0 0 = Fin (11 / 3) /\ mentry U 2 2 = Fin (17 / 3).
Proof.
  destruct (umatrix_neuron_cells som_2x2_fitted four_distances 2 2)
    as (U & HU & Hl & Hrw & Hcell).
  - lia.
  - lia.
  - reflexivity.
  - reflexivity.
  - exact (make_d2mat_lattice 2 2 ltac:(lia)).
  - reflexivity.
  - reflexivity.
  - repeat constructor.
  - exists U. split; [exact HU|]. split; [exact Hl|]. split; [exact Hrw|].
    split.
    + change (mentry U 0 0) with (mentry U (2 * 0) (2 * 0)).
      rewrite (Hcell 0%nat 0%nat) by lia.
      unfold mean_of_present, neighbour_distances, four_distances.
      cbn. unfold Fdiv. destruct (Req_dec_T (1 + 1 + 1) 0); [lra|].
      f_equal. lra.
    + change (mentry U 2 2) with (mentry U (2 * 1) (2 * 1)).
      rewrite (Hcell 1%nat 1%nat) by lia.
      unfold mean_of_present, neighbour_distances, four_distances.
      cbn. unfold Fdiv. destruct (Req_dec_T (1 + 1 + 1) 0); [lra|].
      f_equal. lra.
Defined.

(** X24.  Between the neurons, with the distances of a fitted trainer:
    the cell half-way between the neuron in row [q], column [p] and its
    neighbour to the right, below or diagonally below to the right holds
    the distance that the matrix stores for that neighbour and the
    neuron.  So where two diagonals cross between four neurons only the
    distance along the main diagonal is shown: the other one is
    overwritten. *)
Theorem umatrix_between_cells :
  forall (s : SOM) (D : matrix) (r c : nat),
    (0 < r)%nat -> (0 < c)%nat ->
    n_rows s = Z.of_nat r -> n_cols s = Z.of_nat c ->
    lattice_distances (Z.of_nat c) (r * c) (d2mat s) ->
    dmat s = Some D -> length D = (r * c)%nat -> rows_of_length (r * c) D ->
    exists U,
      umatrix s = inr U /\
      forall q p dq dp,
        (q + dq < r)%nat -> (p + dp < c)%nat ->
        (dq <= 1)%nat -> (dp <= 1)%nat -> (1 <= dq + dp)%nat ->
        Fis_nan (mentry D ((q + dq) * c + (p + dp)) (q * c + p)) = false ->
        mentry U (2 * q + dq) (2 * p + dp)
        = mentry D ((q + dq) * c + (p + dp)) (q * c + p).
Proof.
  intros s D r c Hr Hc Hrows Hcols Hlat HD HlD HrD.
  eexists. split; [now apply (umatrix_spec s D r c)|].
  destruct (mzeros_shape (2 * r - 1) (2 * c - 1)) as [H1 H2].
  intros q p dq dp Hq Hp Hdq Hdp Hd Hv.
  rewrite (apply_writes_get (2 * r - 1) (2 * c - 1)); auto.
  - now rewrite (between_cell_last_write r c D q p dq dp).
  - apply (all_writes_within r c D _ Hc).
    intros i Hi. apply in_seq in Hi. lia.
Qed.

Lemma umatrix_between_cells_witness :
  exists U,
    umatrix som_2x2_fitted = inr U /\
    mentry U 0 1 = Fin 1 /\ mentry U 1 0 = Fin 3 /\ mentry U 1 1 = Fin 7.
Proof.
  destruct (umatrix_between_cells som_2x2_fitted four_distances 2 2)
    as (U & HU & Hcell).
  - lia.
  - lia.
  - reflexivity.
  - reflexivity.
  - exact (make_d2mat_lattice 2 2 ltac:(lia)).
  - reflexivity.
  - reflexivity.
  - repeat constructor.
  - exists U. split; [exact HU|].
    split; [|split].
    + apply (Hcell 0%nat 0%nat 0%nat 1%nat); try lia. reflexivity.
    + apply (Hcell 0%nat 0%nat 1%nat 0%nat); try lia. reflexivity.
    + apply (Hcell 0%nat 0%nat 1%nat 1%nat); try lia. reflexivity.
Defined.

(** X25.  Where [umatrix] raises.  With [n_rows] or [n_cols] below one
    [np.zeros] is asked for a negative dimension: [ValueError].  On a
    lattice of at least one neuron whose trainer was never fitted the
    distance matrix is missing: [AttributeError] -- there is no message
    as [predict] has one. *)
Theorem umatrix_errors :
  forall (s : SOM),
    ((n_rows s <= 0)%Z \/ (n_cols s <= 0)%Z -> umatrix s = inl ValueError) /\
    ((1 <= n_rows s)%Z -> (1 <= n_cols s)%Z -> dmat s = None ->
     umatrix s = inl AttributeError).
Proof.
  intros s. unfold umatrix, zeros2. split.
  - intros H.
    assert (E : ((n_rows s * 2 - 1 <? 0)%Z || (n_cols s * 2 - 1 <? 0)%Z)%bool
                = true).
    { apply orb_true_iff. rewrite !Z.ltb_lt. lia. }
    now rewrite E.
  - intros Hr Hc HD.
    assert (E : ((n_rows s * 2 - 1 <? 0)%Z || (n_cols s * 2 - 1 <? 0)%Z)%bool
                = false).
    { apply orb_false_iff. rewrite !Z.ltb_ge. lia. }
    rewrite E. cbn [res_bind].
    destruct (Z.to_nat (n_rows s * n_cols s)) as [|k] eqn:Ek; [nia|].
    assert (E0 : forall u i, umatrix_neuron s u i = inl AttributeError)
      by (intros u i; unfold umatrix_neuron; now rewrite HD).
    cbn [seq fold_left res_bind]. rewrite E0.
    apply (fold_res_bind_inl (umatrix_neuron s)).
Qed.

Lemma umatrix_errors_witness :
  (exists s,
      SOM_init 0 3 "gaussian" 10 (1 / 2) (1 / 100) None "pca" = inr s /\
      umatrix s = inl ValueError) /\
  umatrix (som_1x2 "gaussian" 10 two_neurons) = inl AttributeError.
Proof.
  split.
  - eexists. split; [reflexivity|].
    apply umatrix_errors. left. simpl. lia.
  - apply umatrix_errors; [simpl; lia | simpl; lia | reflexivity].
Defined.

(** ** Cells that no turn of the loop writes *)

Lemma last_write_flat_map_none (a b : nat)
      (f : nat -> list (nat * nat * F)) (l : list nat) :
  (forall j, In j l -> last_write a b (f j) = None) ->
  last_write a b (flat_map f l) = None.
Proof.
  induction l as [|j l IH]; intros H; [reflexivity|].
  cbn [flat_map]. rewrite last_write_app.
  rewrite IH by (intros j' Hj'; apply H; now right).
  apply H. now left.
Qed.

Lemma neighbour_write_not_nan (r c : nat) (D : matrix) (i a b : nat)
      (v : F) :
  In (a, b, v) (writes_of r c D i) ->
  (a <> 2 * (i / c) \/ b <> 2 * (i mod c))%nat ->
  Fis_nan v = false.
Proof.
  unfold writes_of. intros [H|H] Hne.
  - injection H as <- <- _. lia.
  - apply in_flat_map in H. destruct H as (r' & _ & H).
    apply in_map_iff in H. destruct H as (c' & E & Hc').
    injection E as _ _ <-.
    apply filter_In in Hc'. destruct Hc' as [_ Hpass].
    apply andb_true_iff in Hpass. destruct Hpass as [_ Hv].
    now apply negb_true_iff in Hv.
Qed.

(** X26.  A distance that is [nan] in both directions leaves a zero in
    the U-matrix: the cell half-way between two neurons next to each
    other in a row or in a column is written by these two neurons only,
    and only with a distance that is not [nan]; otherwise it keeps the
    [0.0] that [np.zeros] put there. *)
Theorem umatrix_nan_distance_leaves_zero :
  forall (s : SOM) (D : matrix) (r c : nat),
    (0 < r)%nat -> (0 < c)%nat ->
    n_rows s = Z.of_nat r -> n_cols s = Z.of_nat c ->
    lattice_distances (Z.of_nat c) (r * c) (d2mat s) ->
    dmat s = Some D -> length D = (r * c)%nat -> rows_of_length (r * c) D ->
    exists U,
      umatrix s = inr U /\
      forall q p dq dp,
        (q + dq < r)%nat -> (p + dp < c)%nat -> (dq + dp = 1)%nat ->
        Fis_nan (mentry D ((q + dq) * c + (p + dp)) (q * c + p)) = true ->
        Fis_nan (mentry D (q * c + p) ((q + dq) * c + (p + dp))) = true ->
        mentry U (2 * q + dq) (2 * p + dp) = Fin 0.
Proof.
  intros s D r c Hr Hc Hrows Hcols Hlat HD HlD HrD.
  eexists. split; [now apply (umatrix_spec s D r c)|].
  destruct (mzeros_shape (2 * r - 1) (2 * c - 1)) as [H1 H2].
  intros q p dq dp Hq Hp Hd Hji Hij.
  rewrite (apply_writes_get (2 * r - 1) (2 * c - 1)); auto.
  2:{ apply (all_writes_within r c D _ Hc).
      intros i Hi. apply in_seq in Hi. lia. }
  rewrite last_write_flat_map_none; [apply mzeros_entry; lia|].
  intros j' Hj'. apply in_seq in Hj'.
  apply last_write_none. intros v Hin.
  pose proof (Nat.div_mod_eq j' c) as Ej.
  assert (Hv : Fis_nan v = false)
    by (apply (neighbour_write_not_nan r c D j' _ _ v Hin); lia).
  destruct (in_writes_of r c D j' _ _ v Hin)
    as [(Ha & Hb & _) | (r' & c' & Hr' & Hc' & Hadj & Ha & Hb & ->)];
    [lia|].
  apply adjacent_positions in Hadj; [|exact Hc|exact Hc'].
  assert (Hcase : (j' / c = q /\ j' mod c = p /\
                   r' = q + dq /\ c' = p + dp)%nat \/
                  (j' / c = q + dq /\ j' mod c = p + dp /\
                   r' = q /\ c' = p)%nat) by lia.
  destruct Hcase as [(E1 & E2 & -> & ->) | (E1 & E2 & -> & ->)];
    rewrite E1, E2 in Ej; rewrite Nat.mul_comm in Ej; subst j';
    congruence.
Qed.

Lemma umatrix_nan_distance_leaves_zero_witness :
  exists U,
    umatrix (set_dmat (Some [[Fin 0; NaN]; [NaN; Fin 0]])
                      (som_1x2 "bubble" 2 nan_codebook)) = inr U /\
    mentry U 0 1 = Fin 0.
Proof.
  destruct (umatrix_nan_distance_leaves_zero
              (set_dmat (Some [[Fin 0; NaN]; [NaN; Fin 0]])
                        (som_1x2 "bubble" 2 nan_codebook))
              [[Fin 0; NaN]; [NaN; Fin 0]] 1 2)
    as (U & HU & Hcell).
  - lia.
  - lia.
  - reflexivity.
  - reflexivity.
  - exact (make_d2mat_lattice 1 2 ltac:(lia)).
  - reflexivity.
  - reflexivity.
  - repeat constructor.
  - exists U. split; [exact HU|].
    apply (Hcell 0%nat 0%nat 0%nat 1%nat); try lia; reflexivity.
Defined.

(** ** [umatrix] after [fit] *)

(** X27.  After a [fit] on a lattice as the constructor builds it, with
    at least one row and one column, and on data for which the initialiser
    returns, [umatrix] does not raise: the distance matrix that [fit] stored has the shape the
    U-matrix needs, and the result is a [(2r-1)] x [(2c-1)] array. *)
Theorem umatrix_after_fit :
  forall (s : SOM) (X W0 : matrix) (h : R -> Z -> F) (r c f : nat)
         (out : list string),
    (0 < r)%nat -> (0 < c)%nat ->
    n_rows s = Z.of_nat r -> n_cols s = Z.of_nat c ->
    d2mat s = make_d2mat (Z.of_nat r) (Z.of_nat c) ->
    initialises s X ->
    kernel_of (neighbourhood s) = Some h ->
    (0 <= n_epochs s)%Z ->
    X <> [] -> rows_of_length f X ->
    length W0 = (r * c)%nat -> rows_of_length f W0 ->
    exists s' D U,
      fit X W0 s out = (inr tt, s', out) /\
      dmat s' = Some D /\
      umatrix s' = inr U /\
      length U = (2 * r - 1)%nat /\ rows_of_length (2 * c - 1) U.
Proof.
  intros s X W0 h r c f out Hr Hc Hrows Hcols Hd2 Hini Hfam Hn HXne HX
         Hk HW.
  assert (Hkk : Z.to_nat (Z.of_nat r * Z.of_nat c) = (r * c)%nat)
    by (rewrite <- Nat2Z.inj_mul; apply Nat2Z.id).
  assert (Hd : length (d2mat s) = (r * c)%nat)
    by (rewrite Hd2, make_d2mat_length; exact Hkk).
  assert (Hdr : rows_of_length (r * c) (d2mat s))
    by (rewrite Hd2, <- Hkk; apply make_d2mat_rows).
  assert (Hpos : (0 < r * c)%nat) by nia.
  destruct (sigs_of_nonneg s Hn) as (sigs & Hs & Hls).
  pose proof (fit_spec s X W0 h sigs (r * c) f out Hini Hfam Hs Hd Hdr Hpos
                HXne HX Hk HW) as Hfit.
  cbv zeta in Hfit.
  set (K := kernel_tensor h sigs (d2mat s)) in *.
  set (Wn := train_codebook K X (Z.to_nat (n_epochs s)) 0 W0) in *.
  assert (HK : kernel_shape (r * c) K) by now apply kernel_tensor_shape.
  assert (HlK : length K = Z.to_nat (n_epochs s))
    by (unfold K, kernel_tensor; now rewrite length_map).
  destruct (train_codebook_shape X K (r * c) f Hpos HXne HX HK
              (Z.to_nat (n_epochs s)) 0 W0) as [HWn1 HWn2];
    auto; try lia.
  fold Wn in HWn1, HWn2.
  set (s' := fitted (set_wts (Some W0) s) K X Wn) in *.
  assert (HlD : length (final_dmat Wn) = (r * c)%nat)
    by (unfold final_dmat; now rewrite length_map).
  assert (HrD : rows_of_length (r * c) (final_dmat Wn)).
  { unfold final_dmat, rows_of_length. apply Forall_map.
    rewrite Forall_forall. intros wa _. now rewrite length_map. }
  assert (Hlat : lattice_distances (Z.of_nat c) (r * c) (d2mat s')).
  { change (d2mat s') with (d2mat s). rewrite Hd2, <- Hkk.
    apply make_d2mat_lattice. lia. }
  exists s', (final_dmat Wn). eexists.
  split; [exact Hfit|]. split; [reflexivity|].
  split; [apply (umatrix_spec s' (final_dmat Wn) r c); auto|].
  destruct (mzeros_shape (2 * r - 1) (2 * c - 1)) as [H1 H2].
  now apply apply_writes_shape.
Qed.

Lemma umatrix_after_fit_witness :
  exists s' D U,
    fit three_samples two_neurons
        (som_1x2_with "gaussian" "random" 3 None None) []
      = (inr tt, s', []) /\
    dmat s' = Some D /\
    umatrix s' = inr U /\
    length U = 1%nat /\ rows_of_length 3 U.
Proof.
  apply (umatrix_after_fit (som_1x2_with "gaussian" "random" 3 None None)
           three_samples two_neurons gaussian 1 2 2 []).
  - lia.
  - lia.
  - reflexivity.
  - reflexivity.
  - reflexivity.
  - left; split; [reflexivity | simpl; lia].
  - reflexivity.
  - simpl; lia.
  - discriminate.
  - repeat constructor.
  - reflexivity.
  - repeat constructor.
Defined.
